(** * Gemini TTS client (src/gemini.js): a shallow embedding and its properties

    The development follows the source file top to bottom:

    - [JsString]   JavaScript strings as lists of UTF-16 code units, with the
                   string methods the client calls ([split], [trim],
                   [startsWith], [slice], [substring]);
    - [Utf8]       the platform's streaming [TextDecoder] (WHATWG UTF-8
                   decoder, replacement error mode, BOM stripping);
    - [Json]       [JSON.parse] and the optional-chaining path
                   [data?.candidates?.[0]?.content?.parts?.[0]?.inlineData?.data];
    - [Base64]     [Buffer.from(s, 'base64')];
    - [Effects]    a state-and-exception monad over the observable world
                   (network requests, timers, the body reader, the sink, the
                   logger, the caller's abort controller);
    - [Gemini]     [generateSpeech] and [generateSpeechStream] themselves;
    - [Observe]    what is read off the trace of a run, and the sample
                   environments of the examples;
    - [Frames]     the pure content of the decoder (the chunk of a line, the
                   lines of a body) and the automata that accept traces;
    - the theorems about them. *)

From Stdlib Require Import List ZArith Bool Lia Arith Ascii DecimalString.
From Stdlib Require String.
Import String.StringSyntax.
Import ListNotations.

#[global] Set Warnings "-register-all".
#[global] Set Warnings "-automation".


#[local] Open Scope string_scope.
#[local] Open Scope list_scope.
#[local] Open Scope Z_scope.

(* ------------------------------------------------------------------ *)
(** ** JavaScript strings *)

Module JsString.

(** A JavaScript string is a sequence of 16-bit code units. *)
Definition jstr := list Z.

(** An ASCII literal of the source, as code units. *)
Definition lit (s : String.string) : jstr :=
  map (fun a => Z.of_nat (nat_of_ascii a)) (String.list_ascii_of_string s).

(** Same, for literals that contain double quotes: the apostrophe (39) of
    the Rocq literal stands for the double quote (34) of the JavaScript one. *)
Definition litq (s : String.string) : jstr :=
  map (fun c => if c =? 39 then 34 else c) (lit s).

Fixpoint jstr_eqb (a b : jstr) : bool :=
  match a, b with
  | [], [] => true
  | x :: a', y :: b' => (x =? y) && jstr_eqb a' b'
  | _, _ => false
  end.

(** [String(n)] for a natural number and for an integer. *)
Definition jstr_of_nat (n : nat) : jstr := lit (NilZero.string_of_uint (Nat.to_uint n)).
Definition jstr_of_Z (z : Z) : jstr := lit (NilZero.string_of_int (Z.to_int z)).

(** [s.split('\n')]: never empty; the last fragment is what follows the
    last newline. *)
Fixpoint split_nl (s : jstr) : list jstr :=
  match s with
  | [] => [[]]
  | c :: s' =>
      if c =? 10 then [] :: split_nl s'
      else match split_nl s' with
           | [] => [[c]]
           | l :: ls => (c :: l) :: ls
           end
  end.

(** [s.startsWith(p)]. *)
Fixpoint startsWith (p s : jstr) : bool :=
  match p, s with
  | [], _ => true
  | x :: p', y :: s' => (x =? y) && startsWith p' s'
  | _ :: _, [] => false
  end.

(** [s.slice(n)] and [s.substring(0, n)] for a non-negative literal [n]. *)
Definition slice (n : nat) (s : jstr) : jstr := skipn n s.
Definition substring0 (n : nat) (s : jstr) : jstr := firstn n s.

(** ECMAScript WhiteSpace and LineTerminator code units, as stripped by
    [String.prototype.trim]. *)
Definition is_trim_space (c : Z) : bool :=
  ((9 <=? c) && (c <=? 13)) || (c =? 32) || (c =? 160) || (c =? 5760)
  || ((8192 <=? c) && (c <=? 8202)) || (c =? 8232) || (c =? 8233)
  || (c =? 8239) || (c =? 8287) || (c =? 12288) || (c =? 65279).

Fixpoint trimStart (s : jstr) : jstr :=
  match s with
  | [] => []
  | c :: s' => if is_trim_space c then trimStart s' else s
  end.

Definition trim (s : jstr) : jstr := rev (trimStart (rev (trimStart s))).

(** Truthiness of a string: non-empty. *)
Definition nonempty (s : jstr) : bool :=
  match s with [] => false | _ => true end.

End JsString.
Import JsString.

(* ------------------------------------------------------------------ *)
(** ** The platform's TextDecoder (UTF-8, non-fatal, BOM not ignored) *)

Module Utf8.

Record utf8_state := mk_utf8 {
  code_point : Z;
  bytes_seen : Z;
  bytes_needed : Z;
  lower_boundary : Z;
  upper_boundary : Z
}.

Definition utf8_init : utf8_state := mk_utf8 0 0 0 128 191.

Definition in_range (lo hi b : Z) : bool := (lo <=? b) && (b <=? hi).

(** A lead byte (no continuation pending). *)
Definition lead (b : Z) : utf8_state * list Z :=
  if in_range 0 127 b then (utf8_init, [b])
  else if in_range 194 223 b then
    (mk_utf8 (Z.land b 31) 0 1 128 191, [])
  else if in_range 224 239 b then
    (mk_utf8 (Z.land b 15) 0 2
             (if b =? 224 then 160 else 128)
             (if b =? 237 then 159 else 191), [])
  else if in_range 240 244 b then
    (mk_utf8 (Z.land b 7) 0 3
             (if b =? 240 then 144 else 128)
             (if b =? 244 then 143 else 191), [])
  else (utf8_init, [65533]).

(** The decoder's handler on one byte: the new state and the code points
    it emits. A byte outside the expected continuation range yields U+FFFD
    and is then handled again as a lead byte. *)
Definition handler (st : utf8_state) (b : Z) : utf8_state * list Z :=
  if bytes_needed st =? 0 then lead b
  else if negb (in_range (lower_boundary st) (upper_boundary st) b) then
    let (st', out) := lead b in (st', 65533 :: out)
  else
    let cp := Z.lor (Z.shiftl (code_point st) 6) (Z.land b 63) in
    let seen := bytes_seen st + 1 in
    if seen =? bytes_needed st then (utf8_init, [cp])
    else (mk_utf8 cp seen (bytes_needed st) 128 191, []).

(** The handler on end-of-queue. *)
Definition handler_eoq (st : utf8_state) : list Z :=
  if bytes_needed st =? 0 then [] else [65533].

Fixpoint run_handler (st : utf8_state) (bs : list Z) : utf8_state * list Z :=
  match bs with
  | [] => (st, [])
  | b :: bs' =>
      let (st1, out1) := handler st b in
      let (st2, out2) := run_handler st1 bs' in
      (st2, out1 ++ out2)
  end.

(** A code point as one or two UTF-16 code units. *)
Definition code_units (cp : Z) : jstr :=
  if cp <? 65536 then [cp]
  else [55296 + Z.shiftr (cp - 65536) 10; 56320 + Z.land (cp - 65536) 1023].

(** Serialising the decoder's output: the first code point is dropped when
    it is the byte order mark. *)
Fixpoint serialize (bom_seen : bool) (cps : list Z) : bool * jstr :=
  match cps with
  | [] => (bom_seen, [])
  | cp :: cps' =>
      let (b, out) := serialize true cps' in
      if negb bom_seen && (cp =? 65279) then (b, out)
      else (b, code_units cp ++ out)
  end.

Record TextDecoder := mk_decoder {
  dec_state : utf8_state;
  dec_bom_seen : bool
}.

(** [new TextDecoder()]. *)
Definition new_TextDecoder : TextDecoder := mk_decoder utf8_init false.

(** [decoder.decode(value, { stream: true })]. *)
Definition decode_stream (d : TextDecoder) (value : list Z) : jstr * TextDecoder :=
  let (st, cps) := run_handler (dec_state d) value in
  let (b, out) := serialize (dec_bom_seen d) cps in
  (out, mk_decoder st b).

(** [decoder.decode()]: the final flush. *)
Definition decode_flush (d : TextDecoder) : jstr :=
  snd (serialize (dec_bom_seen d) (handler_eoq (dec_state d))).

(** "UTF-8 decode" of a whole body, as done by [response.text()] and
    [response.json()]. *)
Definition utf8_decode (bytes : list Z) : jstr :=
  let (s, d) := decode_stream new_TextDecoder bytes in s ++ decode_flush d.

End Utf8.
Import Utf8.

(* ------------------------------------------------------------------ *)
(** ** JSON values, JSON.parse and the audio path *)

Module Json.

(** The values [JSON.parse] produces. A number keeps its source literal:
    the client only ever tests it for truthiness. An object keeps its
    members in source order; on duplicate keys the last one wins. *)
Inductive json :=
| JNull
| JBool (b : bool)
| JNum (literal : jstr)
| JStr (s : jstr)
| JArr (items : list json)
| JObj (members : list (jstr * json)).

Definition is_json_ws (c : Z) : bool :=
  (c =? 32) || (c =? 9) || (c =? 10) || (c =? 13).

Fixpoint skip_ws (s : jstr) : jstr :=
  match s with
  | [] => []
  | c :: s' => if is_json_ws c then skip_ws s' else s
  end.

Definition is_digit (c : Z) : bool := (48 <=? c) && (c <=? 57).

Definition hex_value (c : Z) : option Z :=
  if is_digit c then Some (c - 48)
  else if (65 <=? c) && (c <=? 70) then Some (c - 55)
  else if (97 <=? c) && (c <=? 102) then Some (c - 87)
  else None.

(** The characters of a string literal after its opening quote, up to and
    including the closing quote. *)
Fixpoint parse_string_chars (s : jstr) : option (jstr * jstr) :=
  match s with
  | [] => None
  | c :: r =>
      if c =? 34 then Some ([], r)
      else if c <? 32 then None
      else if c =? 92 then
        match r with
        | [] => None
        | e :: r1 =>
            if e =? 117 then
              match r1 with
              | h1 :: h2 :: h3 :: h4 :: r2 =>
                  match hex_value h1, hex_value h2, hex_value h3, hex_value h4 with
                  | Some a, Some b, Some c', Some d =>
                      match parse_string_chars r2 with
                      | Some (str, rest) =>
                          Some (((a * 16 + b) * 16 + c') * 16 + d :: str, rest)
                      | None => None
                      end
                  | _, _, _, _ => None
                  end
              | _ => None
              end
            else
              let unescaped :=
                if e =? 34 then Some 34
                else if e =? 92 then Some 92
                else if e =? 47 then Some 47
                else if e =? 98 then Some 8
                else if e =? 102 then Some 12
                else if e =? 110 then Some 10
                else if e =? 114 then Some 13
                else if e =? 116 then Some 9
                else None in
              match unescaped with
              | Some u =>
                  match parse_string_chars r1 with
                  | Some (str, rest) => Some (u :: str, rest)
                  | None => None
                  end
              | None => None
              end
        end
      else
        match parse_string_chars r with
        | Some (str, rest) => Some (c :: str, rest)
        | None => None
        end
  end.

Fixpoint span_digits (s : jstr) : jstr * jstr :=
  match s with
  | [] => ([], [])
  | c :: r =>
      if is_digit c then let (d, rest) := span_digits r in (c :: d, rest)
      else ([], s)
  end.

(** A number literal: an optional minus sign; an integer part that is 0 or
    starts with a non-zero digit; an optional fraction (a dot and at least
    one digit); an optional exponent (e or E, an optional sign, at least one
    digit). *)
Definition parse_number (s : jstr) : option (jstr * jstr) :=
  let (sign, s1) :=
    match s with
    | c :: r => if c =? 45 then ([45], r) else ([], s)
    | [] => ([], s)
    end in
  let (int, s2) := span_digits s1 in
  match int with
  | [] => None
  | d :: ds =>
      if (d =? 48) && JsString.nonempty ds then None
      else
        let frac :=
          match s2 with
          | c :: r =>
              if c =? 46 then
                let (f, s3) := span_digits r in
                match f with
                | [] => None
                | _ => Some (46 :: f, s3)
                end
              else Some ([], s2)
          | [] => Some ([], s2)
          end in
        match frac with
        | None => None
        | Some (fr, s3) =>
            let exp :=
              match s3 with
              | c :: r =>
                  if (c =? 101) || (c =? 69) then
                    let (sg, r1) :=
                      match r with
                      | c1 :: r' =>
                          if (c1 =? 43) || (c1 =? 45) then ([c1], r') else ([], r)
                      | [] => ([], r)
                      end in
                    let (e, s4) := span_digits r1 in
                    match e with
                    | [] => None
                    | _ => Some (c :: sg ++ e, s4)
                    end
                  else Some ([], s3)
              | [] => Some ([], s3)
              end in
            match exp with
            | None => None
            | Some (ex, s4) => Some (sign ++ int ++ fr ++ ex, s4)
            end
        end
  end.

(** Recursive descent, with fuel for the nesting. *)
Fixpoint parse_value (fuel : nat) (s : jstr) : option (json * jstr) :=
  match fuel with
  | O => None
  | S f =>
      match skip_ws s with
      | [] => None
      | c :: r =>
          if c =? 123 then
            match skip_ws r with
            | c1 :: r1 =>
                if c1 =? 125 then Some (JObj [], r1)
                else parse_members f (skip_ws r) []
            | [] => None
            end
          else if c =? 91 then
            match skip_ws r with
            | c1 :: r1 =>
                if c1 =? 93 then Some (JArr [], r1)
                else parse_elements f (skip_ws r) []
            | [] => None
            end
          else if c =? 34 then
            match parse_string_chars r with
            | Some (str, rest) => Some (JStr str, rest)
            | None => None
            end
          else if (c =? 45) || is_digit c then
            match parse_number (c :: r) with
            | Some (n, rest) => Some (JNum n, rest)
            | None => None
            end
          else if startsWith (lit "true") (c :: r) then
            Some (JBool true, skipn 4 (c :: r))
          else if startsWith (lit "false") (c :: r) then
            Some (JBool false, skipn 5 (c :: r))
          else if startsWith (lit "null") (c :: r) then
            Some (JNull, skipn 4 (c :: r))
          else None
      end
  end
with parse_elements (fuel : nat) (s : jstr) (acc : list json)
  : option (json * jstr) :=
  match fuel with
  | O => None
  | S f =>
      match parse_value f s with
      | Some (v, r) =>
          match skip_ws r with
          | c :: r1 =>
              if c =? 44 then parse_elements f r1 (v :: acc)
              else if c =? 93 then Some (JArr (rev (v :: acc)), r1)
              else None
          | [] => None
          end
      | None => None
      end
  end
with parse_members (fuel : nat) (s : jstr) (acc : list (jstr * json))
  : option (json * jstr) :=
  match fuel with
  | O => None
  | S f =>
      match skip_ws s with
      | q :: r =>
          if q =? 34 then
            match parse_string_chars r with
            | Some (key, r1) =>
                match skip_ws r1 with
                | c :: r2 =>
                    if c =? 58 then
                      match parse_value f r2 with
                      | Some (v, r3) =>
                          match skip_ws r3 with
                          | c' :: r4 =>
                              if c' =? 44 then parse_members f r4 ((key, v) :: acc)
                              else if c' =? 125 then
                                Some (JObj (rev ((key, v) :: acc)), r4)
                              else None
                          | [] => None
                          end
                      | None => None
                      end
                    else None
                | [] => None
                end
            | None => None
            end
          else None
      | [] => None
      end
  end.

(** [JSON.parse(text)]; [None] stands for the SyntaxError it throws. *)
Definition JSON_parse (text : jstr) : option json :=
  match parse_value (2 * length text + 2) text with
  | Some (v, rest) =>
      match skip_ws rest with
      | [] => Some v
      | _ => None
      end
  | None => None
  end.

(** A JavaScript value reached from a parsed document: [None] is
    [undefined]. *)
Definition jsval := option json.

(** Own property of an object: the last member with that key. *)
Fixpoint lookup (key : jstr) (members : list (jstr * json)) : jsval :=
  match members with
  | [] => None
  | (k, v) :: rest =>
      match lookup key rest with
      | Some v' => Some v'
      | None => if jstr_eqb k key then Some v else None
      end
  end.

(** [v?.name] for a property name that no built-in prototype defines
    (candidates, content, parts, inlineData, data). *)
Definition opt_prop (name : jstr) (v : jsval) : jsval :=
  match v with
  | Some (JObj members) => lookup name members
  | _ => None
  end.

(** [v?.[0]]. *)
Definition opt_index0 (v : jsval) : jsval :=
  match v with
  | Some (JArr items) => nth_error items 0
  | Some (JObj members) => lookup (lit "0") members
  | Some (JStr (c :: _)) => Some (JStr [c])
  | _ => None
  end.

(** [data?.candidates?.[0]?.content?.parts?.[0]?.inlineData?.data]. *)
Definition audio_path (data : jsval) : jsval :=
  opt_prop (lit "data")
    (opt_prop (lit "inlineData")
      (opt_index0
        (opt_prop (lit "parts")
          (opt_prop (lit "content")
            (opt_index0
              (opt_prop (lit "candidates") data)))))).

(** A number literal denotes zero when its mantissa has no non-zero digit
    (underflow of a non-zero literal to 0 is not modelled). *)
Fixpoint mantissa_zero (s : jstr) : bool :=
  match s with
  | [] => true
  | c :: r =>
      if (c =? 101) || (c =? 69) then true
      else if (49 <=? c) && (c <=? 57) then false
      else mantissa_zero r
  end.

(** ToBoolean. *)
Definition truthy (v : jsval) : bool :=
  match v with
  | None => false
  | Some JNull => false
  | Some (JBool b) => b
  | Some (JNum n) => negb (mantissa_zero n)
  | Some (JStr s) => JsString.nonempty s
  | Some (JArr _) => true
  | Some (JObj _) => true
  end.

End Json.
Import Json.

(* ------------------------------------------------------------------ *)
(** ** Buffer.from(string, 'base64') *)

Module Base64.

(** The sextet of a base64 character; both the standard and the URL-safe
    alphabet are accepted. *)
Definition unbase64 (c : Z) : option Z :=
  if (65 <=? c) && (c <=? 90) then Some (c - 65)
  else if (97 <=? c) && (c <=? 122) then Some (c - 71)
  else if (48 <=? c) && (c <=? 57) then Some (c + 4)
  else if (c =? 43) || (c =? 45) then Some 62
  else if (c =? 47) || (c =? 95) then Some 63
  else None.

(** Characters outside the alphabet are skipped; decoding stops at the
    first padding character. *)
Fixpoint sextets (s : jstr) : list Z :=
  match s with
  | [] => []
  | c :: r =>
      if c =? 61 then []
      else match unbase64 c with
           | Some v => v :: sextets r
           | None => sextets r
           end
  end.

Fixpoint bytes_of_sextets (l : list Z) : list Z :=
  match l with
  | a :: b :: c :: d :: r =>
      Z.lor (Z.shiftl a 2) (Z.shiftr b 4)
      :: Z.lor (Z.shiftl (Z.land b 15) 4) (Z.shiftr c 2)
      :: Z.lor (Z.shiftl (Z.land c 3) 6) d
      :: bytes_of_sextets r
  | [a; b; c] =>
      [Z.lor (Z.shiftl a 2) (Z.shiftr b 4);
       Z.lor (Z.shiftl (Z.land b 15) 4) (Z.shiftr c 2)]
  | [a; b] => [Z.lor (Z.shiftl a 2) (Z.shiftr b 4)]
  | _ => []
  end.

Definition base64_decode (s : jstr) : list Z := bytes_of_sextets (sextets s).

End Base64.
Import Base64.

(* ------------------------------------------------------------------ *)
(** ** Effects: the world the client runs in *)

Module Effects.

Inductive Level := debug | info | warn | error.

(** [LOG_LEVELS] of logger.js, and its test
    [LOG_LEVELS[level] < currentLevel], which drops a message. *)
Definition LOG_LEVELS (l : Level) : nat :=
  match l with debug => 0 | info => 1 | warn => 2 | error => 3 end.

Definition printed (currentLevel : nat) (l : Level) : bool :=
  negb (LOG_LEVELS l <? currentLevel)%nat.

(** An error object, as far as the client looks at it. *)
Record JsError := mk_error { err_name : jstr; err_message : jstr }.

Definition Error (message : jstr) : JsError := mk_error (lit "Error") message.
Definition TypeError (message : jstr) : JsError := mk_error (lit "TypeError") message.
Definition SyntaxError (message : jstr) : JsError := mk_error (lit "SyntaxError") message.

(** How a computation completes. The thrown value [None] is [undefined]
    (what [throw lastError] throws when [lastError] was never assigned). *)
Inductive Outcome (A : Type) :=
| Ret (a : A)
| Throw (e : option JsError).
Arguments Ret {A} a.
Arguments Throw {A} e.

(** A response of the provider: its status and its body, as the pushes the
    body stream delivers and the error that ends it, if one does. *)
Record Response := mk_response {
  status : nat;
  body_pushes : list (list Z);
  body_error : option JsError
}.

(** [response.ok]. *)
Definition ok (r : Response) : bool :=
  (200 <=? status r)%nat && (status r <=? 299)%nat.

Inductive FetchOutcome :=
| FetchRejects (e : JsError)
| FetchResolves (r : Response).

(** The second argument of a logger call. *)
Inductive LogData :=
| NoData
| DataText (s : jstr)
| DataJson (v : json)
| DataRequest (text voiceName url : jstr).

Inductive Event :=
| EvLog (l : Level) (message : jstr) (data : LogData)
| EvRequest (url : jstr) (body : json)   (* a request goes out on the network *)
| EvSleep (ms : nat)                     (* setTimeout(resolve, ms) *)
| EvGetReader
| EvRead (value : option (list Z))       (* a read resolves: a push, or done *)
| EvChunk (pcm : list Z)                 (* onChunk is invoked *)
| EvChunkSettled                         (* the promise onChunk returned settles *)
| EvReleaseLock
| EvAbort.                               (* the caller's controller aborts *)

(** What the client does not control.

    The caller's abort controller fires while the client is suspended at
    its [caller_aborts_at]-th suspension point, counted from 1 (0: it has
    fired before the call; [None]: it never fires). *)
Record Env := mk_env {
  env_fetch : nat -> FetchOutcome;      (* outcome of the n-th request sent *)
  env_clock : nat -> Z;                 (* value of the n-th Date.now() *)
  caller_aborts_at : option nat;
  abort_reason : JsError;
  (* Buffer.from on an array or object; None is the TypeError it throws *)
  Buffer_from_object : json -> option (list Z)
}.

(** The caller's sink: how its n-th invocation, on a given chunk, settles. *)
Definition Sink := nat -> list Z -> Outcome unit.

Record World := mk_world {
  trace : list Event;     (* what has happened, oldest first *)
  ticks : nat;            (* suspension points passed *)
  requests : nat;         (* requests sent *)
  clock_reads : nat;      (* Date.now() calls *)
  sink_calls : nat;       (* onChunk invocations *)
  totalBytes : nat        (* the local variable of generateSpeechStream that
                             is assigned inside a try block *)
}.

Definition initial_world : World := mk_world [] 0 0 0 0 0.

Definition M (A : Type) := World -> Outcome A * World.

Definition ret {A} (a : A) : M A := fun w => (Ret a, w).
Definition throw {A} (e : option JsError) : M A := fun w => (Throw e, w).

Definition bind {A B} (m : M A) (k : A -> M B) : M B :=
  fun w =>
    match m w with
    | (Ret a, w') => k a w'
    | (Throw e, w') => (Throw e, w')
    end.

(** [try { m } catch (error) { h error }]. *)
Definition try_catch {A} (m : M A) (h : option JsError -> M A) : M A :=
  fun w =>
    match m w with
    | (Ret a, w') => (Ret a, w')
    | (Throw e, w') => h e w'
    end.

(** [try { m } finally { f }]. *)
Definition try_finally {A} (m : M A) (f : M unit) : M A :=
  fun w =>
    let (r, w') := m w in
    match f w' with
    | (Ret _, w'') => (r, w'')
    | (Throw e, w'') => (Throw e, w'')
    end.

Declare Scope monad_scope.
Delimit Scope monad_scope with monad.
Notation "x <- m ;; k" := (bind m (fun x => k))
  (at level 61, m at next level, right associativity) : monad_scope.
Notation "m ;; k" := (bind m (fun _ => k))
  (at level 61, right associativity) : monad_scope.
#[local] Open Scope monad_scope.

Definition emit (e : Event) : M unit :=
  fun w => (Ret tt, mk_world (trace w ++ [e]) (ticks w) (requests w)
                             (clock_reads w) (sink_calls w) (totalBytes w)).

Section WithEnv.

Variable env : Env.

(** [signal.aborted] of the caller's controller. *)
Definition aborted (w : World) : bool :=
  match caller_aborts_at env with
  | Some t => (t <=? ticks w)%nat
  | None => false
  end.

(** What the caller's controller does while the client is suspended for
    the [n]-th time. *)
Definition abort_mark (n : nat) : list Event :=
  match caller_aborts_at env with
  | Some t => if (t =? n)%nat then [EvAbort] else []
  | None => []
  end.

(** One suspension point: control goes back to the event loop, where the
    caller's controller may fire. *)
Definition tick : M unit :=
  fun w =>
    (Ret tt, mk_world (trace w ++ abort_mark (S (ticks w))) (S (ticks w))
                      (requests w) (clock_reads w) (sink_calls w)
                      (totalBytes w)).

(** [Date.now()]. *)
Definition Date_now : M Z :=
  fun w => (Ret (env_clock env (clock_reads w)),
            mk_world (trace w) (ticks w) (requests w)
                     (S (clock_reads w)) (sink_calls w) (totalBytes w)).

(** [sleep(ms)]: a timer, which no signal interrupts. *)
Definition sleep (ms : nat) : M unit := emit (EvSleep ms) ;; tick.

(** A call of [logger.debug], [logger.info], [logger.warn] or
    [logger.error]; logger.js prints it when [printed] says so. *)
Definition logger (l : Level) (message : jstr) (data : LogData) : M unit :=
  emit (EvLog l message data).

Definition next_request : M nat :=
  fun w => (Ret (requests w),
            mk_world (trace w) (ticks w) (S (requests w))
                     (clock_reads w) (sink_calls w) (totalBytes w)).

(** [fetch(url, { method: 'POST', ..., body: JSON.stringify(body), signal })].
    [signal] tells whether the caller's signal is passed. With an aborted
    signal the call rejects with the abort reason and nothing is sent. *)
Definition fetch (url : jstr) (body : json) (signal : bool) : M Response :=
  fun w =>
    if signal && aborted w then (Throw (Some (abort_reason env)), w)
    else
      (emit (EvRequest url body) ;;
       n <- next_request ;;
       tick ;;
       fun w' =>
         if signal && aborted w' then (Throw (Some (abort_reason env)), w')
         else match env_fetch env n with
              | FetchRejects e => (Throw (Some e), w')
              | FetchResolves r => (Ret r, w')
              end) w.

(** Reading a whole body, for [response.text()] and [response.json()]. *)
Definition read_body (signal : bool) (r : Response) : M jstr :=
  tick ;;
  fun w =>
    if signal && aborted w then (Throw (Some (abort_reason env)), w)
    else match body_error r with
         | Some e => (Throw (Some e), w)
         | None => (Ret (utf8_decode (concat (body_pushes r))), w)
         end.

Definition response_text (signal : bool) (r : Response) : M jstr :=
  read_body signal r.

Definition response_json (signal : bool) (r : Response) : M json :=
  text <- read_body signal r ;;
  match JSON_parse text with
  | Some v => ret v
  | None => throw (Some (SyntaxError (lit "Unexpected token in JSON")))
  end.

(** [reader.read()], where [next] is what the body stream holds next
    ([None]: nothing more) and [ending] how the stream ends. *)
Definition reader_read (signal : bool) (ending : option JsError)
    (next : option (list Z)) : M (option (list Z)) :=
  tick ;;
  fun w =>
    if signal && aborted w then (Throw (Some (abort_reason env)), w)
    else match next, ending with
         | Some value, _ => (emit (EvRead (Some value)) ;; ret (Some value)) w
         | None, Some e => (Throw (Some e), w)
         | None, None => (emit (EvRead None) ;; ret None) w
         end.

(** [await onChunk(pcm)]. *)
Definition call_sink (onChunk : Sink) (pcm : list Z) : M unit :=
  emit (EvChunk pcm) ;;
  fun w =>
    let n := sink_calls w in
    (tick ;;
     emit EvChunkSettled ;;
     fun w' =>
       match onChunk n pcm with
       | Ret _ => (Ret tt, w')
       | Throw e => (Throw e, w')
       end)
      (mk_world (trace w) (ticks w) (requests w) (clock_reads w)
                (S (sink_calls w)) (totalBytes w)).

(** [Buffer.from(audioData, 'base64')] for a truthy [audioData]. *)
Definition Buffer_from (audioData : jsval) : M (list Z) :=
  match audioData with
  | Some (JStr s) => ret (base64_decode s)
  | Some (JArr items) =>
      match Buffer_from_object env (JArr items) with
      | Some b => ret b
      | None => throw (Some (TypeError (lit "The first argument must be of type string or an instance of Buffer, ArrayBuffer, or Array or an Array-like Object.")))
      end
  | Some (JObj members) =>
      match Buffer_from_object env (JObj members) with
      | Some b => ret b
      | None => throw (Some (TypeError (lit "The first argument must be of type string or an instance of Buffer, ArrayBuffer, or Array or an Array-like Object.")))
      end
  | _ => throw (Some (TypeError (lit "The first argument must be of type string or an instance of Buffer, ArrayBuffer, or Array or an Array-like Object.")))
  end.

Definition set_totalBytes (n : nat) : M unit :=
  fun w => (Ret tt, mk_world (trace w) (ticks w) (requests w)
                             (clock_reads w) (sink_calls w) n).

Definition get_totalBytes : M nat := fun w => (Ret (totalBytes w), w).

End WithEnv.

End Effects.
Import Effects.
#[local] Open Scope monad_scope.

(* ------------------------------------------------------------------ *)
(** ** src/gemini.js *)

Module Gemini.

Definition GEMINI_TTS_URL : jstr :=
  lit "https://generativelanguage.googleapis.com/v1beta/models/gemini-2.5-flash-preview-tts:generateContent".
Definition GEMINI_TTS_STREAM_URL : jstr :=
  lit "https://generativelanguage.googleapis.com/v1beta/models/gemini-2.5-flash-preview-tts:streamGenerateContent".

(** The credential argument: [None] is [undefined]. *)
Definition key_truthy (apiKey : option jstr) : bool :=
  match apiKey with
  | Some k => JsString.nonempty k
  | None => false
  end.

Definition key_text (apiKey : option jstr) : jstr :=
  match apiKey with
  | Some k => k
  | None => lit "undefined"
  end.

Definition requestBody (text voiceName : jstr) : json :=
  JObj [
    (lit "contents",
     JArr [JObj [(lit "parts", JArr [JObj [(lit "text", JStr text)]])]]);
    (lit "generationConfig",
     JObj [
       (lit "responseModalities", JArr [JStr (lit "AUDIO")]);
       (lit "speechConfig",
        JObj [(lit "voiceConfig",
               JObj [(lit "prebuiltVoiceConfig",
                      JObj [(lit "voiceName", JStr voiceName)])])])])
  ].

(** [text.substring(0, 100) + (text.length > 100 ? '...' : '')]. *)
Definition preview (text : jstr) : jstr :=
  substring0 100 text ++ (if (100 <? length text)%nat then lit "..." else []).

(** `Gemini API error: ${response.status} - ${errorText}` *)
Definition api_error (st : nat) (errorText : jstr) : JsError :=
  Error (lit "Gemini API error: " ++ jstr_of_nat st ++ lit " - " ++ errorText).

(** [error.message] in a catch block. *)
Definition message_of (error : option JsError) : M jstr :=
  match error with
  | Some e => ret (err_message e)
  | None => throw (Some (TypeError (lit "Cannot read properties of undefined (reading 'message')")))
  end.

Section WithEnv.

Variable env : Env.

(** *** generateSpeech *)

(** The body of the [try] block of one attempt (lines 46-90); its value is
    what the function returns. *)
Definition speech_attempt (text voiceName : jstr) (apiKey : option jstr)
    (attempt retries : nat) : M (list Z) :=
  logger debug
    (lit "Sending request to Gemini TTS API (Attempt " ++ jstr_of_nat attempt
       ++ lit "/" ++ jstr_of_nat retries ++ lit ")")
    (DataRequest (preview text) voiceName GEMINI_TTS_URL) ;;
  startTime <- Date_now env ;;
  response <- fetch env (GEMINI_TTS_URL ++ lit "?key=" ++ key_text apiKey)
                    (requestBody text voiceName) false ;;
  now <- Date_now env ;;
  let elapsed := now - startTime in
  if negb (ok response) then
    errorText <- response_text env false response ;;
    if (500 <=? status response)%nat then
      throw (Some (api_error (status response) errorText))
    else
      logger error
        (lit "Gemini API error (" ++ jstr_of_nat (status response) ++ lit ")")
        (DataText errorText) ;;
      throw (Some (api_error (status response) errorText))
  else
    data <- response_json env false response ;;
    logger debug
      (lit "Gemini API response received in " ++ jstr_of_Z elapsed ++ lit "ms")
      NoData ;;
    let audioData := audio_path (Some data) in
    if negb (truthy audioData) then
      logger error (lit "No audio data in Gemini response") (DataJson data) ;;
      throw (Some (Error (lit "No audio data received from Gemini API")))
    else
      pcmBuffer <- Buffer_from env audioData ;;
      logger info
        (lit "Generated " ++ jstr_of_nat (length pcmBuffer)
           ++ litq " bytes of PCM audio for '" ++ substring0 50 text
           ++ litq "...' using voice " ++ voiceName)
        NoData ;;
      ret pcmBuffer.

(** The [catch] block of one attempt (lines 92-102), up to the point where
    the loop goes on; [lastError = error] is the value handed on. *)
Definition speech_catch (attempt retries : nat) (error : option JsError)
    : M unit :=
  message <- message_of error ;;
  logger warn
    (lit "Attempt " ++ jstr_of_nat attempt ++ lit " failed: " ++ message)
    NoData ;;
  if (attempt <? retries)%nat then
    let delay := (attempt * 1000)%nat in
    logger info (lit "Retrying in " ++ jstr_of_nat delay ++ lit "ms...") NoData ;;
    sleep env delay
  else ret tt.

(** [for (let attempt = 1; attempt <= retries; attempt++) { ... }
     throw lastError;]  The loop runs at most [retries] times, which is the
    fuel [generateSpeech] gives it. *)
Fixpoint speech_loop (fuel : nat) (text voiceName : jstr)
    (apiKey : option jstr) (retries attempt : nat)
    (lastError : option JsError) : M (list Z) :=
  if (attempt <=? retries)%nat then
    match fuel with
    | O => throw lastError
    | S fuel' =>
        try_catch
          (speech_attempt text voiceName apiKey attempt retries)
          (fun error =>
             speech_catch attempt retries error ;;
             speech_loop fuel' text voiceName apiKey retries (S attempt) error)
    end
  else throw lastError.

Definition generateSpeech (text voiceName : jstr) (apiKey : option jstr)
    (retries : nat) : M (list Z) :=
  if negb (key_truthy apiKey) then
    throw (Some (Error (lit "GEMINI_API_KEY is not configured")))
  else
    speech_loop retries text voiceName apiKey retries 1 None.

(** *** generateSpeechStream *)

(** The body of the [try] block of one connection attempt (lines 141-167);
    returning stands for [break]. *)
Definition stream_attempt (text voiceName : jstr) (apiKey : option jstr)
    (signal : bool) (attempt retries : nat) : M Response :=
  logger debug
    (lit "Sending streaming request to Gemini TTS API (Attempt "
       ++ jstr_of_nat attempt ++ lit "/" ++ jstr_of_nat retries ++ lit ")")
    (DataRequest (preview text) voiceName GEMINI_TTS_STREAM_URL) ;;
  response <- fetch env
                (GEMINI_TTS_STREAM_URL ++ lit "?alt=sse&key=" ++ key_text apiKey)
                (requestBody text voiceName) signal ;;
  if negb (ok response) then
    errorText <- response_text env signal response ;;
    if (500 <=? status response)%nat then
      throw (Some (api_error (status response) errorText))
    else
      logger error
        (lit "Gemini API streaming error (" ++ jstr_of_nat (status response)
           ++ lit ")")
        (DataText errorText) ;;
      throw (Some (api_error (status response) errorText))
  else ret response.

(** [error.name === 'AbortError' || signal?.aborted]. *)
Definition is_cancel (signal : bool) (error : option JsError) : M bool :=
  match error with
  | Some e =>
      fun w => (Ret (jstr_eqb (err_name e) (lit "AbortError")
                     || (signal && aborted env w)), w)
  | None => throw (Some (TypeError (lit "Cannot read properties of undefined (reading 'name')")))
  end.

(** The retry loop for the initial connection (lines 139-186). Its value is
    the variable [response] when the loop is left: the response of the
    attempt that reached [break], or [undefined] when the loop condition
    fails, which it only does before the first iteration. *)
Fixpoint connect_loop (fuel : nat) (text voiceName : jstr)
    (apiKey : option jstr) (signal : bool) (retries attempt : nat)
    : M (option Response) :=
  if (attempt <=? retries)%nat then
    match fuel with
    | O => ret None
    | S fuel' =>
        try_catch
          (response <- stream_attempt text voiceName apiKey signal attempt retries ;;
           ret (Some response))
          (fun error =>
             let lastError := error in
             cancelled <- is_cancel signal error ;;
             if cancelled : bool then throw error
             else
               message <- message_of error ;;
               logger warn
                 (lit "Streaming attempt " ++ jstr_of_nat attempt
                    ++ lit " failed: " ++ message)
                 NoData ;;
               if (attempt <? retries)%nat then
                 let delay := (attempt * 1000)%nat in
                 logger info
                   (lit "Retrying stream in " ++ jstr_of_nat delay ++ lit "ms...")
                   NoData ;;
                 sleep env delay ;;
                 connect_loop fuel' text voiceName apiKey signal retries (S attempt)
               else throw lastError)
    end
  else ret None.

(** [processLine] (lines 195-216). *)
Definition processLine (onChunk : Sink) (line : jstr) : M unit :=
  if startsWith (lit "data: ") line then
    let jsonStr := trim (slice 6 line) in
    if jstr_eqb jsonStr (lit "[DONE]") then ret tt
    else
      try_catch
        (data <- match JSON_parse jsonStr with
                 | Some v => ret v
                 | None => throw (Some (SyntaxError (lit "Unexpected token in JSON")))
                 end ;;
         let audioData := audio_path (Some data) in
         if truthy audioData then
           pcmChunk <- Buffer_from env audioData ;;
           total <- get_totalBytes ;;
           set_totalBytes (total + length pcmChunk)%nat ;;
           call_sink env onChunk pcmChunk
         else ret tt)
        (fun parseError =>
           logger debug (lit "Failed to parse SSE data")
                  (DataText (substring0 100 jsonStr)))
  else ret tt.

(** [for (const line of lines) { await processLine(line); }] *)
Fixpoint process_lines (onChunk : Sink) (lines : list jstr) : M unit :=
  match lines with
  | [] => ret tt
  | line :: rest =>
      processLine onChunk line ;;
      tick env ;;
      process_lines onChunk rest
  end.

(** The [while (true)] loop (lines 219-237); its value is [buffer] when the
    loop is left. [pending] is what the body stream still holds. *)
Fixpoint read_loop (onChunk : Sink) (signal : bool) (ending : option JsError)
    (pending : list (list Z)) (decoder : TextDecoder) (buffer : jstr)
    : M jstr :=
  match pending with
  | [] =>
      reader_read env signal ending None ;;
      ret (buffer ++ decode_flush decoder)
  | value :: rest =>
      reader_read env signal ending (Some value) ;;
      let (text, decoder') := decode_stream decoder value in
      let buffer := buffer ++ text in
      let lines := split_nl buffer in
      let buffer := last lines [] in
      let lines := removelast lines in
      process_lines onChunk lines ;;
      read_loop onChunk signal ending rest decoder' buffer
  end.

(** Lines 188-251: what happens once the connection loop is left. *)
Definition stream_body (text voiceName : jstr) (onChunk : Sink)
    (signal : bool) (response : option Response) : M unit :=
  startTime <- Date_now env ;;
  match response with
  | None =>
      throw (Some (TypeError (lit "Cannot read properties of undefined (reading 'body')")))
  | Some response =>
      emit EvGetReader ;;
      set_totalBytes 0 ;;
      try_finally
        (buffer <- read_loop onChunk signal (body_error response)
                     (body_pushes response) new_TextDecoder [] ;;
         if JsString.nonempty (trim buffer) then
           processLine onChunk (trim buffer) ;; tick env
         else ret tt)
        (emit EvReleaseLock) ;;
      now <- Date_now env ;;
      let elapsed := now - startTime in
      total <- get_totalBytes ;;
      logger info
        (lit "Streamed " ++ jstr_of_nat total ++ lit " bytes of PCM audio in "
           ++ jstr_of_Z elapsed ++ litq "ms for '" ++ substring0 50 text
           ++ litq "...' using voice " ++ voiceName)
        NoData
  end.

Definition generateSpeechStream (text voiceName : jstr)
    (apiKey : option jstr) (onChunk : Sink) (signal : bool) (retries : nat)
    : M unit :=
  if negb (key_truthy apiKey) then
    throw (Some (Error (lit "GEMINI_API_KEY is not configured")))
  else
    response <- connect_loop retries text voiceName apiKey signal retries 1 ;;
    stream_body text voiceName onChunk signal response.

End WithEnv.

End Gemini.
Import Gemini.

(* ------------------------------------------------------------------ *)
(** ** Observations on a run *)

Module Observe.

(** The number of requests that went out. *)
Fixpoint sent (tr : list Event) : nat :=
  match tr with
  | [] => 0
  | EvRequest _ _ :: tr' => S (sent tr')
  | _ :: tr' => sent tr'
  end.

(** The backoff delays, in order. *)
Fixpoint sleeps (tr : list Event) : list nat :=
  match tr with
  | [] => []
  | EvSleep ms :: tr' => ms :: sleeps tr'
  | _ :: tr' => sleeps tr'
  end.

(** The chunks handed to the sink, in order. *)
Fixpoint chunks (tr : list Event) : list (list Z) :=
  match tr with
  | [] => []
  | EvChunk pcm :: tr' => pcm :: chunks tr'
  | _ :: tr' => chunks tr'
  end.

(** The messages logged at a given level, in order. *)
Definition level_eqb (a b : Level) : bool :=
  match a, b with
  | debug, debug | info, info | warn, warn | error, error => true
  | _, _ => false
  end.

Fixpoint logged (l : Level) (tr : list Event) : list jstr :=
  match tr with
  | [] => []
  | EvLog l' message _ :: tr' =>
      if level_eqb l l' then message :: logged l tr' else logged l tr'
  | _ :: tr' => logged l tr'
  end.

(** A run of a computation from the initial world. *)
Definition run {A} (m : M A) : Outcome A * World := m initial_world.

(** The default abort reason of an AbortController. *)
Definition AbortError : JsError :=
  mk_error (lit "AbortError") (lit "This operation was aborted").

(** An environment in which every request gets the same answer, the clock
    stands still and Buffer.from accepts strings only. *)
Definition constant_env (answer : FetchOutcome) (abort_at : option nat) : Env :=
  mk_env (fun _ => answer) (fun _ => 0) abort_at AbortError (fun _ => None).

(** The provider's answer whose audio is "Hello", as a JSON document. *)
Definition hello_document : jstr :=
  litq "{'candidates':[{'content':{'parts':[{'inlineData':{'data':'SGVsbG8='}}]}}]}".

(** An environment whose first request is answered with 500 and every
    later one with the "Hello" document. *)
Definition flaky_env : Env :=
  mk_env (fun n => match n with
                   | O => FetchResolves (mk_response 500 [lit "overloaded"] None)
                   | S _ => FetchResolves (mk_response 200 [hello_document] None)
                   end)
         (fun _ => 0) None AbortError (fun _ => None).

(** A sink that always resolves. *)
Definition sink_resolves : Sink := fun _ _ => Ret tt.

(** A sink that always rejects. *)
Definition sink_rejects : Sink :=
  fun _ _ => Throw (Some (Error (lit "socket closed"))).

(** The frame of the provider's documentation whose audio is "Hello". *)
Definition hello_frame : jstr :=
  litq "data: {'candidates':[{'content':{'parts':[{'inlineData':{'data':'SGVsbG8='}}]}}]}".

(** An environment whose provider answers with a body of one push that
    holds two "Hello" frames, and whose caller aborts as told. *)
Definition two_frames_env (abort_at : option nat) : Env :=
  constant_env
    (FetchResolves
       (mk_response 200 [hello_frame ++ [10] ++ hello_frame ++ [10]] None))
    abort_at.

End Observe.
Import Observe.

(* ------------------------------------------------------------------ *)
(** ** What a transport answer and a line amount to *)

Module Frames.

(** An attempt fails when the request is rejected or the status is not
    2xx; the failure is a transport or server error when the request is
    rejected or the status is 500 or more. *)
Definition fails (o : FetchOutcome) : bool :=
  match o with
  | FetchRejects _ => true
  | FetchResolves r => negb (ok r)
  end.

Definition retryable (o : FetchOutcome) : bool :=
  match o with
  | FetchRejects _ => true
  | FetchResolves r => (500 <=? status r)%nat
  end.

(** The error a failed attempt throws. *)
Definition failure_of (o : FetchOutcome) : JsError :=
  match o with
  | FetchRejects e => e
  | FetchResolves r =>
      match body_error r with
      | Some e => e
      | None => api_error (status r) (utf8_decode (concat (body_pushes r)))
      end
  end.

(** For the streaming client a failure is only retried when its error is
    not named AbortError. *)
Definition stream_retryable (o : FetchOutcome) : bool :=
  retryable o
  && negb (jstr_eqb (err_name (failure_of o)) (lit "AbortError")).

(** The delays [first * 1000, (first + 1) * 1000, ...], [count] of them. *)
Definition backoffs (first count : nat) : list nat :=
  map (fun k => (k * 1000)%nat) (seq first count).

(** The buffer [Buffer.from(audioData, 'base64')] returns; [None] when it
    throws. *)
Definition buffer_of (env : Env) (audioData : jsval) : option (list Z) :=
  match audioData with
  | Some (JStr s) => Some (base64_decode s)
  | Some (JArr items) => Buffer_from_object env (JArr items)
  | Some (JObj members) => Buffer_from_object env (JObj members)
  | _ => None
  end.

(** The audio of a parsed frame, if it has any that decodes. *)
Definition audio_of (env : Env) (data : json) : option (list Z) :=
  if truthy (audio_path (Some data)) then buffer_of env (audio_path (Some data))
  else None.

(** The chunk a line gives rise to: none or one. *)
Definition chunk_of_line (env : Env) (line : jstr) : list (list Z) :=
  if startsWith (lit "data: ") line then
    let jsonStr := trim (slice 6 line) in
    if jstr_eqb jsonStr (lit "[DONE]") then []
    else match JSON_parse jsonStr with
         | Some data =>
             match audio_of env data with
             | Some pcm => [pcm]
             | None => []
             end
         | None => []
         end
  else [].

(** The lines the read loop hands to processLine while it consumes
    [pending], and the buffer it is left with. *)
Fixpoint loop_lines (pending : list (list Z)) (decoder : TextDecoder)
    (buffer : jstr) : list jstr * jstr :=
  match pending with
  | [] => ([], buffer ++ decode_flush decoder)
  | value :: rest =>
      let (text, decoder') := decode_stream decoder value in
      let lines := split_nl (buffer ++ text) in
      let (more, final) := loop_lines rest decoder' (last lines []) in
      (removelast lines ++ more, final)
  end.

(** The last line, as handed to processLine after the loop. *)
Definition final_line (buffer : jstr) : list jstr :=
  if JsString.nonempty (trim buffer) then [trim buffer] else [].

(** All the lines of an event-stream text that reach processLine when the
    stream ends normally: the complete lines as they are, and the trimmed
    text after the last newline when it is not blank. *)
Definition dispatched (text : jstr) : list jstr :=
  removelast (split_nl text) ++ final_line (last (split_nl text) []).

(** The debug message of processLine's catch block. *)
Definition parse_failure_log (line : jstr) : Event :=
  EvLog debug (lit "Failed to parse SSE data")
        (DataText (substring0 100 (trim (slice 6 line)))).

(** The world after a chunk has been handed to the sink, which settles
    while the client is suspended; [logs] is what processLine logs
    afterwards. *)
Definition delivered (env : Env) (pcm : list Z) (logs : list Event)
    (w : World) : World :=
  mk_world (trace w ++ [EvChunk pcm] ++ abort_mark env (S (ticks w))
              ++ [EvChunkSettled] ++ logs)
           (S (ticks w)) (requests w) (clock_reads w) (S (sink_calls w))
           (totalBytes w + length pcm).

(** A run can be cancelled when the caller's signal is passed and the
    caller's controller fires at some point. *)
Definition cancellable (env : Env) (signal : bool) : bool :=
  signal && match caller_aborts_at env with Some _ => true | None => false end.

(** A computation only adds to the trace, and what it adds satisfies [P]. *)
Definition emits {A} (P : list Event -> Prop) (m : M A) : Prop :=
  forall w, exists evs, trace (snd (m w)) = trace w ++ evs /\ P evs.

(** Back-pressure as an automaton over the trace: [outstanding] tells
    whether a chunk has been handed to the sink and has not settled yet.
    While one is outstanding nothing is read and no other chunk is handed
    over. The result is the final state, or [None] on a violation. *)
Fixpoint backpressure (outstanding : bool) (tr : list Event) : option bool :=
  match tr with
  | [] => Some outstanding
  | EvChunk _ :: tr' =>
      if outstanding then None else backpressure true tr'
  | EvChunkSettled :: tr' =>
      if outstanding then backpressure false tr' else None
  | EvRead _ :: tr' =>
      if outstanding then None else backpressure false tr'
  | _ :: tr' => backpressure outstanding tr'
  end.

(** The reader events of a trace: [true] for getReader, [false] for
    releaseLock. *)
Fixpoint reader_events (tr : list Event) : list bool :=
  match tr with
  | [] => []
  | EvGetReader :: tr' => true :: reader_events tr'
  | EvReleaseLock :: tr' => false :: reader_events tr'
  | _ :: tr' => reader_events tr'
  end.

(** The reads of a trace that resolved. *)
Fixpoint reads (tr : list Event) : list (option (list Z)) :=
  match tr with
  | [] => []
  | EvRead value :: tr' => value :: reads tr'
  | _ :: tr' => reads tr'
  end.

(** Where a streaming call stands with respect to cancellation.
    [Running]: the caller's controller has not fired during the call and
    the end of the body has not been read. [Cancelled]: the controller
    fired before the end of the body was read. [Finished]: the end of the
    body was read before the controller fired, if it fired at all. *)
Inductive phase := Running | Cancelled | Finished.

(** Only a running call sends requests and reads from the body. *)
Definition step (p : phase) (e : Event) : option phase :=
  match e with
  | EvAbort => Some (match p with Running => Cancelled | _ => p end)
  | EvRequest _ _ => match p with Running => Some Running | _ => None end
  | EvRead (Some _) => match p with Running => Some Running | _ => None end
  | EvRead None => match p with Running => Some Finished | _ => None end
  | _ => Some p
  end.

Fixpoint monitor (p : phase) (tr : list Event) : option phase :=
  match tr with
  | [] => Some p
  | e :: tr' =>
      match step p e with
      | Some p' => monitor p' tr'
      | None => None
      end
  end.

(** The trace of a world is accepted, and a cancelled call has an aborted
    signal. *)
Definition MonInv (env : Env) (w : World) (p : phase) : Prop :=
  monitor Running (trace w) = Some p
  /\ (p = Cancelled -> aborted env w = true).

(** A cancellation may have happened between two phases. *)
Definition advanced (p p' : phase) : Prop :=
  p' = p \/ (p = Running /\ p' = Cancelled).

(** Events that leave every phase alone. *)
Definition neutral (evs : list Event) : Prop :=
  forall p, monitor p evs = Some p.

(** A computation that, started on a signal that is not aborted, throws
    the abort reason if the signal is aborted when it completes. *)
Definition guarded (env : Env) {A} (m : M A) : Prop :=
  forall w p,
    MonInv env w p -> p <> Finished -> aborted env w = false ->
    exists p',
      MonInv env (snd (m w)) p' /\ advanced p p'
      /\ (aborted env (snd (m w)) = true ->
          fst (m w) = Throw (Some (abort_reason env))).

(** Whether the end of the body has been read in a trace. *)
Definition is_done_read (e : Event) : bool :=
  match e with EvRead None => true | _ => false end.

(** A trace up to and after the first time the controller fires. *)
Fixpoint before_abort (tr : list Event) : list Event :=
  match tr with
  | [] => []
  | EvAbort :: _ => []
  | e :: tr' => e :: before_abort tr'
  end.

Fixpoint after_abort (tr : list Event) : list Event :=
  match tr with
  | [] => []
  | EvAbort :: tr' => tr'
  | _ :: tr' => after_abort tr'
  end.

(** The cancellation guarantee of the specification, for the outcome and
    the trace of a run: whenever the controller fires, no request goes out
    and no chunk is handed to the sink afterwards, the operation throws the
    abort reason, and the reader, if it was acquired, has been released. *)
Definition cancel_guarantee (reason : JsError) (out : Outcome unit * World)
    : Prop :=
  forall pre post,
    trace (snd out) = pre ++ EvAbort :: post ->
    sent post = 0%nat
    /\ chunks post = []
    /\ fst out = Throw (Some reason)
    /\ (reader_events (trace (snd out)) = []
        \/ reader_events (trace (snd out)) = [true; false]).

(** [a] is an initial segment of [b]. *)
Definition prefix_of {A} (a b : list A) : Prop := exists rest, b = a ++ rest.

End Frames.
Import Frames.

(* ------------------------------------------------------------------ *)
(** ** src/voiceMapping.js *)

Module VoiceMapping.

Definition OPENAI_TO_GEMINI_VOICE_MAP : list (jstr * jstr) :=
  [ (lit "alloy", lit "Kore");
    (lit "echo", lit "Charon");
    (lit "fable", lit "Fenrir");
    (lit "onyx", lit "Orus");
    (lit "nova", lit "Aoede");
    (lit "shimmer", lit "Leda");
    (lit "ash", lit "Puck");
    (lit "ballad", lit "Zephyr");
    (lit "coral", lit "Aoede");
    (lit "sage", lit "Gacrux");
    (lit "verse", lit "Alnilam") ].

Definition GEMINI_VOICES : list jstr :=
  [ lit "Achernar"; lit "Achird"; lit "Algenib"; lit "Algieba"; lit "Alnilam";
    lit "Aoede"; lit "Autonoe"; lit "Callirrhoe"; lit "Charon"; lit "Despina";
    lit "Enceladus"; lit "Erinome"; lit "Fenrir"; lit "Gacrux"; lit "Iapetus";
    lit "Kore"; lit "Laomedeia"; lit "Leda"; lit "Orus"; lit "Puck";
    lit "Pulcherrima"; lit "Rasalgethi"; lit "Sadachbia"; lit "Sadaltager";
    lit "Schedar"; lit "Sulafat"; lit "Umbriel"; lit "Vindemiatrix";
    lit "Zephyr"; lit "Zubenelgenubi" ].

(** The properties every object literal inherits from [Object.prototype];
    each of them holds a function or an object, hence a truthy value. *)
Definition Object_prototype_names : list jstr :=
  [ lit "constructor"; lit "hasOwnProperty"; lit "isPrototypeOf";
    lit "propertyIsEnumerable"; lit "toLocaleString"; lit "toString";
    lit "valueOf"; lit "__proto__"; lit "__defineGetter__";
    lit "__defineSetter__"; lit "__lookupGetter__"; lit "__lookupSetter__" ].

(** What [table[key]] gives on an object literal with string values. *)
Inductive Looked :=
| Own (value : jstr)       (* an own property *)
| Inherited (name : jstr)  (* the value of an inherited property *)
| Missing.                 (* undefined *)

Fixpoint own_property (key : jstr) (table : list (jstr * jstr)) : option jstr :=
  match table with
  | [] => None
  | (k, v) :: rest => if jstr_eqb k key then Some v else own_property key rest
  end.

Definition get (table : list (jstr * jstr)) (key : jstr) : Looked :=
  match own_property key table with
  | Some v => Own v
  | None =>
      if existsb (jstr_eqb key) Object_prototype_names then Inherited key
      else Missing
  end.

(** What mapVoice returns: a string, or the inherited value it found in
    the table. *)
Inductive Voice :=
| Name (s : jstr)
| Builtin (name : jstr).

(** ASCII letters, on which [toLowerCase] is known. *)
Definition is_ascii (c : Z) : bool := (0 <=? c) && (c <? 128).

Definition lower_ascii (c : Z) : Z :=
  if (65 <=? c) && (c <=? 90) then c + 32 else c.

(** [String.prototype.toLowerCase] restricted to what the file needs of
    it: on a string of ASCII code units it lowers the letters A-Z. *)
Definition lowers_ascii (toLowerCase : jstr -> jstr) : Prop :=
  forall s, forallb is_ascii s = true -> toLowerCase s = map lower_ascii s.

Section WithPlatform.

(** [String.prototype.toLowerCase], of the platform. *)
Variable toLowerCase : jstr -> jstr.

(** [mapVoice(voice, defaultVoice = 'Kore')]; [None] is [undefined]. *)
Definition mapVoice (voice : option jstr) (defaultVoice : option jstr) : Voice :=
  let defaultVoice :=
    match defaultVoice with
    | Some d => d
    | None => lit "Kore"
    end in
  match voice with
  | None => Name defaultVoice
  | Some voice =>
      if negb (JsString.nonempty voice) then Name defaultVoice
      else
        let lowerVoice := toLowerCase voice in
        let from_gemini :=
          match find (fun v => jstr_eqb (toLowerCase v) lowerVoice) GEMINI_VOICES with
          | Some geminiVoice =>
              if JsString.nonempty geminiVoice then Name geminiVoice
              else Name defaultVoice
          | None => Name defaultVoice
          end in
        match get OPENAI_TO_GEMINI_VOICE_MAP lowerVoice with
        | Own v => if JsString.nonempty v then Name v else from_gemini
        | Inherited name => Builtin name
        | Missing => from_gemini
        end
  end.

End WithPlatform.

End VoiceMapping.
Import VoiceMapping.

(* ------------------------------------------------------------------ *)
(** ** logger.js *)

Module Logger.

(** The name of a level, as the key of [LOG_LEVELS]. *)
Definition level_name (l : Level) : jstr :=
  match l with
  | debug => lit "debug"
  | info => lit "info"
  | warn => lit "warn"
  | error => lit "error"
  end.

(** [level.toUpperCase()] for the four levels. *)
Definition level_label (l : Level) : jstr :=
  match l with
  | debug => lit "DEBUG"
  | info => lit "INFO"
  | warn => lit "WARN"
  | error => lit "ERROR"
  end.

(** What [LOG_LEVELS[key]] gives. *)
Inductive LevelValue :=
| Rank (n : nat)
| InheritedValue (name : jstr)
| NoLevel.

Definition LOG_LEVELS_get (key : jstr) : LevelValue :=
  if jstr_eqb key (lit "debug") then Rank 0
  else if jstr_eqb key (lit "info") then Rank 1
  else if jstr_eqb key (lit "warn") then Rank 2
  else if jstr_eqb key (lit "error") then Rank 3
  else if existsb (jstr_eqb key) Object_prototype_names then InheritedValue key
  else NoLevel.

Section WithPlatform.

Variable toLowerCase : jstr -> jstr.

(** [LOG_LEVELS[process.env.LOG_LEVEL?.toLowerCase()] ?? LOG_LEVELS.info];
    [None] is an unset variable. *)
Definition currentLevel (LOG_LEVEL : option jstr) : LevelValue :=
  match LOG_LEVEL with
  | None => Rank 1
  | Some s =>
      match LOG_LEVELS_get (toLowerCase s) with
      | NoLevel => Rank 1
      | v => v
      end
  end.

End WithPlatform.

(** [LOG_LEVELS[level] < currentLevel]: a number compared with a function
    or an object is compared with NaN, which is never less. *)
Definition dropped (current : LevelValue) (l : Level) : bool :=
  match current with
  | Rank c => (LOG_LEVELS l <? c)%nat
  | _ => false
  end.

(** Truthiness of the [data] argument. *)
Definition data_truthy (data : LogData) : bool :=
  match data with
  | NoData => false
  | DataText s => JsString.nonempty s
  | DataJson v => truthy (Some v)
  | DataRequest _ _ _ => true
  end.

(** [typeof data === 'object'] for a truthy [data]. *)
Definition data_is_object (data : LogData) : bool :=
  match data with
  | DataJson (JArr _) | DataJson (JObj _) | DataRequest _ _ _ => true
  | _ => false
  end.

(** The second argument of console.log. *)
Inductive ConsoleArg :=
| Stringified (data : LogData)   (* JSON.stringify(data, null, 2) *)
| Raw (data : LogData).

Record ConsoleCall := mk_call {
  call_line : jstr;
  call_arg : option ConsoleArg
}.

(** [log(level, message, data)], where [timestamp] is what
    [formatTimestamp()] returns; [None] when nothing is printed. *)
Definition log (current : LevelValue) (timestamp : jstr) (l : Level)
    (message : jstr) (data : LogData) : option ConsoleCall :=
  if dropped current l then None
  else
    let prefix := lit "[" ++ timestamp ++ lit "] [" ++ level_label l ++ lit "]" in
    if data_truthy data then
      Some (mk_call (prefix ++ lit " " ++ message)
              (Some (if data_is_object data then Stringified data else Raw data)))
    else Some (mk_call (prefix ++ lit " " ++ message) None).

(** The logger calls of a trace that reach console.log. *)
Fixpoint visible (current : LevelValue) (tr : list Event) : list Event :=
  match tr with
  | [] => []
  | EvLog l message data :: tr' =>
      if dropped current l then visible current tr'
      else EvLog l message data :: visible current tr'
  | _ :: tr' => visible current tr'
  end.

(** Nothing of [evs] reaches console.log. *)
Definition quiet (current : LevelValue) (evs : list Event) : Prop :=
  visible current evs = [].

End Logger.
Import Logger.

(* ------------------------------------------------------------------ *)
(** ** One attempt, and the bytes of a run *)

Module Accounts.

(** What one attempt of generateSpeech comes to, given how its request is
    answered: the buffer it returns or the error it throws. *)
Definition attempt_outcome (env : Env) (o : FetchOutcome) : Outcome (list Z) :=
  match o with
  | FetchRejects e => Throw (Some e)
  | FetchResolves r =>
      if negb (ok r) then Throw (Some (failure_of o))
      else
        match body_error r with
        | Some e => Throw (Some e)
        | None =>
            match JSON_parse (utf8_decode (concat (body_pushes r))) with
            | None => Throw (Some (SyntaxError (lit "Unexpected token in JSON")))
            | Some data =>
                if negb (truthy (audio_path (Some data))) then
                  Throw (Some (Error (lit "No audio data received from Gemini API")))
                else
                  match buffer_of env (audio_path (Some data)) with
                  | Some pcm => Ret pcm
                  | None => Throw (Some (TypeError (lit "The first argument must be of type string or an instance of Buffer, ArrayBuffer, or Array or an Array-like Object.")))
                  end
            end
        end
  end.

Definition thrown {A} (r : Outcome A) : option (option JsError) :=
  match r with
  | Ret _ => None
  | Throw e => Some e
  end.

(** The number of bytes handed to the sink in a trace. *)
Definition delivered_bytes (tr : list Event) : nat :=
  list_sum (map (@length Z) (chunks tr)).

(** Between two worlds the counter [totalBytes] has grown by the bytes
    handed to the sink. *)
Definition accounted (w w' : World) : Prop :=
  (delivered_bytes (trace w') + totalBytes w
   = delivered_bytes (trace w) + totalBytes w')%nat.

Definition keeps_account {A} (m : M A) : Prop :=
  forall w, accounted w (snd (m w)).

End Accounts.
Import Accounts.

(* ================================================================== *)
(** * Properties *)

#[local] Arguments lit : simpl never.
#[local] Arguments litq : simpl never.
#[local] Arguments jstr_of_nat : simpl never.
#[local] Arguments jstr_of_Z : simpl never.
#[local] Arguments Nat.leb : simpl never.
#[local] Arguments Nat.ltb : simpl never.
#[local] Arguments Nat.eqb : simpl never.
#[local] Arguments utf8_decode : simpl never.
#[local] Arguments api_error : simpl never.
#[local] Arguments GEMINI_TTS_URL : simpl never.
#[local] Arguments GEMINI_TTS_STREAM_URL : simpl never.
#[local] Arguments ok : simpl never.
#[local] Arguments JSON_parse : simpl never.
#[local] Arguments audio_path : simpl never.
#[local] Arguments base64_decode : simpl never.
#[local] Arguments trim : simpl never.
#[local] Arguments startsWith : simpl never.
#[local] Arguments jstr_eqb : simpl never.
#[local] Arguments truthy : simpl never.
#[local] Arguments aborted : simpl never.
#[local] Arguments substring0 : simpl never.
#[local] Arguments slice : simpl never.
#[local] Arguments decode_stream : simpl never.
#[local] Arguments decode_flush : simpl never.

(** ** Observers and concatenation *)

Lemma sent_app (a b : list Event) : sent (a ++ b) = (sent a + sent b)%nat.
Proof.
  induction a as [|e a IH]; simpl; [reflexivity|].
  destruct e; simpl; rewrite IH; reflexivity.
Qed.

Lemma sleeps_app (a b : list Event) : sleeps (a ++ b) = sleeps a ++ sleeps b.
Proof.
  induction a as [|e a IH]; simpl; [reflexivity|].
  destruct e; simpl; rewrite IH; reflexivity.
Qed.

Lemma chunks_app (a b : list Event) : chunks (a ++ b) = chunks a ++ chunks b.
Proof.
  induction a as [|e a IH]; simpl; [reflexivity|].
  destruct e; simpl; rewrite IH; reflexivity.
Qed.

Lemma logged_app (l : Level) (a b : list Event) :
  logged l (a ++ b) = logged l a ++ logged l b.
Proof.
  induction a as [|e a IH]; simpl; [reflexivity|].
  destruct e; simpl; try (destruct (level_eqb l l0); simpl); rewrite IH; reflexivity.
Qed.

Lemma sent_abort_mark env n : sent (abort_mark env n) = 0%nat.
Proof. unfold abort_mark. destruct (caller_aborts_at env); [destruct (_ =? _)%nat|]; reflexivity. Qed.

Lemma sleeps_abort_mark env n : sleeps (abort_mark env n) = [].
Proof. unfold abort_mark. destruct (caller_aborts_at env); [destruct (_ =? _)%nat|]; reflexivity. Qed.

Lemma chunks_abort_mark env n : chunks (abort_mark env n) = [].
Proof. unfold abort_mark. destruct (caller_aborts_at env); [destruct (_ =? _)%nat|]; reflexivity. Qed.

Lemma logged_abort_mark env l n : logged l (abort_mark env n) = [].
Proof. unfold abort_mark. destruct (caller_aborts_at env); [destruct (_ =? _)%nat|]; reflexivity. Qed.

(** ** Missing credential *)

(** C9. A call of generateSpeech or generateSpeechStream with a missing
    (falsy) credential throws the configuration error and leaves the world
    as it found it: no request is sent, no attempt is made, nothing is
    retried. *)
Theorem missing_credential_fails_before_io :
  forall env text voiceName apiKey onChunk signal retries w,
    key_truthy apiKey = false ->
    generateSpeech env text voiceName apiKey retries w
      = (Throw (Some (Error (lit "GEMINI_API_KEY is not configured"))), w)
    /\ generateSpeechStream env text voiceName apiKey onChunk signal retries w
      = (Throw (Some (Error (lit "GEMINI_API_KEY is not configured"))), w).
Proof.
  intros env text voiceName apiKey onChunk signal retries w Hkey.
  unfold generateSpeech, generateSpeechStream.
  rewrite Hkey. simpl. split; reflexivity.
Qed.

Lemma missing_credential_fails_before_io_witness :
  key_truthy (Some []) = false
  /\ generateSpeech (constant_env (FetchRejects AbortError) None)
       (lit "hi") (lit "Kore") (Some []) 3 initial_world
     = (Throw (Some (Error (lit "GEMINI_API_KEY is not configured"))),
        initial_world).
Proof.
  split; [reflexivity|].
  apply (missing_credential_fails_before_io
           (constant_env (FetchRejects AbortError) None)
           (lit "hi") (lit "Kore") (Some []) sink_resolves true 3%nat
           initial_world).
  reflexivity.
Defined.

(** ** Client errors *)

(** C1, evaluated on the code. The provider answers every request with
    404. With the default three attempts, both generateSpeech and
    generateSpeechStream send three requests and back off for 1s and 2s in
    between before they throw the error of the last answer: the [throw] for
    a 4xx status sits inside the [try] block whose [catch] retries. *)
Theorem client_error_is_retried :
  let env := constant_env (FetchResolves (mk_response 404 [lit "not found"] None)) None in
  let single := run (generateSpeech env (lit "hi") (lit "Kore") (Some (lit "key")) 3) in
  let stream := run (generateSpeechStream env (lit "hi") (lit "Kore")
                       (Some (lit "key")) sink_resolves true 3) in
  fst single = Throw (Some (api_error 404 (lit "not found")))
  /\ sent (trace (snd single)) = 3%nat
  /\ sleeps (trace (snd single)) = [1000; 2000]%nat
  /\ fst stream = Throw (Some (api_error 404 (lit "not found")))
  /\ sent (trace (snd stream)) = 3%nat
  /\ sleeps (trace (snd stream)) = [1000; 2000]%nat.
Proof. vm_compute. repeat split; reflexivity. Qed.

(** ** A successful answer without audio *)

(** C4, evaluated on the code. The provider answers every request with
    200 and the body [{}]. generateSpeech logs the missing audio and throws
    inside the [try] block, so the [catch] retries it: three requests go
    out, with backoffs of 1s and 2s, before the missing-audio error is
    thrown to the caller. *)
Theorem missing_audio_is_retried :
  let env := constant_env (FetchResolves (mk_response 200 [lit "{}"] None)) None in
  let single := run (generateSpeech env (lit "hi") (lit "Kore") (Some (lit "key")) 3) in
  fst single = Throw (Some (Error (lit "No audio data received from Gemini API")))
  /\ sent (trace (snd single)) = 3%nat
  /\ sleeps (trace (snd single)) = [1000; 2000]%nat
  /\ logged error (trace (snd single))
     = [lit "No audio data in Gemini response";
        lit "No audio data in Gemini response";
        lit "No audio data in Gemini response"].
Proof. vm_compute. repeat split; reflexivity. Qed.

Ltac obs :=
  repeat (rewrite ?sent_app, ?sleeps_app, ?chunks_app, ?sent_abort_mark,
            ?sleeps_abort_mark, ?chunks_abort_mark; simpl);
  rewrite ?app_nil_r, ?Nat.add_0_r.

(** ** The retry loop of generateSpeech *)

Section SpeechRetry.
Variable env : Env.
Variables text voiceName : jstr.
Variable apiKey : option jstr.

Lemma speech_attempt_failure attempt retries w :
  fails (env_fetch env (requests w)) = true ->
  exists w',
    speech_attempt env text voiceName apiKey attempt retries w
      = (Throw (Some (failure_of (env_fetch env (requests w)))), w')
    /\ requests w' = S (requests w)
    /\ sent (trace w') = S (sent (trace w))
    /\ sleeps (trace w') = sleeps (trace w).
Proof.
  intros Hf.
  unfold speech_attempt, logger, fetch, emit, Date_now, next_request, tick, bind.
  simpl.
  destruct (env_fetch env (requests w)) as [e|r] eqn:E; simpl in *.
  - eexists; split; [reflexivity|]. obs. repeat split; lia.
  - rewrite Hf. simpl.
    unfold response_text, read_body, tick, bind. simpl.
    destruct (body_error r) as [e|]; simpl.
    + eexists; split; [reflexivity|]. obs. repeat split; lia.
    + destruct (500 <=? status r)%nat; simpl;
      (eexists; split; [reflexivity|]; obs; repeat split; lia).
Qed.

Lemma speech_attempt_success attempt retries w r data s :
  env_fetch env (requests w) = FetchResolves r ->
  ok r = true ->
  body_error r = None ->
  JSON_parse (utf8_decode (concat (body_pushes r))) = Some data ->
  audio_path (Some data) = Some (JStr s) ->
  s <> [] ->
  exists w',
    speech_attempt env text voiceName apiKey attempt retries w
      = (Ret (base64_decode s), w')
    /\ sent (trace w') = S (sent (trace w))
    /\ sleeps (trace w') = sleeps (trace w).
Proof.
  intros E Hok Hbody Hparse Hpath Hs.
  unfold speech_attempt, logger, fetch, emit, Date_now, next_request, tick, bind.
  simpl. rewrite E, Hok. simpl.
  unfold response_json, read_body, tick, bind. simpl.
  rewrite Hbody, Hparse. simpl. rewrite Hpath.
  destruct s as [|c s]; [congruence|]. simpl.
  eexists; split; [reflexivity|]. obs. repeat split; lia.
Qed.

Lemma speech_catch_effect attempt retries e w :
  exists w',
    speech_catch env attempt retries (Some e) w = (Ret tt, w')
    /\ requests w' = requests w
    /\ sent (trace w') = sent (trace w)
    /\ sleeps (trace w')
       = sleeps (trace w) ++ (if (attempt <? retries)%nat then [attempt * 1000]%nat else []).
Proof.
  unfold speech_catch, message_of, logger, sleep, emit, tick, bind, ret. simpl.
  destruct (attempt <? retries)%nat; simpl;
    (eexists; split; [reflexivity|]; obs; repeat split; reflexivity).
Qed.

(** Every remaining attempt fails. *)
Lemma speech_loop_exhausts retries :
  forall fuel attempt lastError w,
    (retries + 1 <= attempt + fuel)%nat ->
    (attempt <= retries + 1)%nat ->
    (forall i, (i < retries + 1 - attempt)%nat ->
               fails (env_fetch env (requests w + i)) = true) ->
    exists w',
      speech_loop env fuel text voiceName apiKey retries attempt lastError w
        = (Throw (if (retries + 1 - attempt =? 0)%nat then lastError
                  else Some (failure_of (env_fetch env (requests w + (retries - attempt))))),
           w')
      /\ sent (trace w') = (sent (trace w) + (retries + 1 - attempt))%nat
      /\ sleeps (trace w') = sleeps (trace w) ++ backoffs attempt (retries - attempt).
Proof.
  induction fuel as [|fuel IH]; intros attempt lastError w Hfuel Hle Hall.
  - assert (attempt = retries + 1)%nat by lia. subst.
    simpl. replace (retries + 1 <=? retries)%nat with false
      by (symmetry; apply Nat.leb_gt; lia).
    replace (retries + 1 - (retries + 1))%nat with 0%nat by lia.
    replace (retries - (retries + 1))%nat with 0%nat by lia.
    eexists; split; [reflexivity|]. unfold backoffs. simpl. obs. split; reflexivity.
  - simpl. destruct (attempt <=? retries)%nat eqn:Ha.
    + apply Nat.leb_le in Ha.
      unfold try_catch.
      destruct (speech_attempt_failure attempt retries w) as (w1 & E1 & R1 & S1 & L1).
      { specialize (Hall 0%nat). rewrite Nat.add_0_r in Hall. apply Hall. lia. }
      rewrite E1. unfold bind at 1.
      destruct (speech_catch_effect attempt retries
                  (failure_of (env_fetch env (requests w))) w1)
        as (w2 & E2 & R2 & S2 & L2).
      rewrite E2.
      destruct (IH (S attempt) (Some (failure_of (env_fetch env (requests w)))) w2)
        as (w3 & E3 & S3 & L3); [lia | lia | |].
      { intros i Hi. rewrite R2, R1.
        replace (S (requests w) + i)%nat with (requests w + S i)%nat by lia.
        apply Hall. lia. }
      rewrite E3. eexists; split.
      * f_equal. f_equal.
        replace (retries + 1 - attempt =? 0)%nat with false
          by (symmetry; apply Nat.eqb_neq; lia).
        destruct (retries + 1 - S attempt =? 0)%nat eqn:Hz.
        -- apply Nat.eqb_eq in Hz.
           replace (retries - attempt)%nat with 0%nat by lia.
           rewrite Nat.add_0_r. reflexivity.
        -- apply Nat.eqb_neq in Hz. rewrite R2, R1. do 3 f_equal. lia.
      * rewrite S3, S2, S1, L3, L2, L1. split; [lia|].
        rewrite <- app_assoc. f_equal.
        unfold backoffs.
        destruct (attempt <? retries)%nat eqn:Hlt.
        -- apply Nat.ltb_lt in Hlt.
           replace (retries - attempt)%nat with (S (retries - S attempt)) by lia.
           reflexivity.
        -- apply Nat.ltb_ge in Hlt.
           replace (retries - attempt)%nat with 0%nat by lia.
           replace (retries - S attempt)%nat with 0%nat by lia. reflexivity.
    + apply Nat.leb_gt in Ha.
      replace (retries + 1 - attempt)%nat with 0%nat by lia.
      replace (retries - attempt)%nat with 0%nat by lia.
      eexists; split; [reflexivity|]. unfold backoffs. simpl. obs. split; reflexivity.
Qed.

(** The first [j] remaining attempts fail and the next one succeeds. *)
Lemma speech_loop_succeeds retries r data s :
  forall j fuel attempt lastError w,
    (j < fuel)%nat ->
    (attempt + j <= retries)%nat ->
    (forall i, (i < j)%nat -> fails (env_fetch env (requests w + i)) = true) ->
    env_fetch env (requests w + j) = FetchResolves r ->
    ok r = true ->
    body_error r = None ->
    JSON_parse (utf8_decode (concat (body_pushes r))) = Some data ->
    audio_path (Some data) = Some (JStr s) ->
    s <> [] ->
    exists w',
      speech_loop env fuel text voiceName apiKey retries attempt lastError w
        = (Ret (base64_decode s), w')
      /\ sent (trace w') = (sent (trace w) + S j)%nat
      /\ sleeps (trace w') = sleeps (trace w) ++ backoffs attempt j.
Proof.
  induction j as [|j IH]; intros fuel attempt lastError w Hfuel Hle Hall E Hok Hb Hp Ha Hs;
    (destruct fuel as [|fuel]; [lia|]); simpl;
    replace (attempt <=? retries)%nat with true by (symmetry; apply Nat.leb_le; lia);
    unfold try_catch.
  - rewrite Nat.add_0_r in E.
    destruct (speech_attempt_success attempt retries w r data s E Hok Hb Hp Ha Hs)
      as (w1 & E1 & S1 & L1).
    rewrite E1. eexists; split; [reflexivity|].
    rewrite S1, L1. unfold backoffs. simpl. obs. split; [lia|reflexivity].
  - destruct (speech_attempt_failure attempt retries w) as (w1 & E1 & R1 & S1 & L1).
    { specialize (Hall 0%nat). rewrite Nat.add_0_r in Hall. apply Hall. lia. }
    rewrite E1. unfold bind at 1.
    destruct (speech_catch_effect attempt retries
                (failure_of (env_fetch env (requests w))) w1)
      as (w2 & E2 & R2 & S2 & L2).
    rewrite E2.
    destruct (IH fuel (S attempt) (Some (failure_of (env_fetch env (requests w)))) w2)
      as (w3 & E3 & S3 & L3); try assumption; try lia.
    { intros i Hi. rewrite R2, R1.
      replace (S (requests w) + i)%nat with (requests w + S i)%nat by lia.
      apply Hall. lia. }
    { rewrite R2, R1. rewrite <- E. f_equal. lia. }
    rewrite E3. eexists; split; [reflexivity|].
    rewrite S3, S2, S1, L3, L2, L1. split; [lia|].
    rewrite <- app_assoc. f_equal.
    replace (attempt <? retries)%nat with true by (symmetry; apply Nat.ltb_lt; lia).
    reflexivity.
Qed.
End SpeechRetry.

(** The catch block of generateSpeech does not ask why an attempt failed:
    whatever the status of the answers, as long as none is 2xx all the
    attempts are made, with all the backoffs in between. *)
Lemma every_failure_is_retried env text voiceName apiKey retries :
  key_truthy apiKey = true ->
  (forall i, (i < retries)%nat -> fails (env_fetch env i) = true) ->
  let out := run (generateSpeech env text voiceName apiKey retries) in
  sent (trace (snd out)) = retries
  /\ sleeps (trace (snd out)) = backoffs 1 (retries - 1).
Proof.
  intros Hkey Hfail. cbv zeta. unfold run, generateSpeech. rewrite Hkey.
  cbn [negb].
  destruct (speech_loop_exhausts env text voiceName apiKey retries retries 1
              None initial_world)
    as (w' & E' & S' & L'); try lia.
  - intros i Hi. apply Hfail. simpl. lia.
  - rewrite E'. cbn [snd]. rewrite S', L'. simpl. split; [lia|reflexivity].
Qed.

(** ** processLine *)

Section Lines.

Variable env : Env.
Variable onChunk : Sink.

Lemma Buffer_from_eq audioData w :
  Buffer_from env audioData w
  = match buffer_of env audioData with
    | Some b => (Ret b, w)
    | None => (Throw (Some (TypeError (lit "The first argument must be of type string or an instance of Buffer, ArrayBuffer, or Array or an Array-like Object."))), w)
    end.
Proof.
  unfold Buffer_from, buffer_of.
  destruct audioData as [[| | | | |]|]; try reflexivity;
    destruct (Buffer_from_object env _); reflexivity.
Qed.

(** processLine always returns; it leaves the world alone, or logs one
    debug message, or hands one chunk to the sink (and logs one debug
    message if the sink rejects). *)
Lemma processLine_shape line w :
  exists w',
    processLine env onChunk line w = (Ret tt, w')
    /\ ((chunk_of_line env line = []
         /\ (w' = w
             \/ w' = mk_world (trace w ++ [parse_failure_log line]) (ticks w)
                              (requests w) (clock_reads w) (sink_calls w)
                              (totalBytes w)))
        \/ (exists pcm logs,
              chunk_of_line env line = [pcm]
              /\ w' = delivered env pcm logs w
              /\ ((logs = [] /\ exists u, onChunk (sink_calls w) pcm = Ret u)
                  \/ (logs = [parse_failure_log line]
                      /\ exists e, onChunk (sink_calls w) pcm = Throw e)))).
Proof.
  unfold processLine, chunk_of_line, audio_of, parse_failure_log.
  destruct (startsWith (lit "data: ") line);
    [|eexists; split; [reflexivity|left; split; [reflexivity|left; reflexivity]]].
  cbv zeta.
  destruct (jstr_eqb (trim (slice 6 line)) (lit "[DONE]"));
    [eexists; split; [reflexivity|left; split; [reflexivity|left; reflexivity]]|].
  unfold try_catch, bind at 1.
  destruct (JSON_parse (trim (slice 6 line))) as [data|]; simpl;
    [|eexists; split; [reflexivity|left; split; [reflexivity|right; reflexivity]]].
  destruct (truthy (audio_path (Some data)));
    [|eexists; split; [reflexivity|left; split; [reflexivity|left; reflexivity]]].
  unfold bind at 1. rewrite Buffer_from_eq.
  destruct (buffer_of env (audio_path (Some data))) as [pcm|];
    [|eexists; split; [reflexivity|left; split; [reflexivity|right; reflexivity]]].
  unfold get_totalBytes, set_totalBytes, call_sink, emit, tick, bind, logger, delivered.
  simpl.
  destruct (onChunk (sink_calls w) pcm) as [u|e] eqn:Es.
  - eexists; split; [reflexivity|]. right. exists pcm, []. split; [reflexivity|]. split.
    + simpl. rewrite <- !app_assoc. simpl. reflexivity.
    + left. split; [reflexivity|]. exists u. assumption.
  - eexists; split; [reflexivity|]. right.
    exists pcm, [EvLog debug (lit "Failed to parse SSE data")
                  (DataText (substring0 100 (trim (slice 6 line))))].
    split; [reflexivity|]. split.
    + simpl. rewrite <- !app_assoc. simpl. reflexivity.
    + right. split; [reflexivity|]. exists e. assumption.
Qed.

Lemma processLine_returns line w :
  fst (processLine env onChunk line w) = Ret tt.
Proof.
  destruct (processLine_shape line w) as (w' & E & _). rewrite E. reflexivity.
Qed.

Lemma processLine_chunks line w :
  chunks (trace (snd (processLine env onChunk line w)))
  = chunks (trace w) ++ chunk_of_line env line.
Proof.
  destruct (processLine_shape line w)
    as (w' & E & [[Hc [->| ->]]|(pcm & logs & Hc & -> & Hl)]); rewrite E, Hc; simpl.
  - rewrite app_nil_r. reflexivity.
  - obs. reflexivity.
  - assert (chunks logs = []) as Hlogs
      by (destruct Hl as [[-> _]|[-> _]]; reflexivity).
    obs. rewrite Hlogs. reflexivity.
Qed.

Lemma processLine_quiet line w :
  sent (trace (snd (processLine env onChunk line w))) = sent (trace w)
  /\ sleeps (trace (snd (processLine env onChunk line w))) = sleeps (trace w)
  /\ requests (snd (processLine env onChunk line w)) = requests w.
Proof.
  destruct (processLine_shape line w)
    as (w' & E & [[Hc [->| ->]]|(pcm & logs & Hc & -> & Hl)]); rewrite E; simpl.
  - repeat split.
  - obs. repeat split.
  - assert (sent logs = 0%nat /\ sleeps logs = []) as [H1 H2]
      by (destruct Hl as [[-> _]|[-> _]]; split; reflexivity).
    obs. rewrite H1, H2. obs. repeat split.
Qed.

End Lines.

(** ** Splitting into lines, incrementally *)

Lemma split_nl_nonempty (s : jstr) : split_nl s <> [].
Proof.
  destruct s as [|c s]; simpl; [discriminate|].
  destruct (c =? 10); [discriminate|].
  destruct (split_nl s); discriminate.
Qed.

Lemma removelast_cons {A} (x : A) (l : list A) :
  l <> [] -> removelast (x :: l) = x :: removelast l.
Proof. destruct l; [congruence|reflexivity]. Qed.

Lemma last_cons {A} (x : A) (l : list A) (d : A) :
  l <> [] -> last (x :: l) d = last l d.
Proof. destruct l; [congruence|reflexivity]. Qed.

(** Splitting a text that arrives in two parts: the complete lines of the
    first part, then the split of what was pending followed by the second
    part. *)
Lemma split_nl_app (a b : jstr) :
  split_nl (a ++ b)
  = removelast (split_nl a) ++ split_nl (last (split_nl a) [] ++ b).
Proof.
  induction a as [|c a IH]; [reflexivity|].
  simpl. destruct (c =? 10) eqn:Ec.
  - rewrite removelast_cons, last_cons by apply split_nl_nonempty.
    simpl. rewrite IH. reflexivity.
  - rewrite IH. destruct (split_nl a) as [|l0 ls0] eqn:E.
    + exfalso. eapply split_nl_nonempty; eassumption.
    + destruct ls0 as [|l1 ls1].
      * simpl. rewrite Ec. reflexivity.
      * rewrite (removelast_cons l0) by discriminate.
        rewrite (removelast_cons (c :: l0)) by discriminate.
        rewrite (last_cons l0), (last_cons (c :: l0)) by discriminate.
        reflexivity.
Qed.

Lemma split_nl_no_newline (s : jstr) : ~ In 10 s -> split_nl s = [s].
Proof.
  induction s as [|c s IH]; intros H; [reflexivity|].
  simpl. destruct (c =? 10) eqn:E.
  - apply Z.eqb_eq in E. exfalso. apply H. left. assumption.
  - rewrite IH; [reflexivity|]. intros Hin. apply H. right. assumption.
Qed.

Lemma last_split_nl_no_newline (s : jstr) : ~ In 10 (last (split_nl s) []).
Proof.
  induction s as [|c s IH]; simpl; [tauto|].
  destruct (c =? 10) eqn:E.
  - rewrite last_cons by apply split_nl_nonempty. assumption.
  - destruct (split_nl s) as [|l0 ls0] eqn:Es.
    + exfalso. eapply split_nl_nonempty; eassumption.
    + destruct ls0 as [|l1 ls1].
      * simpl in *. intros [H|H]; [apply Z.eqb_neq in E; congruence|tauto].
      * rewrite (last_cons (c :: l0)) by discriminate.
        rewrite (last_cons l0) in IH by discriminate. assumption.
Qed.

(** ** Decoding bytes to text, incrementally *)

Lemma run_handler_app (st : utf8_state) (a b : list Z) :
  run_handler st (a ++ b)
  = let (st1, out1) := run_handler st a in
    let (st2, out2) := run_handler st1 b in
    (st2, out1 ++ out2).
Proof.
  revert st. induction a as [|x a IH]; intros st; simpl.
  - destruct (run_handler st b). reflexivity.
  - destruct (handler st x) as [st1 o1]. rewrite IH.
    destruct (run_handler st1 a) as [st2 o2].
    destruct (run_handler st2 b) as [st3 o3].
    rewrite app_assoc. reflexivity.
Qed.

Lemma serialize_app (bom : bool) (a b : list Z) :
  serialize bom (a ++ b)
  = let (b1, out1) := serialize bom a in
    let (b2, out2) := serialize b1 b in
    (b2, out1 ++ out2).
Proof.
  revert bom. induction a as [|x a IH]; intros bom; simpl.
  - destruct (serialize bom b). reflexivity.
  - rewrite IH. destruct (serialize true a) as [b1 o1].
    destruct (negb bom && (x =? 65279)); destruct (serialize b1 b) as [b2 o2];
      [reflexivity|rewrite app_assoc; reflexivity].
Qed.

Lemma decode_stream_app (d : TextDecoder) (a b : list Z) :
  decode_stream d (a ++ b)
  = let (t1, d1) := decode_stream d a in
    let (t2, d2) := decode_stream d1 b in
    (t1 ++ t2, d2).
Proof.
  unfold decode_stream. rewrite run_handler_app.
  destruct (run_handler (dec_state d) a) as [st1 o1].
  destruct (run_handler st1 b) as [st2 o2] eqn:E2.
  rewrite serialize_app.
  destruct (serialize (dec_bom_seen d) o1) as [b1 t1].
  destruct (serialize b1 o2) as [b2 t2] eqn:E3.
  simpl. rewrite E2, E3. reflexivity.
Qed.

Lemma decode_stream_nil (d : TextDecoder) : decode_stream d [] = ([], d).
Proof. destruct d. reflexivity. Qed.

Lemma decode_flush_no_newline (d : TextDecoder) : ~ In 10 (decode_flush d).
Proof.
  unfold decode_flush, handler_eoq.
  destruct (bytes_needed (dec_state d) =? 0); simpl; [tauto|].
  destruct (dec_bom_seen d); simpl; intros [H|H]; try discriminate; tauto.
Qed.

(** ** The lines of a body do not depend on how it is split into pushes *)

Lemma loop_lines_cons value rest decoder buffer :
  loop_lines (value :: rest) decoder buffer
  = let (text, decoder') := decode_stream decoder value in
    let lines := split_nl (buffer ++ text) in
    let (more, final) := loop_lines rest decoder' (last lines []) in
    (removelast lines ++ more, final).
Proof. reflexivity. Qed.

(** What the read loop dispatches, in terms of the text of the whole
    pending body. *)
Lemma loop_lines_closed (pending : list (list Z)) :
  forall decoder buffer,
    ~ In 10 buffer ->
    loop_lines pending decoder buffer
    = let (text, decoder') := decode_stream decoder (concat pending) in
      (removelast (split_nl (buffer ++ text)),
       last (split_nl (buffer ++ text)) [] ++ decode_flush decoder').
Proof.
  induction pending as [|value rest IH]; intros decoder buffer Hb.
  - cbn [loop_lines concat]. rewrite decode_stream_nil, app_nil_r.
    rewrite split_nl_no_newline by assumption. reflexivity.
  - rewrite loop_lines_cons. cbn [concat]. rewrite decode_stream_app.
    destruct (decode_stream decoder value) as [text decoder1].
    rewrite IH by apply last_split_nl_no_newline.
    destruct (decode_stream decoder1 (concat rest)) as [text' decoder2].
    rewrite app_assoc, (split_nl_app (buffer ++ text) text').
    set (X := removelast (split_nl (buffer ++ text))).
    set (Y := split_nl (last (split_nl (buffer ++ text)) [] ++ text')).
    assert (Y <> []) as HY by apply split_nl_nonempty.
    f_equal.
    + destruct Y as [|y Y] using rev_ind; [congruence|].
      rewrite app_assoc, !removelast_last. reflexivity.
    + f_equal. destruct Y as [|y Y] using rev_ind; [congruence|].
      rewrite app_assoc, !last_last. reflexivity.
Qed.

(** The lines that reach processLine when a body ends normally are the
    dispatched lines of its decoded text. *)
Lemma loop_lines_dispatched (pending : list (list Z)) :
  let (lines, buffer) := loop_lines pending new_TextDecoder [] in
  lines ++ final_line buffer = dispatched (utf8_decode (concat pending)).
Proof.
  rewrite loop_lines_closed by (simpl; tauto).
  unfold utf8_decode, dispatched.
  destruct (decode_stream new_TextDecoder (concat pending)) as [text d].
  change ([] ++ text) with text. cbv iota beta.
  rewrite (split_nl_app text (decode_flush d)).
  rewrite (split_nl_no_newline (last (split_nl text) [] ++ decode_flush d)).
  - rewrite removelast_last, last_last. reflexivity.
  - intros H. apply in_app_or in H. destruct H as [H|H].
    + exact (last_split_nl_no_newline text H).
    + exact (decode_flush_no_newline d H).
Qed.

(** ** The read loop *)

Section ReadLoop.

Variable env : Env.
Variable onChunk : Sink.

Lemma prefix_of_refl {A} (l : list A) : prefix_of l l.
Proof. exists []. rewrite app_nil_r. reflexivity. Qed.

Lemma prefix_of_nil {A} (l : list A) : prefix_of [] l.
Proof. exists l. reflexivity. Qed.

Lemma prefix_of_app {A} (a b c : list A) : prefix_of b c -> prefix_of (a ++ b) (a ++ c).
Proof. intros [r ->]. exists r. rewrite app_assoc. reflexivity. Qed.

Lemma prefix_of_app_r {A} (a b c : list A) : prefix_of a b -> prefix_of a (b ++ c).
Proof. intros [r ->]. exists (r ++ c). rewrite app_assoc. reflexivity. Qed.

(** Without a cancellation the controller's signal is never aborted. *)
Lemma never_aborted w : caller_aborts_at env = None -> aborted env w = false.
Proof. unfold aborted. intros ->. reflexivity. Qed.

Lemma process_lines_effect (lines : list jstr) :
  forall w, exists w',
    process_lines env onChunk lines w = (Ret tt, w')
    /\ chunks (trace w') = chunks (trace w) ++ flat_map (chunk_of_line env) lines
    /\ sent (trace w') = sent (trace w)
    /\ sleeps (trace w') = sleeps (trace w).
Proof.
  induction lines as [|line rest IH]; intros w.
  - exists w. simpl. rewrite app_nil_r. repeat split.
  - cbn [process_lines flat_map]. unfold bind at 1.
    pose proof (processLine_chunks env onChunk line w) as Hc.
    pose proof (processLine_quiet env onChunk line w) as (Hs & Hl & _).
    pose proof (processLine_returns env onChunk line w) as Hr.
    destruct (processLine env onChunk line w) as [r w1]. simpl in Hc, Hs, Hl, Hr.
    subst r. unfold bind at 1, tick at 1.
    match goal with |- context [process_lines _ _ rest ?w2] =>
      destruct (IH w2) as (w3 & E3 & C3 & S3 & L3) end.
    exists w3. split; [exact E3|].
    rewrite C3, S3, L3. simpl. obs. rewrite Hc, Hs, Hl.
    rewrite <- app_assoc. repeat split.
Qed.

(** The read loop hands the lines of [loop_lines] to processLine, in
    order, as far as it gets; it gets through when no cancellation
    interferes, and returns the final buffer unless the body ends with an
    error. *)
Lemma read_loop_effect signal ending (pending : list (list Z)) :
  forall decoder buffer w, exists r w' emitted,
    read_loop env onChunk signal ending pending decoder buffer w = (r, w')
    /\ chunks (trace w') = chunks (trace w) ++ emitted
    /\ prefix_of emitted
         (flat_map (chunk_of_line env) (fst (loop_lines pending decoder buffer)))
    /\ sent (trace w') = sent (trace w)
    /\ sleeps (trace w') = sleeps (trace w)
    /\ (forall b, r = Ret b ->
          b = snd (loop_lines pending decoder buffer)
          /\ emitted = flat_map (chunk_of_line env)
                         (fst (loop_lines pending decoder buffer)))
    /\ (cancellable env signal = false ->
          emitted = flat_map (chunk_of_line env)
                      (fst (loop_lines pending decoder buffer))
          /\ r = match ending with
                 | None => Ret (snd (loop_lines pending decoder buffer))
                 | Some e => Throw (Some e)
                 end).
Proof.
  induction pending as [|value rest IH]; intros decoder buffer w.
  - cbn [read_loop loop_lines fst snd flat_map].
    unfold bind at 1, reader_read, bind at 1, tick.
    match goal with |- context [aborted env ?w1] => set (w1' := w1) end.
    destruct (signal && aborted env w1') eqn:Ea.
    + do 3 eexists. split; [reflexivity|]. subst w1'. simpl. obs.
      split; [reflexivity|]. split; [apply prefix_of_refl|].
      repeat split; try discriminate.
      all: exfalso; unfold aborted in Ea; unfold cancellable in *; destruct signal; simpl in *;
        destruct (caller_aborts_at env); simpl in *; discriminate.
    + destruct ending as [e|].
      * do 3 eexists. split; [reflexivity|]. subst w1'. simpl. obs.
        split; [reflexivity|]. split; [apply prefix_of_refl|].
        repeat split; discriminate.
      * do 3 eexists. split; [reflexivity|]. subst w1'. simpl. obs.
        split; [reflexivity|]. split; [apply prefix_of_refl|].
        repeat split; congruence.
  - rewrite loop_lines_cons. cbn [read_loop].
    unfold bind at 1, reader_read, bind at 1, tick.
    match goal with |- context [aborted env ?w1] => set (w1' := w1) end.
    destruct (decode_stream decoder value) as [text decoder1].
    destruct (signal && aborted env w1') eqn:Ea.
    + do 3 eexists. split; [reflexivity|]. subst w1'. simpl. obs.
      split; [reflexivity|]. split; [apply prefix_of_nil|].
      repeat split; try discriminate.
      all: exfalso; unfold aborted in Ea; unfold cancellable in *; destruct signal; simpl in *;
        destruct (caller_aborts_at env); simpl in *; discriminate.
    + cbv zeta. unfold emit, bind at 1, ret. cbv beta iota.
      unfold bind at 1.
      match goal with |- context [process_lines _ _ ?ls ?w2] =>
        destruct (process_lines_effect ls w2) as (w3 & E3 & C3 & S3 & L3) end.
      rewrite E3.
      destruct (IH decoder1 (last (split_nl (buffer ++ text)) []) w3)
        as (r & w4 & emitted & E4 & C4 & P4 & S4 & L4 & R4 & N4).
      rewrite E4.
      destruct (loop_lines rest decoder1 (last (split_nl (buffer ++ text)) []))
        as [more final]. cbn [fst snd] in *.
      exists r, w4,
        (flat_map (chunk_of_line env) (removelast (split_nl (buffer ++ text))) ++ emitted).
      split; [reflexivity|].
      rewrite C4, S4, L4, C3, S3, L3. subst w1'. simpl. obs.
      rewrite flat_map_app.
      split; [rewrite app_assoc; reflexivity|].
      split; [apply prefix_of_app; assumption|].
      repeat split.
      * apply R4. assumption.
      * f_equal. apply R4 with (b := b). assumption.
      * f_equal. apply N4. assumption.
      * apply N4. assumption.
Qed.

End ReadLoop.

(** ** The body phase of generateSpeechStream *)

Section StreamBody.

Variable env : Env.
Variables text voiceName : jstr.
Variable onChunk : Sink.

Lemma final_line_effect buffer w :
  exists w',
    (if JsString.nonempty (trim buffer)
     then processLine env onChunk (trim buffer) ;; tick env
     else ret tt) w = (Ret tt, w')
    /\ chunks (trace w')
       = chunks (trace w) ++ flat_map (chunk_of_line env) (final_line buffer)
    /\ sent (trace w') = sent (trace w)
    /\ sleeps (trace w') = sleeps (trace w).
Proof.
  unfold final_line. destruct (JsString.nonempty (trim buffer)).
  - unfold bind.
    pose proof (processLine_chunks env onChunk (trim buffer) w) as Hc.
    pose proof (processLine_quiet env onChunk (trim buffer) w) as (Hs & Hl & _).
    pose proof (processLine_returns env onChunk (trim buffer) w) as Hr.
    destruct (processLine env onChunk (trim buffer) w) as [r w1].
    simpl in Hc, Hs, Hl, Hr. subst r.
    eexists. split; [reflexivity|]. simpl. obs. rewrite Hc, Hs, Hl.
    repeat split.
  - exists w. simpl. rewrite app_nil_r. repeat split.
Qed.

Lemma stream_body_effect signal response w :
  exists r w' emitted,
    stream_body env text voiceName onChunk signal (Some response) w = (r, w')
    /\ chunks (trace w') = chunks (trace w) ++ emitted
    /\ prefix_of emitted
         (flat_map (chunk_of_line env)
            (dispatched (utf8_decode (concat (body_pushes response)))))
    /\ sent (trace w') = sent (trace w)
    /\ sleeps (trace w') = sleeps (trace w)
    /\ (cancellable env signal = false ->
        match body_error response with
        | None =>
            r = Ret tt
            /\ emitted = flat_map (chunk_of_line env)
                           (dispatched (utf8_decode (concat (body_pushes response))))
        | Some e =>
            r = Throw (Some e)
            /\ emitted = flat_map (chunk_of_line env)
                 (removelast (split_nl
                    (fst (decode_stream new_TextDecoder
                            (concat (body_pushes response))))))
        end).
Proof.
  unfold stream_body, Date_now, emit, set_totalBytes, get_totalBytes, logger.
  unfold bind at 1. cbv beta iota. unfold bind at 1. cbv beta iota.
  unfold bind at 1. cbv beta iota. unfold bind at 1, try_finally. cbv beta iota.
  unfold bind at 1.
  match goal with |- context [read_loop _ _ _ ?e ?p ?d ?b ?w0] =>
    destruct (read_loop_effect env onChunk signal e p d b w0)
      as (r1 & w1 & em1 & E1 & C1 & P1 & S1 & L1 & R1 & N1) end.
  rewrite E1. clear E1.
  simpl in C1, S1, L1.
  rewrite chunks_app in C1. rewrite sent_app in S1. rewrite sleeps_app in L1.
  simpl in C1, S1, L1. rewrite app_nil_r in C1, L1. rewrite Nat.add_0_r in S1.
  pose proof (loop_lines_dispatched (body_pushes response)) as Hd.
  pose proof (loop_lines_closed (body_pushes response) new_TextDecoder []) as Hcl.
  destruct (loop_lines (body_pushes response) new_TextDecoder []) as [lines final].
  cbn [fst snd] in *.
  destruct r1 as [b|e1].
  - destruct (R1 b eq_refl) as [-> ->].
    destruct (final_line_effect final w1) as (w2 & E2 & C2 & S2 & L2).
    rewrite E2. cbv beta iota.
    eexists. eexists.
    exists (flat_map (chunk_of_line env) (lines ++ final_line final)).
    split; [unfold bind; simpl; reflexivity|].
    simpl. obs. rewrite C2, S2, L2, C1, S1, L1.
    rewrite <- Hd, flat_map_app, <- app_assoc.
    split; [reflexivity|]. split; [apply prefix_of_refl|].
    repeat split. intros Hn. destruct (N1 Hn) as [_ Hr].
    revert Hr. destruct (body_error response); intros Hr; [discriminate|].
    split; reflexivity.
  - cbv beta iota.
    eexists. eexists. exists em1. split; [reflexivity|].
    simpl. obs. rewrite C1, S1, L1.
    split; [reflexivity|].
    split; [rewrite <- Hd, flat_map_app; apply prefix_of_app_r; assumption|].
    repeat split. intros Hn. destruct (N1 Hn) as [-> Hr].
    revert Hr. destruct (body_error response); intros Hr; [|discriminate].
    split; [inversion Hr; reflexivity|].
    specialize (Hcl (fun H => H)).
    destruct (decode_stream new_TextDecoder (concat (body_pushes response))).
    inversion Hcl. reflexivity.
Qed.

End StreamBody.

(** ** The connection loop of generateSpeechStream *)

Section Connect.

Variable env : Env.
Variables text voiceName : jstr.
Variable apiKey : option jstr.
Variable signal : bool.
Hypothesis no_cancel : cancellable env signal = false.

Lemma not_aborted w : signal && aborted env w = false.
Proof.
  unfold cancellable, aborted in *.
  destruct signal; [|reflexivity].
  destruct (caller_aborts_at env); [discriminate|reflexivity].
Qed.

Lemma stream_attempt_failure attempt retries w :
  fails (env_fetch env (requests w)) = true ->
  exists w',
    stream_attempt env text voiceName apiKey signal attempt retries w
      = (Throw (Some (failure_of (env_fetch env (requests w)))), w')
    /\ requests w' = S (requests w)
    /\ sent (trace w') = S (sent (trace w))
    /\ sleeps (trace w') = sleeps (trace w)
    /\ chunks (trace w') = chunks (trace w).
Proof.
  intros Hf.
  unfold stream_attempt, logger, fetch, emit, next_request, tick, bind.
  simpl. rewrite !not_aborted.
  destruct (env_fetch env (requests w)) as [e|r] eqn:E; simpl in Hf |- *.
  - eexists. split; [reflexivity|]. simpl. obs. repeat split; lia.
  - rewrite Hf. unfold response_text, read_body, tick, bind.
    simpl. rewrite not_aborted.
    destruct (body_error r) as [e|].
    + eexists. split; [reflexivity|]. simpl. obs. repeat split; lia.
    + destruct (500 <=? status r)%nat;
        (eexists; split; [reflexivity|]; simpl; obs; repeat split; lia).
Qed.

Lemma stream_attempt_success attempt retries w r :
  env_fetch env (requests w) = FetchResolves r ->
  ok r = true ->
  exists w',
    stream_attempt env text voiceName apiKey signal attempt retries w
      = (Ret r, w')
    /\ sent (trace w') = S (sent (trace w))
    /\ sleeps (trace w') = sleeps (trace w)
    /\ chunks (trace w') = chunks (trace w).
Proof.
  intros E Hok.
  unfold stream_attempt, logger, fetch, emit, next_request, tick, bind.
  simpl. rewrite !not_aborted. rewrite E, Hok. simpl.
  eexists. split; [reflexivity|]. simpl. obs. repeat split; lia.
Qed.

(** The first [j] remaining attempts fail with an error that is not named
    AbortError, and the next one connects. *)
Lemma connect_loop_succeeds retries r :
  forall j fuel attempt w,
    (j < fuel)%nat ->
    (attempt + j <= retries)%nat ->
    (forall i, (i < j)%nat ->
       fails (env_fetch env (requests w + i)) = true
       /\ jstr_eqb (err_name (failure_of (env_fetch env (requests w + i))))
                   (lit "AbortError") = false) ->
    env_fetch env (requests w + j) = FetchResolves r ->
    ok r = true ->
    exists w',
      connect_loop env fuel text voiceName apiKey signal retries attempt w
        = (Ret (Some r), w')
      /\ sent (trace w') = (sent (trace w) + S j)%nat
      /\ sleeps (trace w') = sleeps (trace w) ++ backoffs attempt j
      /\ chunks (trace w') = chunks (trace w).
Proof.
  induction j as [|j IH]; intros fuel attempt w Hfuel Hle Hall E Hok;
    (destruct fuel as [|fuel]; [lia|]); cbn [connect_loop];
    replace (attempt <=? retries)%nat with true by (symmetry; apply Nat.leb_le; lia);
    unfold try_catch; unfold bind at 1.
  - rewrite Nat.add_0_r in E.
    destruct (stream_attempt_success attempt retries w r E Hok)
      as (w1 & E1 & S1 & L1 & C1).
    rewrite E1. eexists. split; [reflexivity|].
    rewrite S1, L1, C1. unfold backoffs. simpl. obs. repeat split; lia.
  - destruct (Hall 0%nat ltac:(lia)) as [Hf Hn]. rewrite Nat.add_0_r in Hf, Hn.
    destruct (stream_attempt_failure attempt retries w Hf)
      as (w1 & E1 & R1 & S1 & L1 & C1).
    rewrite E1. unfold is_cancel. unfold bind at 1. rewrite Hn, not_aborted.
    cbn [orb]. unfold message_of, logger, sleep, emit, tick.
    unfold bind at 1, ret. unfold bind at 1.
    replace (attempt <? retries)%nat with true by (symmetry; apply Nat.ltb_lt; lia).
    unfold bind at 1. unfold bind at 1. unfold bind at 1.
    match goal with |- context [connect_loop _ _ _ _ _ _ _ _ ?w2] =>
      destruct (IH fuel (S attempt) w2) as (w3 & E3 & S3 & L3 & C3) end;
      try assumption; try lia.
    { intros i Hi. cbn [requests]. rewrite R1.
      replace (S (requests w) + i)%nat with (requests w + S i)%nat by lia.
      apply Hall. lia. }
    { cbn [requests]. rewrite R1. rewrite <- E. f_equal. lia. }
    rewrite E3. eexists. split; [reflexivity|].
    rewrite S3, L3, C3. simpl. obs. rewrite S1, L1, C1.
    repeat split; [lia|]. rewrite <- app_assoc. reflexivity.
Qed.

(** Every remaining attempt fails with an error that is not named
    AbortError; there is at least one. *)
Lemma connect_loop_exhausts retries :
  forall fuel attempt w,
    (retries + 1 <= attempt + fuel)%nat ->
    (attempt <= retries)%nat ->
    (forall i, (i < retries + 1 - attempt)%nat ->
       fails (env_fetch env (requests w + i)) = true
       /\ jstr_eqb (err_name (failure_of (env_fetch env (requests w + i))))
                   (lit "AbortError") = false) ->
    exists w',
      connect_loop env fuel text voiceName apiKey signal retries attempt w
        = (Throw (Some (failure_of (env_fetch env (requests w + (retries - attempt))))),
           w')
      /\ sent (trace w') = (sent (trace w) + (retries + 1 - attempt))%nat
      /\ sleeps (trace w') = sleeps (trace w) ++ backoffs attempt (retries - attempt)
      /\ chunks (trace w') = chunks (trace w).
Proof.
  induction fuel as [|fuel IH]; intros attempt w Hfuel Hle Hall; [lia|].
  cbn [connect_loop].
  replace (attempt <=? retries)%nat with true by (symmetry; apply Nat.leb_le; lia).
  unfold try_catch; unfold bind at 1.
  destruct (Hall 0%nat ltac:(lia)) as [Hf Hn]. rewrite Nat.add_0_r in Hf, Hn.
  destruct (stream_attempt_failure attempt retries w Hf)
    as (w1 & E1 & R1 & S1 & L1 & C1).
  rewrite E1. unfold is_cancel. unfold bind at 1. rewrite Hn, not_aborted.
  cbn [orb]. unfold message_of, logger, sleep, emit, tick.
  unfold bind at 1, ret. unfold bind at 1.
  destruct (attempt <? retries)%nat eqn:Hlt.
  - apply Nat.ltb_lt in Hlt.
    unfold bind at 1. unfold bind at 1. unfold bind at 1.
    match goal with |- context [connect_loop _ _ _ _ _ _ _ _ ?w2] =>
      destruct (IH (S attempt) w2) as (w3 & E3 & S3 & L3 & C3) end;
      try lia.
    { intros i Hi. cbn [requests]. rewrite R1.
      replace (S (requests w) + i)%nat with (requests w + S i)%nat by lia.
      apply Hall. lia. }
    rewrite E3. eexists. split.
    + cbn [requests]. rewrite R1.
      replace (S (requests w) + (retries - S attempt))%nat
        with (requests w + (retries - attempt))%nat by lia.
      reflexivity.
    + rewrite S3, L3, C3. simpl. obs. rewrite S1, L1, C1.
      repeat split; [lia|]. rewrite <- app_assoc. f_equal.
      replace (retries - attempt)%nat with (S (retries - S attempt)) by lia.
      reflexivity.
  - apply Nat.ltb_ge in Hlt. assert (attempt = retries) by lia. subst attempt.
    replace (retries - retries)%nat with 0%nat by lia. rewrite Nat.add_0_r.
    eexists. split; [reflexivity|]. simpl. obs. rewrite S1, L1, C1.
    unfold backoffs. simpl. obs. repeat split; lia.
Qed.

End Connect.

(** ** The retry schedule *)

Lemma retryable_fails (o : FetchOutcome) : retryable o = true -> fails o = true.
Proof.
  destruct o as [e|r]; [reflexivity|]. unfold retryable, fails, ok. intros H.
  apply Nat.leb_le in H.
  replace (status r <=? 299)%nat with false by (symmetry; apply Nat.leb_gt; lia).
  rewrite andb_false_r. reflexivity.
Qed.

Lemma stream_retryable_fails (o : FetchOutcome) :
  stream_retryable o = true ->
  fails o = true
  /\ jstr_eqb (err_name (failure_of o)) (lit "AbortError") = false.
Proof.
  unfold stream_retryable. intros H. apply andb_true_iff in H. destruct H as [H1 H2].
  split; [apply retryable_fails; assumption|].
  apply negb_true_iff in H2. assumption.
Qed.

(** C7. When attempts 1..k-1 fail with a 5xx status or a transport error
    and attempt k (k <= retries) succeeds, the operation succeeds after
    exactly k requests, with backoffs of 1000, 2000, ..., (k-1)*1000 ms in
    this order; when every attempt fails that way, it fails after exactly
    [retries] requests with the error of the last attempt, after backoffs
    of 1000, ..., (retries-1)*1000 ms. This holds for generateSpeech and,
    as long as no cancellation interferes and no transport error is named
    AbortError, for generateSpeechStream. *)
Theorem retry_schedule :
  forall env text voiceName apiKey retries,
    key_truthy apiKey = true ->
    (forall k r data s,
        (1 <= k <= retries)%nat ->
        (forall i, (i < k - 1)%nat -> retryable (env_fetch env i) = true) ->
        env_fetch env (k - 1) = FetchResolves r ->
        ok r = true ->
        body_error r = None ->
        JSON_parse (utf8_decode (concat (body_pushes r))) = Some data ->
        audio_path (Some data) = Some (JStr s) ->
        s <> [] ->
        let out := run (generateSpeech env text voiceName apiKey retries) in
        fst out = Ret (base64_decode s)
        /\ sent (trace (snd out)) = k
        /\ sleeps (trace (snd out)) = backoffs 1 (k - 1))
    /\ ((forall i, (i < retries)%nat -> retryable (env_fetch env i) = true) ->
        let out := run (generateSpeech env text voiceName apiKey retries) in
        fst out = Throw (match retries with
                         | O => None
                         | S n => Some (failure_of (env_fetch env n))
                         end)
        /\ sent (trace (snd out)) = retries
        /\ sleeps (trace (snd out)) = backoffs 1 (retries - 1))
    /\ (forall onChunk signal k r,
        cancellable env signal = false ->
        (1 <= k <= retries)%nat ->
        (forall i, (i < k - 1)%nat -> stream_retryable (env_fetch env i) = true) ->
        env_fetch env (k - 1) = FetchResolves r ->
        ok r = true ->
        body_error r = None ->
        let out := run (generateSpeechStream env text voiceName apiKey onChunk
                          signal retries) in
        fst out = Ret tt
        /\ sent (trace (snd out)) = k
        /\ sleeps (trace (snd out)) = backoffs 1 (k - 1))
    /\ (forall onChunk signal,
        cancellable env signal = false ->
        (1 <= retries)%nat ->
        (forall i, (i < retries)%nat -> stream_retryable (env_fetch env i) = true) ->
        let out := run (generateSpeechStream env text voiceName apiKey onChunk
                          signal retries) in
        fst out = Throw (Some (failure_of (env_fetch env (retries - 1))))
        /\ sent (trace (snd out)) = retries
        /\ sleeps (trace (snd out)) = backoffs 1 (retries - 1)).
Proof.
  intros env text voiceName apiKey retries Hkey.
  unfold run, generateSpeech, generateSpeechStream. rewrite Hkey. cbn [negb].
  split; [|split; [|split]].
  - intros k r data s Hk Hfail E Hok Hb Hp Ha Hs.
    destruct (speech_loop_succeeds env text voiceName apiKey retries r data s
                (k - 1) retries 1 None initial_world)
      as (w' & E' & S' & L'); try assumption; try lia.
    + intros i Hi. apply retryable_fails. apply Hfail. assumption.
    + cbv zeta. rewrite E'. cbn [fst snd]. rewrite S', L'. simpl.
      repeat split. lia.
  - intros Hfail.
    destruct (speech_loop_exhausts env text voiceName apiKey retries retries 1
                None initial_world)
      as (w' & E' & S' & L'); try lia.
    + intros i Hi. apply retryable_fails. apply Hfail. simpl. lia.
    + cbv zeta. rewrite E'. cbn [fst snd]. rewrite S', L'. simpl.
      replace (retries + 1 - 1)%nat with retries by lia.
      repeat split. destruct retries as [|n]; [reflexivity|].
      replace (S n =? 0)%nat with false by reflexivity.
      replace (S n - 1)%nat with n by lia. reflexivity.
  - intros onChunk signal k r Hc Hk Hfail E Hok Hb.
    destruct (connect_loop_succeeds env text voiceName apiKey signal Hc retries r
                (k - 1) retries 1 initial_world)
      as (w' & E' & S' & L' & _); try assumption; try lia.
    + intros i Hi. apply stream_retryable_fails. apply Hfail. assumption.
    + cbv zeta. unfold bind. rewrite E'.
      destruct (stream_body_effect env text voiceName onChunk signal r w')
        as (r2 & w2 & em & E2 & _ & _ & S2 & L2 & N2).
      rewrite E2. cbn [fst snd]. specialize (N2 Hc). rewrite Hb in N2.
      destruct N2 as [-> _]. rewrite S2, L2, S', L'. simpl.
      repeat split. lia.
  - intros onChunk signal Hc Hr Hfail.
    destruct (connect_loop_exhausts env text voiceName apiKey signal Hc retries
                retries 1 initial_world)
      as (w' & E' & S' & L' & _); try lia.
    + intros i Hi. apply stream_retryable_fails. apply Hfail. simpl. lia.
    + cbv zeta. unfold bind. rewrite E'. cbn [fst snd]. rewrite S', L'. simpl.
      replace (retries + 1 - 1)%nat with retries by lia.
      repeat split.
Qed.

Lemma retry_schedule_witness :
  let out := run (generateSpeech flaky_env (lit "hi") (lit "Kore")
                    (Some (lit "key")) 3) in
  fst out = Ret (lit "Hello")
  /\ sent (trace (snd out)) = 2%nat
  /\ sleeps (trace (snd out)) = [1000]%nat.
Proof.
  apply (proj1 (retry_schedule flaky_env (lit "hi") (lit "Kore")
                  (Some (lit "key")) 3%nat eq_refl)
           2%nat (mk_response 200 [hello_document] None)
           (JObj [(lit "candidates", JArr [JObj [(lit "content", JObj [(lit "parts", JArr [JObj [(lit "inlineData", JObj [(lit "data", JStr (lit "SGVsbG8="))])]])])]])])
           (lit "SGVsbG8=")).
  - lia.
  - intros i Hi. assert (i = 0%nat) by lia. subst i. reflexivity.
  - reflexivity.
  - reflexivity.
  - reflexivity.
  - vm_compute. reflexivity.
  - vm_compute. reflexivity.
  - discriminate.
Defined.

(** ** Chunking invariance *)

Lemma concat_single {A} (l : list A) : concat [l] = l.
Proof. simpl. apply app_nil_r. Qed.

(** Two bodies with the same bytes and the same ending give the same
    chunks and the same outcome, however they are split into pushes. *)
Lemma same_bytes_same_chunks env text voiceName onChunk signal r1 r2 w :
  cancellable env signal = false ->
  concat (body_pushes r1) = concat (body_pushes r2) ->
  body_error r1 = body_error r2 ->
  chunks (trace (snd (stream_body env text voiceName onChunk signal (Some r1) w)))
  = chunks (trace (snd (stream_body env text voiceName onChunk signal (Some r2) w)))
  /\ fst (stream_body env text voiceName onChunk signal (Some r1) w)
     = fst (stream_body env text voiceName onChunk signal (Some r2) w).
Proof.
  intros Hc Hbytes Hend.
  destruct (stream_body_effect env text voiceName onChunk signal r1 w)
    as (o1 & w1 & em1 & E1 & C1 & _ & _ & _ & N1).
  destruct (stream_body_effect env text voiceName onChunk signal r2 w)
    as (o2 & w2 & em2 & E2 & C2 & _ & _ & _ & N2).
  rewrite E1, E2. cbn [fst snd]. rewrite C1, C2.
  specialize (N1 Hc). specialize (N2 Hc). rewrite Hend, Hbytes in N1.
  destruct (body_error r2); destruct N1 as [-> ->]; destruct N2 as [-> ->];
    split; reflexivity.
Qed.

(** C2. A body delivered in arbitrarily split pushes yields exactly the
    chunks, in the same order, that the same bytes yield when delivered in
    one single push, and the same outcome: they are the chunks of the
    dispatched lines of the body's decoded text, whatever the split (be it
    inside a multi-byte character, inside the "data: " prefix or inside a
    base64 payload). *)
Theorem chunking_invariance :
  forall env text voiceName onChunk signal st pushes ending w,
    cancellable env signal = false ->
    let split_run :=
      stream_body env text voiceName onChunk signal
        (Some (mk_response st pushes ending)) w in
    let single_run :=
      stream_body env text voiceName onChunk signal
        (Some (mk_response st [concat pushes] ending)) w in
    chunks (trace (snd split_run)) = chunks (trace (snd single_run))
    /\ fst split_run = fst single_run
    /\ (ending = None ->
        chunks (trace (snd split_run))
        = chunks (trace w)
          ++ flat_map (chunk_of_line env)
               (dispatched (utf8_decode (concat pushes)))).
Proof.
  intros env text voiceName onChunk signal st pushes ending w Hc.
  cbv zeta.
  destruct (same_bytes_same_chunks env text voiceName onChunk signal
              (mk_response st pushes ending)
              (mk_response st [concat pushes] ending) w Hc) as [H1 H2].
  - cbn [body_pushes]. rewrite concat_single. reflexivity.
  - reflexivity.
  - split; [exact H1|]. split; [exact H2|].
    intros ->.
    destruct (stream_body_effect env text voiceName onChunk signal
                (mk_response st pushes None) w)
      as (o1 & w1 & em1 & E1 & C1 & _ & _ & _ & N1).
    rewrite E1. cbn [snd]. rewrite C1.
    destruct (N1 Hc) as [_ ->]. reflexivity.
Qed.

(** The "Hello" frame, followed by a newline, cut inside the "data: "
    prefix and inside the base64 payload. *)
Lemma chunking_invariance_witness :
  let env := constant_env (FetchRejects AbortError) None in
  let pushes := [lit "da"; litq "ta: {'candidates':[{'content':{'parts':[{'inlineData':{'data':'SGVs";
                 litq "bG8='}}]}}]}"; [10]] in
  cancellable env true = false
  /\ chunks (trace (snd (stream_body env (lit "hi") (lit "Kore") sink_resolves true
                           (Some (mk_response 200 pushes None)) initial_world)))
     = chunks (trace (snd (stream_body env (lit "hi") (lit "Kore") sink_resolves true
                           (Some (mk_response 200 [concat pushes] None)) initial_world))).
Proof.
  cbv zeta. split; [reflexivity|].
  exact (proj1 (chunking_invariance (constant_env (FetchRejects AbortError) None)
           (lit "hi") (lit "Kore") sink_resolves true 200%nat
           [lit "da"; litq "ta: {'candidates':[{'content':{'parts':[{'inlineData':{'data':'SGVs";
            litq "bG8='}}]}}]}"; [10]] None initial_world eq_refl)).
Defined.

(** A split inside a multi-byte character: the two bytes of U+00E9 arrive
    in different pushes, and no replacement character appears. *)
Example split_inside_character :
  let (t1, d1) := decode_stream new_TextDecoder [100; 195] in
  let (t2, d2) := decode_stream d1 [169; 10] in
  t1 ++ t2 ++ decode_flush d2 = [100; 233; 10]
  /\ utf8_decode [100; 195; 169; 10] = [100; 233; 10].
Proof. vm_compute. split; reflexivity. Qed.

(** ** The end-of-stream flush *)

Lemma dispatched_utf8_decode (bytes : list Z) :
  dispatched (utf8_decode bytes)
  = let (decoded, decoder) := decode_stream new_TextDecoder bytes in
    removelast (split_nl decoded)
    ++ final_line (last (split_nl decoded) [] ++ decode_flush decoder).
Proof.
  unfold utf8_decode, dispatched.
  destruct (decode_stream new_TextDecoder bytes) as [text d].
  rewrite (split_nl_app text (decode_flush d)).
  rewrite (split_nl_no_newline (last (split_nl text) [] ++ decode_flush d)).
  - rewrite removelast_last, last_last. reflexivity.
  - intros H. apply in_app_or in H. destruct H as [H|H].
    + exact (last_split_nl_no_newline text H).
    + exact (decode_flush_no_newline d H).
Qed.

(** C5. When the body ends, the decoder's remainder is flushed and
    appended to the pending partial line, and the result, trimmed, is
    processed as one last line if it is not empty: the chunks of a run are
    those of the complete lines followed by that of this last line. So a
    body that ends with the "Hello" frame and no newline still delivers the
    bytes of "Hello". *)
Theorem end_of_stream_flush :
  (forall env text voiceName onChunk signal st pushes w,
      cancellable env signal = false ->
      let (decoded, decoder) := decode_stream new_TextDecoder (concat pushes) in
      let pending := last (split_nl decoded) [] in
      let final := trim (pending ++ decode_flush decoder) in
      chunks (trace (snd (stream_body env text voiceName onChunk signal
                            (Some (mk_response st pushes None)) w)))
      = chunks (trace w)
        ++ flat_map (chunk_of_line env) (removelast (split_nl decoded))
        ++ (if JsString.nonempty final then chunk_of_line env final else []))
  /\ (let env := constant_env (FetchResolves (mk_response 200 [hello_frame] None)) None in
      let out := run (generateSpeechStream env (lit "hi") (lit "Kore")
                        (Some (lit "key")) sink_resolves true 3) in
      fst out = Ret tt /\ chunks (trace (snd out)) = [lit "Hello"]).
Proof.
  split.
  - intros env text voiceName onChunk signal st pushes w Hc.
    destruct (stream_body_effect env text voiceName onChunk signal
                (mk_response st pushes None) w)
      as (o1 & w1 & em1 & E1 & C1 & _ & _ & _ & N1).
    rewrite E1. cbn [snd]. rewrite C1.
    destruct (N1 Hc) as [_ ->]. cbn [body_pushes].
    rewrite dispatched_utf8_decode.
    destruct (decode_stream new_TextDecoder (concat pushes)) as [decoded decoder].
    cbv zeta. rewrite flat_map_app. unfold final_line.
    destruct (JsString.nonempty (trim (last (split_nl decoded) [] ++ decode_flush decoder)));
      simpl; rewrite ?app_nil_r; reflexivity.
  - vm_compute. split; reflexivity.
Qed.

Lemma end_of_stream_flush_witness :
  let env := constant_env (FetchRejects AbortError) None in
  cancellable env true = false
  /\ chunks (trace (snd (stream_body env (lit "hi") (lit "Kore") sink_resolves true
                           (Some (mk_response 200 [hello_frame] None)) initial_world)))
     = [lit "Hello"].
Proof.
  cbv zeta. split; [reflexivity|].
  exact (proj1 end_of_stream_flush (constant_env (FetchRejects AbortError) None)
           (lit "hi") (lit "Kore") sink_resolves true 200%nat [hello_frame]
           initial_world eq_refl).
Defined.

(** ** Lines that give no chunk *)

Lemma jstr_eqb_refl (s : jstr) : jstr_eqb s s = true.
Proof.
  induction s as [|c s IH]; [reflexivity|].
  change (jstr_eqb (c :: s) (c :: s)) with ((c =? c) && jstr_eqb s s).
  rewrite Z.eqb_refl, IH. reflexivity.
Qed.

(** C6. processLine on a line that is empty or does not begin with
    "data: " does nothing; so it does on a line whose trimmed payload is
    "[DONE]" and on a parsed frame without the audio field. On a payload
    that is not JSON it logs one debug message and returns. None of these
    throws, so a valid line after a malformed one still has its chunk
    delivered; the two examples of the specification are evaluated at the
    end. *)
Theorem lines_without_chunk :
  forall env onChunk line w,
    processLine env onChunk [] w = (Ret tt, w)
    /\ (startsWith (lit "data: ") line = false ->
        processLine env onChunk line w = (Ret tt, w))
    /\ (startsWith (lit "data: ") line = true ->
        trim (slice 6 line) = lit "[DONE]" ->
        processLine env onChunk line w = (Ret tt, w))
    /\ (startsWith (lit "data: ") line = true ->
        jstr_eqb (trim (slice 6 line)) (lit "[DONE]") = false ->
        JSON_parse (trim (slice 6 line)) = None ->
        processLine env onChunk line w
        = (Ret tt,
           mk_world (trace w ++ [EvLog debug (lit "Failed to parse SSE data")
                                   (DataText (substring0 100 (trim (slice 6 line))))])
                    (ticks w) (requests w) (clock_reads w) (sink_calls w)
                    (totalBytes w)))
    /\ (forall data,
        startsWith (lit "data: ") line = true ->
        JSON_parse (trim (slice 6 line)) = Some data ->
        audio_path (Some data) = None ->
        processLine env onChunk line w = (Ret tt, w))
    /\ (forall good pcm,
        startsWith (lit "data: ") line = true ->
        JSON_parse (trim (slice 6 line)) = None ->
        chunk_of_line env good = [pcm] ->
        fst (process_lines env onChunk [line; good] w) = Ret tt
        /\ chunks (trace (snd (process_lines env onChunk [line; good] w)))
           = chunks (trace w) ++ [pcm])
    /\ (let env := constant_env
                     (FetchResolves
                        (mk_response 200
                           [litq "data: {not json" ++ [10] ++ hello_frame ++ [10]]
                           None)) None in
        let out := run (generateSpeechStream env (lit "hi") (lit "Kore")
                          (Some (lit "key")) sink_resolves true 3) in
        fst out = Ret tt
        /\ chunks (trace (snd out)) = [lit "Hello"]
        /\ logged debug (trace (snd out))
           = [lit "Sending streaming request to Gemini TTS API (Attempt 1/3)";
              lit "Failed to parse SSE data"])
    /\ (let env := constant_env
                     (FetchResolves
                        (mk_response 200 [lit "data: [DONE]" ++ [10]] None)) None in
        let out := run (generateSpeechStream env (lit "hi") (lit "Kore")
                          (Some (lit "key")) sink_resolves true 3) in
        fst out = Ret tt
        /\ chunks (trace (snd out)) = []
        /\ logged debug (trace (snd out))
           = [lit "Sending streaming request to Gemini TTS API (Attempt 1/3)"]).
Proof.
  intros env onChunk line w.
  split; [reflexivity|].
  split; [intros H; unfold processLine; rewrite H; reflexivity|].
  split; [intros H1 H2; unfold processLine; rewrite H1; cbv zeta;
          rewrite H2, jstr_eqb_refl; reflexivity|].
  split; [intros H1 H2 H3; unfold processLine; rewrite H1; cbv zeta;
          rewrite H2; unfold try_catch, bind; rewrite H3; reflexivity|].
  split.
  { intros data H1 H2 H3. unfold processLine. rewrite H1. cbv zeta.
    destruct (jstr_eqb (trim (slice 6 line)) (lit "[DONE]")); [reflexivity|].
    unfold try_catch, bind. rewrite H2. unfold ret. rewrite H3. reflexivity. }
  split.
  { intros good pcm H1 H2 H3.
    destruct (process_lines_effect env onChunk [line; good] w)
      as (w' & E & C & _).
    rewrite E. cbn [fst snd]. split; [reflexivity|].
    rewrite C. cbn [flat_map]. rewrite H3.
    unfold chunk_of_line at 1. rewrite H1. cbv zeta. rewrite H2.
    destruct (jstr_eqb (trim (slice 6 line)) (lit "[DONE]")); reflexivity. }
  split; vm_compute; repeat split; reflexivity.
Qed.

Lemma lines_without_chunk_witness :
  processLine (constant_env (FetchRejects AbortError) None) sink_resolves
    (lit ": keep-alive") initial_world = (Ret tt, initial_world)
  /\ processLine (constant_env (FetchRejects AbortError) None) sink_resolves
       (lit "data: [DONE]") initial_world = (Ret tt, initial_world)
  /\ processLine (constant_env (FetchRejects AbortError) None) sink_resolves
       (litq "data: {not json") initial_world
     = (Ret tt,
        mk_world [EvLog debug (lit "Failed to parse SSE data")
                    (DataText (litq "{not json"))] 0 0 0 0 0)
  /\ processLine (constant_env (FetchRejects AbortError) None) sink_resolves
       (litq "data: {'candidates':[]}") initial_world = (Ret tt, initial_world).
Proof.
  pose (env := constant_env (FetchRejects AbortError) None).
  split; [|split; [|split]].
  - exact (proj1 (proj2 (lines_without_chunk env sink_resolves
                           (lit ": keep-alive") initial_world)) eq_refl).
  - exact (proj1 (proj2 (proj2 (lines_without_chunk env sink_resolves
                                  (lit "data: [DONE]") initial_world)))
             eq_refl eq_refl).
  - exact (proj1 (proj2 (proj2 (proj2 (lines_without_chunk env sink_resolves
                                         (litq "data: {not json") initial_world))))
             eq_refl eq_refl eq_refl).
  - exact (proj1 (proj2 (proj2 (proj2 (proj2 (lines_without_chunk env sink_resolves
                                         (litq "data: {'candidates':[]}") initial_world)))))
             (JObj [(lit "candidates", JArr [])]) eq_refl eq_refl eq_refl).
Defined.

(** ** A sink that fails *)

(** C10. When onChunk rejects the chunk of a line, processLine's catch
    block takes the error for a parse failure: it logs "Failed to parse SSE
    data" at debug level and returns, so that the session goes on. The
    chunk has been counted in totalBytes before the call. Whatever the sink
    does, processLine returns, and a body that ends normally makes the
    operation return, unless it is cancelled. *)
Theorem sink_failure_is_swallowed :
  forall env onChunk,
    (forall line w pcm e,
        chunk_of_line env line = [pcm] ->
        onChunk (sink_calls w) pcm = Throw e ->
        processLine env onChunk line w
        = (Ret tt,
           mk_world (trace w ++ [EvChunk pcm] ++ abort_mark env (S (ticks w))
                       ++ [EvChunkSettled;
                           EvLog debug (lit "Failed to parse SSE data")
                             (DataText (substring0 100 (trim (slice 6 line))))])
                    (S (ticks w)) (requests w) (clock_reads w)
                    (S (sink_calls w)) (totalBytes w + length pcm)))
    /\ (forall line w, fst (processLine env onChunk line w) = Ret tt)
    /\ (forall text voiceName signal st pushes w,
        cancellable env signal = false ->
        fst (stream_body env text voiceName onChunk signal
               (Some (mk_response st pushes None)) w) = Ret tt)
    /\ (let env := constant_env
                     (FetchResolves
                        (mk_response 200 [hello_frame ++ [10] ++ hello_frame ++ [10]]
                           None)) None in
        let out := run (generateSpeechStream env (lit "hi") (lit "Kore")
                          (Some (lit "key")) sink_rejects true 3) in
        fst out = Ret tt
        /\ chunks (trace (snd out)) = [lit "Hello"; lit "Hello"]
        /\ totalBytes (snd out) = 10%nat
        /\ logged debug (trace (snd out))
           = [lit "Sending streaming request to Gemini TTS API (Attempt 1/3)";
              lit "Failed to parse SSE data"; lit "Failed to parse SSE data"]).
Proof.
  intros env onChunk.
  split; [|split; [|split]].
  - intros line w pcm e Hc Hs.
    destruct (processLine_shape env onChunk line w)
      as (w' & E & [[Hc' _]|(pcm' & logs & Hc' & -> & Hl)]).
    + rewrite Hc in Hc'. discriminate.
    + rewrite Hc in Hc'. inversion Hc'. subst pcm'.
      destruct Hl as [[_ [u Hu]]|[-> _]]; [rewrite Hs in Hu; discriminate|].
      rewrite E. reflexivity.
  - intros line w. apply processLine_returns.
  - intros text voiceName signal st pushes w Hc.
    destruct (stream_body_effect env text voiceName onChunk signal
                (mk_response st pushes None) w)
      as (o1 & w1 & em1 & E1 & _ & _ & _ & _ & N1).
    rewrite E1. destruct (N1 Hc) as [-> _]. reflexivity.
  - vm_compute. repeat split; reflexivity.
Qed.

Lemma sink_failure_is_swallowed_witness :
  chunk_of_line (constant_env (FetchRejects AbortError) None) hello_frame
  = [lit "Hello"]
  /\ totalBytes
       (snd (processLine (constant_env (FetchRejects AbortError) None)
               sink_rejects hello_frame initial_world)) = 5%nat.
Proof.
  split; [reflexivity|].
  rewrite (proj1 (sink_failure_is_swallowed
                    (constant_env (FetchRejects AbortError) None) sink_rejects)
             hello_frame initial_world (lit "Hello")
             (Some (Error (lit "socket closed"))) eq_refl eq_refl).
  reflexivity.
Defined.

(** ** What a computation adds to the trace *)

Section EmitsRules.

Variable env : Env.
Variable P : list Event -> Prop.
Hypothesis P_nil : P [].
Hypothesis P_app : forall a b, P a -> P b -> P (a ++ b).

Lemma emits_same {A} (m : M A) :
  (forall w, trace (snd (m w)) = trace w) -> emits P m.
Proof.
  intros H w. exists []. rewrite app_nil_r. split; [apply H|apply P_nil].
Qed.

Lemma emits_ret {A} (a : A) : emits P (ret a).
Proof. apply emits_same. reflexivity. Qed.

Lemma emits_throw {A} e : emits P (@throw A e).
Proof. apply emits_same. reflexivity. Qed.

Lemma emits_bind {A B} (m : M A) (k : A -> M B) :
  emits P m -> (forall a, emits P (k a)) -> emits P (bind m k).
Proof.
  intros Hm Hk w. unfold bind.
  destruct (Hm w) as (evs1 & E1 & P1).
  destruct (m w) as [[a|e] w1]; cbn [snd] in *.
  - destruct (Hk a w1) as (evs2 & E2 & P2).
    exists (evs1 ++ evs2). rewrite E2, E1, app_assoc. split; [reflexivity|].
    apply P_app; assumption.
  - exists evs1. split; assumption.
Qed.

Lemma emits_try_catch {A} (m : M A) (h : option JsError -> M A) :
  emits P m -> (forall e, emits P (h e)) -> emits P (try_catch m h).
Proof.
  intros Hm Hh w. unfold try_catch.
  destruct (Hm w) as (evs1 & E1 & P1).
  destruct (m w) as [[a|e] w1]; cbn [snd] in *.
  - exists evs1. split; assumption.
  - destruct (Hh e w1) as (evs2 & E2 & P2).
    exists (evs1 ++ evs2). rewrite E2, E1, app_assoc. split; [reflexivity|].
    apply P_app; assumption.
Qed.

Lemma emits_try_finally {A} (m : M A) (f : M unit) :
  emits P m -> emits P f -> emits P (try_finally m f).
Proof.
  intros Hm Hf w. unfold try_finally.
  destruct (Hm w) as (evs1 & E1 & P1).
  destruct (m w) as [r w1]; cbn [snd] in *.
  destruct (Hf w1) as (evs2 & E2 & P2).
  destruct (f w1) as [[u|e] w2]; cbn [snd] in *;
    (exists (evs1 ++ evs2); rewrite E2, E1, app_assoc; split; [reflexivity|];
     apply P_app; assumption).
Qed.

Lemma emits_emit e : P [e] -> emits P (emit e).
Proof. intros H w. exists [e]. split; [reflexivity|assumption]. Qed.

Lemma emits_tick : P [EvAbort] -> emits P (tick env).
Proof.
  intros H w. exists (abort_mark env (S (ticks w))). split; [reflexivity|].
  unfold abort_mark. destruct (caller_aborts_at env); [|apply P_nil].
  destruct (_ =? _)%nat; [assumption|apply P_nil].
Qed.

(** A choice that depends on the world. *)
Lemma emits_if {A} (c : World -> bool) (m1 m2 : M A) :
  emits P m1 -> emits P m2 -> emits P (fun w => if c w then m1 w else m2 w).
Proof. intros H1 H2 w. destruct (c w); [apply H1|apply H2]. Qed.

Hypothesis P_log : forall l message data, P [EvLog l message data].
Hypothesis P_abort : P [EvAbort].

Lemma emits_logger l message data : emits P (logger l message data).
Proof. apply emits_emit, P_log. Qed.

Lemma emits_Date_now : emits P (Date_now env).
Proof. apply emits_same. reflexivity. Qed.

Lemma emits_read_body signal r : emits P (read_body env signal r).
Proof.
  unfold read_body. apply emits_bind; [apply emits_tick, P_abort|]. intros _.
  apply (emits_if (fun w => signal && aborted env w)); [apply emits_throw|].
  destruct (body_error r); [apply emits_throw|apply emits_ret].
Qed.

Lemma emits_message_of error : emits P (message_of error).
Proof. destruct error; [apply emits_ret|apply emits_throw]. Qed.

Lemma emits_Buffer_from audioData : emits P (Buffer_from env audioData).
Proof.
  intros w. rewrite Buffer_from_eq.
  destruct (buffer_of env audioData); exists []; rewrite app_nil_r;
    (split; [reflexivity|apply P_nil]).
Qed.

Section Connection.

Hypothesis P_request : forall url body, P [EvRequest url body].
Hypothesis P_sleep : forall ms, P [EvSleep ms].

Lemma emits_fetch url body signal : emits P (fetch env url body signal).
Proof.
  unfold fetch.
  apply (emits_if (fun w => signal && aborted env w)); [apply emits_throw|].
  apply emits_bind; [apply emits_emit, P_request|]. intros _.
  apply emits_bind; [apply emits_same; reflexivity|]. intros n.
  apply emits_bind; [apply emits_tick, P_abort|]. intros _.
  apply (emits_if (fun w => signal && aborted env w)); [apply emits_throw|].
  destruct (env_fetch env n); [apply emits_throw|apply emits_ret].
Qed.

Lemma emits_sleep ms : emits P (sleep env ms).
Proof.
  unfold sleep. apply emits_bind; [apply emits_emit, P_sleep|]. intros _.
  apply emits_tick, P_abort.
Qed.

Lemma emits_speech_attempt text voiceName apiKey attempt retries :
  emits P (speech_attempt env text voiceName apiKey attempt retries).
Proof.
  unfold speech_attempt.
  apply emits_bind; [apply emits_logger|]. intros _.
  apply emits_bind; [apply emits_Date_now|]. intros startTime.
  apply emits_bind; [apply emits_fetch|]. intros response.
  apply emits_bind; [apply emits_Date_now|]. intros now. cbv zeta.
  destruct (negb (ok response)).
  - apply emits_bind; [apply emits_read_body|]. intros errorText.
    destruct (500 <=? status response)%nat; [apply emits_throw|].
    apply emits_bind; [apply emits_logger|]. intros _. apply emits_throw.
  - apply emits_bind.
    { unfold response_json. apply emits_bind; [apply emits_read_body|].
      intros t. destruct (JSON_parse t); [apply emits_ret|apply emits_throw]. }
    intros data.
    apply emits_bind; [apply emits_logger|]. intros _.
    destruct (negb (truthy (audio_path (Some data)))).
    + apply emits_bind; [apply emits_logger|]. intros _. apply emits_throw.
    + apply emits_bind; [apply emits_Buffer_from|]. intros pcm.
      apply emits_bind; [apply emits_logger|]. intros _. apply emits_ret.
Qed.

Lemma emits_speech_loop text voiceName apiKey retries :
  forall fuel attempt lastError,
    emits P (speech_loop env fuel text voiceName apiKey retries attempt lastError).
Proof.
  induction fuel as [|fuel IH]; intros attempt lastError; cbn [speech_loop];
    destruct (attempt <=? retries)%nat; try apply emits_throw.
  apply emits_try_catch; [apply emits_speech_attempt|]. intros error.
  apply emits_bind; [|intros _; apply IH].
  unfold speech_catch.
  apply emits_bind; [apply emits_message_of|]. intros message.
  apply emits_bind; [apply emits_logger|]. intros _.
  destruct (attempt <? retries)%nat; [|apply emits_ret].
  apply emits_bind; [apply emits_logger|]. intros _. apply emits_sleep.
Qed.

Lemma emits_generateSpeech text voiceName apiKey retries :
  emits P (generateSpeech env text voiceName apiKey retries).
Proof.
  unfold generateSpeech. destruct (negb (key_truthy apiKey));
    [apply emits_throw|apply emits_speech_loop].
Qed.

Lemma emits_stream_attempt text voiceName apiKey signal attempt retries :
  emits P (stream_attempt env text voiceName apiKey signal attempt retries).
Proof.
  unfold stream_attempt.
  apply emits_bind; [apply emits_logger|]. intros _.
  apply emits_bind; [apply emits_fetch|]. intros response.
  destruct (negb (ok response)); [|apply emits_ret].
  apply emits_bind; [apply emits_read_body|]. intros errorText.
  destruct (500 <=? status response)%nat; [apply emits_throw|].
  apply emits_bind; [apply emits_logger|]. intros _. apply emits_throw.
Qed.

Lemma emits_connect_loop text voiceName apiKey signal retries :
  forall fuel attempt,
    emits P (connect_loop env fuel text voiceName apiKey signal retries attempt).
Proof.
  induction fuel as [|fuel IH]; intros attempt; cbn [connect_loop];
    destruct (attempt <=? retries)%nat; try apply emits_ret.
  apply emits_try_catch.
  { apply emits_bind; [apply emits_stream_attempt|]. intros r. apply emits_ret. }
  intros error. cbv zeta.
  apply emits_bind.
  { unfold is_cancel. destruct error; [|apply emits_throw].
    apply emits_same. reflexivity. }
  intros cancelled. destruct cancelled; [apply emits_throw|].
  apply emits_bind; [apply emits_message_of|]. intros message.
  apply emits_bind; [apply emits_logger|]. intros _.
  destruct (attempt <? retries)%nat; [|apply emits_throw].
  apply emits_bind; [apply emits_logger|]. intros _.
  apply emits_bind; [apply emits_sleep|]. intros _. apply IH.
Qed.

End Connection.

Section Body.

Variable onChunk : Sink.
Hypothesis P_read : forall value, P [EvRead value].
Hypothesis P_deliver :
  forall pcm n, P ([EvChunk pcm] ++ abort_mark env n ++ [EvChunkSettled]).

Lemma emits_processLine line : emits P (processLine env onChunk line).
Proof.
  intros w.
  destruct (processLine_shape env onChunk line w)
    as (w' & E & [[_ [->| ->]]|(pcm & logs & _ & -> & Hl)]); rewrite E; cbn [snd].
  - exists []. rewrite app_nil_r. split; [reflexivity|apply P_nil].
  - eexists. split; [reflexivity|]. apply P_log.
  - exists (([EvChunk pcm] ++ abort_mark env (S (ticks w)) ++ [EvChunkSettled]) ++ logs).
    split.
    + unfold delivered. cbn [trace]. rewrite <- !app_assoc. reflexivity.
    + apply P_app; [apply P_deliver|].
      destruct Hl as [[-> _]|[-> _]]; [apply P_nil|apply P_log].
Qed.

Lemma emits_process_lines lines : emits P (process_lines env onChunk lines).
Proof.
  induction lines as [|line rest IH]; cbn [process_lines]; [apply emits_ret|].
  apply emits_bind; [apply emits_processLine|]. intros _.
  apply emits_bind; [apply emits_tick, P_abort|]. intros _. apply IH.
Qed.

Lemma emits_reader_read signal ending next :
  emits P (reader_read env signal ending next).
Proof.
  unfold reader_read. apply emits_bind; [apply emits_tick, P_abort|]. intros _.
  apply (emits_if (fun w => signal && aborted env w)); [apply emits_throw|].
  destruct next as [value|]; [|destruct ending].
  - apply emits_bind; [apply emits_emit, P_read|]. intros _. apply emits_ret.
  - apply emits_throw.
  - apply emits_bind; [apply emits_emit, P_read|]. intros _. apply emits_ret.
Qed.

Lemma emits_read_loop signal ending :
  forall pending decoder buffer,
    emits P (read_loop env onChunk signal ending pending decoder buffer).
Proof.
  induction pending as [|value rest IH]; intros decoder buffer; cbn [read_loop].
  - apply emits_bind; [apply emits_reader_read|]. intros _. apply emits_ret.
  - apply emits_bind; [apply emits_reader_read|]. intros _.
    destruct (decode_stream decoder value) as [text decoder']. cbv zeta.
    apply emits_bind; [apply emits_process_lines|]. intros _. apply IH.
Qed.

(** The try block of the body phase. *)
Lemma emits_consume signal response :
  emits P
    (buffer <- read_loop env onChunk signal (body_error response)
                 (body_pushes response) new_TextDecoder [] ;;
     if JsString.nonempty (trim buffer)
     then processLine env onChunk (trim buffer) ;; tick env
     else ret tt).
Proof.
  apply emits_bind; [apply emits_read_loop|]. intros buffer.
  destruct (JsString.nonempty (trim buffer)); [|apply emits_ret].
  apply emits_bind; [apply emits_processLine|]. intros _.
  apply emits_tick, P_abort.
Qed.

Hypothesis P_get : P [EvGetReader].
Hypothesis P_release : P [EvReleaseLock].

Lemma emits_stream_body text voiceName signal response :
  emits P (stream_body env text voiceName onChunk signal response).
Proof.
  unfold stream_body.
  apply emits_bind; [apply emits_Date_now|]. intros startTime.
  destruct response as [response|]; [|apply emits_throw].
  apply emits_bind; [apply emits_emit, P_get|]. intros _.
  apply emits_bind; [apply emits_same; reflexivity|]. intros _.
  apply emits_bind.
  { apply emits_try_finally; [apply emits_consume|apply emits_emit, P_release]. }
  intros _.
  apply emits_bind; [apply emits_Date_now|]. intros now. cbv zeta.
  apply emits_bind; [apply emits_same; reflexivity|]. intros total.
  apply emits_logger.
Qed.

Hypothesis P_request : forall url body, P [EvRequest url body].
Hypothesis P_sleep : forall ms, P [EvSleep ms].

Lemma emits_generateSpeechStream text voiceName apiKey signal retries :
  emits P (generateSpeechStream env text voiceName apiKey onChunk signal retries).
Proof.
  unfold generateSpeechStream.
  destruct (negb (key_truthy apiKey)); [apply emits_throw|].
  apply emits_bind; [apply emits_connect_loop; assumption|].
  intros response. apply emits_stream_body.
Qed.

End Body.

End EmitsRules.

(** ** Which response the body phase consumes *)

Section Connected.

Variable env : Env.
Variables text voiceName : jstr.
Variable apiKey : option jstr.
Variable signal : bool.

(** An attempt only returns a response the provider gave, with a 2xx
    status. *)
Lemma stream_attempt_response attempt retries w r w' :
  stream_attempt env text voiceName apiKey signal attempt retries w = (Ret r, w') ->
  exists n, env_fetch env n = FetchResolves r /\ ok r = true.
Proof.
  unfold stream_attempt, logger, fetch, emit, next_request, tick, bind. simpl.
  match goal with |- context [aborted env ?t] => destruct (signal && aborted env t) end;
    [discriminate|].
  match goal with |- context [aborted env ?t] => destruct (signal && aborted env t) end;
    [discriminate|].
  destruct (env_fetch env (requests w)) as [e|r0] eqn:E; [discriminate|].
  destruct (ok r0) eqn:Hok; simpl.
  - intros H. inversion H. subst. eexists. split; eassumption.
  - unfold response_text, read_body, tick, bind. simpl.
    match goal with |- context [aborted env ?t] => destruct (signal && aborted env t) end;
      [discriminate|].
    destruct (body_error r0); [discriminate|].
    destruct (500 <=? status r0)%nat; discriminate.
Qed.

Lemma connect_loop_response retries :
  forall fuel attempt w r w',
    connect_loop env fuel text voiceName apiKey signal retries attempt w
    = (Ret (Some r), w') ->
    exists n, env_fetch env n = FetchResolves r /\ ok r = true.
Proof.
  induction fuel as [|fuel IH]; intros attempt w r w'; cbn [connect_loop];
    destruct (attempt <=? retries)%nat; try discriminate.
  unfold try_catch. unfold bind at 1.
  destruct (stream_attempt env text voiceName apiKey signal attempt retries w)
    as [[r1|error] w1] eqn:E1.
  - intros H. inversion H. subst. eapply stream_attempt_response. eassumption.
  - unfold is_cancel. destruct error as [e|]; [|discriminate].
    unfold bind at 1.
    destruct (jstr_eqb (err_name e) (lit "AbortError") || signal && aborted env w1);
      [discriminate|].
    unfold message_of, logger, emit. unfold bind at 1, ret. unfold bind at 1.
    destruct (attempt <? retries)%nat; [|discriminate].
    cbv zeta. unfold sleep, emit, tick, bind. cbv beta iota. apply IH.
Qed.

End Connected.

(** ** Ordered, one-at-a-time delivery *)

Lemma backpressure_app (a b : list Event) :
  forall st,
    backpressure st (a ++ b)
    = match backpressure st a with
      | Some st' => backpressure st' b
      | None => None
      end.
Proof.
  induction a as [|e a IH]; intros st; [reflexivity|].
  destruct e; cbn [app backpressure]; try apply IH;
    destruct st; try reflexivity; apply IH.
Qed.

Lemma no_chunks_app (a b : list Event) :
  chunks a = [] -> chunks b = [] -> chunks (a ++ b) = [].
Proof. intros Ha Hb. rewrite chunks_app, Ha, Hb. reflexivity. Qed.

Lemma chunk_of_line_at_most_one env line :
  (length (chunk_of_line env line) <= 1)%nat.
Proof.
  unfold chunk_of_line.
  destruct (startsWith (lit "data: ") line); [|simpl; lia]. cbv zeta.
  destruct (jstr_eqb (trim (slice 6 line)) (lit "[DONE]")); [simpl; lia|].
  destruct (JSON_parse (trim (slice 6 line))) as [data|]; [|simpl; lia].
  destruct (audio_of env data); simpl; lia.
Qed.

(** C8. Each line gives at most one chunk. The chunks a body phase hands
    to the sink are, in order, those of the lines of the body in the order
    of its bytes: an initial segment of them in general, all of them when
    the body ends normally and no cancellation interferes. So the chunks
    of a whole call are an initial segment of those of the body of a 2xx
    response the provider gave. And in every run of generateSpeechStream
    each chunk handed to the sink settles before anything more is read and
    before the next chunk is handed over. *)
Theorem ordered_delivery_with_backpressure :
  forall env text voiceName apiKey onChunk signal retries,
    (forall line, (length (chunk_of_line env line) <= 1)%nat)
    /\ (forall response w,
        exists emitted,
          chunks (trace (snd (stream_body env text voiceName onChunk signal
                                (Some response) w)))
          = chunks (trace w) ++ emitted
          /\ prefix_of emitted
               (flat_map (chunk_of_line env)
                  (dispatched (utf8_decode (concat (body_pushes response)))))
          /\ (cancellable env signal = false ->
              body_error response = None ->
              emitted
              = flat_map (chunk_of_line env)
                  (dispatched (utf8_decode (concat (body_pushes response))))))
    /\ (let out := run (generateSpeechStream env text voiceName apiKey
                          onChunk signal retries) in
        chunks (trace (snd out)) = []
        \/ exists n r,
             env_fetch env n = FetchResolves r /\ ok r = true
             /\ prefix_of (chunks (trace (snd out)))
                  (flat_map (chunk_of_line env)
                     (dispatched (utf8_decode (concat (body_pushes r))))))
    /\ backpressure false
         (trace (snd (run (generateSpeechStream env text voiceName apiKey
                             onChunk signal retries))))
       = Some false.
Proof.
  intros env text voiceName apiKey onChunk signal retries.
  split; [apply chunk_of_line_at_most_one|]. split; [|split].
  2:{ cbv zeta. unfold run, generateSpeechStream.
      destruct (negb (key_truthy apiKey)); [left; reflexivity|].
      unfold bind.
      destruct (emits_connect_loop env (fun evs => chunks evs = [])
                  eq_refl no_chunks_app (fun _ _ _ => eq_refl) eq_refl
                  (fun _ _ => eq_refl) (fun _ => eq_refl)
                  text voiceName apiKey signal retries retries 1%nat
                  initial_world)
        as (evs & E & HP).
      destruct (connect_loop env retries text voiceName apiKey signal retries 1
                  initial_world) as [[response|e] w1] eqn:EC; cbn [snd] in E.
      - destruct response as [r|].
        + right.
          destruct (connect_loop_response env text voiceName apiKey signal
                      retries retries 1%nat initial_world r w1 EC)
            as (n & Hn & Hok).
          exists n, r. split; [assumption|]. split; [assumption|].
          destruct (stream_body_effect env text voiceName onChunk signal r w1)
            as (o & w2 & emitted & E2 & C2 & Pf & _).
          rewrite E2. cbn [snd]. rewrite C2, E. cbn [trace initial_world app].
          rewrite HP. exact Pf.
        + left. unfold stream_body, Date_now, bind, throw. cbn [snd trace].
          rewrite E. exact HP.
      - left. cbn [snd]. rewrite E. exact HP. }
  - intros response w.
    destruct (stream_body_effect env text voiceName onChunk signal response w)
      as (r & w' & emitted & E & C & Pf & _ & _ & N).
    exists emitted. rewrite E. cbn [snd]. split; [exact C|]. split; [exact Pf|].
    intros Hc Hb. specialize (N Hc). rewrite Hb in N. apply N.
  - destruct (emits_generateSpeechStream env
                (fun evs => backpressure false evs = Some false))
      with (onChunk := onChunk) (text := text) (voiceName := voiceName)
           (apiKey := apiKey) (signal := signal) (retries := retries)
           (w := initial_world)
      as (evs & E & HP); try reflexivity.
    + intros a b Ha Hb. rewrite backpressure_app, Ha. exact Hb.
    + intros pcm n. unfold abort_mark.
      destruct (caller_aborts_at env); [destruct (_ =? _)%nat|]; reflexivity.
    + unfold run. rewrite E. exact HP.
Qed.

Lemma ordered_delivery_with_backpressure_witness :
  let env := constant_env (FetchRejects AbortError) None in
  let response := mk_response 200 [hello_frame ++ [10]; hello_frame] None in
  cancellable env true = false
  /\ exists emitted,
       chunks (trace (snd (stream_body env (lit "hi") (lit "Kore") sink_resolves
                             true (Some response) initial_world)))
       = [] ++ emitted
       /\ prefix_of emitted [lit "Hello"; lit "Hello"]
       /\ (cancellable env true = false -> body_error response = None ->
           emitted = [lit "Hello"; lit "Hello"]).
Proof.
  cbv zeta. split; [reflexivity|].
  exact (proj1 (proj2 (ordered_delivery_with_backpressure
                         (constant_env (FetchRejects AbortError) None)
                         (lit "hi") (lit "Kore") (Some (lit "key"))
                         sink_resolves true 3%nat))
           (mk_response 200 [hello_frame ++ [10]; hello_frame] None)
           initial_world).
Defined.

(** ** Cancellation *)

Lemma monitor_app (a b : list Event) :
  forall p,
    monitor p (a ++ b)
    = match monitor p a with
      | Some p' => monitor p' b
      | None => None
      end.
Proof.
  induction a as [|e a IH]; intros p; [reflexivity|].
  cbn [app monitor]. destruct (step p e); [apply IH|reflexivity].
Qed.

Lemma monitor_app_some (a b : list Event) p q :
  monitor p a = Some q -> monitor p (a ++ b) = monitor q b.
Proof. intros H. rewrite monitor_app, H. reflexivity. Qed.

Lemma reads_app (a b : list Event) : reads (a ++ b) = reads a ++ reads b.
Proof.
  induction a as [|e a IH]; simpl; [reflexivity|].
  destruct e; simpl; rewrite IH; reflexivity.
Qed.

Lemma reader_events_app (a b : list Event) :
  reader_events (a ++ b) = reader_events a ++ reader_events b.
Proof.
  induction a as [|e a IH]; simpl; [reflexivity|].
  destruct e; simpl; rewrite IH; reflexivity.
Qed.

(** Once a call is cancelled or finished, an accepted trace holds no
    request and no read. *)
Lemma monitor_stopped (tr : list Event) :
  forall p q,
    p <> Running ->
    monitor p tr = Some q ->
    q = p /\ sent tr = 0%nat /\ reads tr = [].
Proof.
  induction tr as [|e tr IH]; intros p q Hp H.
  - inversion H. repeat split.
  - cbn [monitor] in H. destruct (step p e) as [p'|] eqn:Es; [|discriminate].
    assert (p' = p /\ sent [e] = 0%nat /\ reads [e] = []) as (-> & Hs & Hr).
    { destruct e as [| | | |[v|]| | | |]; destruct p; simpl in Es;
        try congruence; inversion Es; repeat split. }
    destruct (IH p q Hp H) as (-> & Hs' & Hr').
    change (e :: tr) with ([e] ++ tr). rewrite sent_app, reads_app, Hs, Hs', Hr, Hr'.
    repeat split.
Qed.

(** What an accepted trace says about the events after a cancellation. *)
Lemma monitor_after_abort (pre post : list Event) :
  forall p q,
    monitor p (pre ++ EvAbort :: post) = Some q ->
    sent post = 0%nat /\ reads post = []
    /\ (p <> Finished -> ~ In (EvRead None) pre -> q = Cancelled).
Proof.
  induction pre as [|e pre IH]; intros p q H.
  - cbn [app monitor step] in H.
    destruct p;
      (match type of H with monitor ?s _ = _ =>
         destruct (monitor_stopped post s q) as (-> & Hs & Hr);
         [discriminate|assumption|] end);
      (split; [assumption|split; [assumption|intros; congruence]]).
  - cbn [app monitor] in H. destruct (step p e) as [p'|] eqn:Es; [|discriminate].
    destruct (IH p' q H) as (Hs & Hr & Hq).
    split; [assumption|]. split; [assumption|].
    intros Hp Hn. apply Hq.
    + destruct e as [| | | |[v|]| | | |]; destruct p; simpl in Es;
        try congruence; inversion Es; try discriminate.
      exfalso. apply Hn. left. reflexivity.
    + intros Hin. apply Hn. right. assumption.
Qed.

Section Cancellation.

Variable env : Env.
Variable onChunk : Sink.

Lemma advanced_refl p : advanced p p.
Proof. left. reflexivity. Qed.

Lemma advanced_trans p q r : advanced p q -> advanced q r -> advanced p r.
Proof.
  intros [->|[-> ->]] [->|[-> ->]]; try (left; reflexivity);
    try (right; split; reflexivity).
Qed.

Lemma advanced_not_finished p p' : advanced p p' -> p <> Finished -> p' <> Finished.
Proof. intros [->|[-> ->]] H; [assumption|discriminate]. Qed.

Lemma advanced_finished p' : advanced Finished p' -> p' = Finished.
Proof. intros [->|[H _]]; [reflexivity|discriminate]. Qed.

Lemma not_aborted_not_cancelled w p :
  MonInv env w p -> aborted env w = false -> p <> Cancelled.
Proof. intros [_ H] Ha Hp. rewrite (H Hp) in Ha. discriminate. Qed.

Lemma neutral_nil : neutral [].
Proof. intros p. reflexivity. Qed.

Lemma neutral_app a b : neutral a -> neutral b -> neutral (a ++ b).
Proof. intros Ha Hb p. rewrite monitor_app, Ha. apply Hb. Qed.

(** The world moves on without a suspension. *)
Lemma monitor_neutral a b p : neutral a -> monitor p (a ++ b) = monitor p b.
Proof. intros H. apply monitor_app_some, H. Qed.

Lemma MonInv_neutral w p evs w' :
  MonInv env w p -> neutral evs ->
  trace w' = trace w ++ evs -> ticks w' = ticks w ->
  MonInv env w' p.
Proof.
  intros [Hm Ha] Hn Et Ek. split.
  - rewrite Et, (monitor_app_some _ _ _ _ Hm). apply Hn.
  - intros Hp. unfold aborted in *. rewrite Ek. apply Ha. assumption.
Qed.

(** The world moves on through one suspension. *)
Lemma MonInv_suspended w p before after w' :
  MonInv env w p -> neutral before -> neutral after ->
  trace w' = trace w ++ before ++ abort_mark env (S (ticks w)) ++ after ->
  ticks w' = S (ticks w) ->
  exists p',
    MonInv env w' p' /\ advanced p p' /\ (aborted env w' = false -> p' = p).
Proof.
  intros [Hm Ha] Hb Hf Et Ek.
  unfold abort_mark in Et. unfold MonInv, aborted in *. rewrite Ek.
  destruct (caller_aborts_at env) as [t|].
  - destruct (t =? S (ticks w))%nat eqn:Ht.
    + apply Nat.eqb_eq in Ht.
      exists (match p with Running => Cancelled | _ => p end).
      split; [split|split].
      * rewrite Et, (monitor_app_some _ _ _ _ Hm), (monitor_neutral _ _ _ Hb).
        cbn [app monitor step]. apply Hf.
      * intros _. apply Nat.leb_le. lia.
      * destruct p; [right; split; reflexivity|left; reflexivity|left; reflexivity].
      * intros Hn. apply Nat.leb_gt in Hn. lia.
    + exists p. split; [split|split].
      * rewrite Et, (monitor_app_some _ _ _ _ Hm), (monitor_neutral _ _ _ Hb).
        cbn [app]. apply Hf.
      * intros Hp. specialize (Ha Hp). apply Nat.leb_le in Ha. apply Nat.leb_le. lia.
      * apply advanced_refl.
      * reflexivity.
  - exists p. split; [split|split].
    + rewrite Et, (monitor_app_some _ _ _ _ Hm), (monitor_neutral _ _ _ Hb).
      cbn [app]. apply Hf.
    + intros Hp. specialize (Ha Hp). discriminate.
    + apply advanced_refl.
    + reflexivity.
Qed.

Lemma neutral_log l message data : neutral [EvLog l message data].
Proof. intros p. reflexivity. Qed.

Lemma neutral_sleep ms : neutral [EvSleep ms].
Proof. intros p. reflexivity. Qed.

Lemma neutral_chunk pcm : neutral [EvChunk pcm].
Proof. intros p. reflexivity. Qed.

Lemma neutral_settled : neutral [EvChunkSettled].
Proof. intros p. reflexivity. Qed.


Lemma aborted_same_ticks w w' : ticks w' = ticks w -> aborted env w' = aborted env w.
Proof. unfold aborted. intros ->. reflexivity. Qed.

Lemma MonInv_same w p w' :
  MonInv env w p -> trace w' = trace w -> ticks w' = ticks w -> MonInv env w' p.
Proof.
  intros H Et Ek. apply (MonInv_neutral w p [] w' H neutral_nil); [|assumption].
  rewrite app_nil_r. assumption.
Qed.

(** A running call sends a request or reads a push. *)
Lemma MonInv_running w e w' p' :
  MonInv env w Running -> step Running e = Some p' -> p' <> Cancelled ->
  trace w' = trace w ++ [e] -> ticks w' = ticks w ->
  MonInv env w' p'.
Proof.
  intros [Hm _] Hs Hp Et Ek. split.
  - rewrite Et, (monitor_app_some _ _ _ _ Hm). cbn [monitor]. rewrite Hs. reflexivity.
  - intros ->. congruence.
Qed.

Lemma running_of w p : MonInv env w p -> p <> Finished -> aborted env w = false -> p = Running.
Proof.
  intros H Hf Ha. pose proof (not_aborted_not_cancelled w p H Ha).
  destruct p; congruence.
Qed.

Lemma guarded_bind {A B} (m : M A) (k : A -> M B) :
  guarded env m -> (forall a, guarded env (k a)) -> guarded env (bind m k).
Proof.
  intros Hm Hk w p HI Hf Ha. unfold bind.
  destruct (Hm w p HI Hf Ha) as (p1 & HI1 & Hadv & Hthrow).
  destruct (m w) as [r w1]. cbn [fst snd] in *.
  destruct (aborted env w1) eqn:A1.
  - rewrite (Hthrow eq_refl). cbn [fst snd]. exists p1. rewrite A1.
    split; [assumption|split; [assumption|reflexivity]].
  - assert (p1 = p) as ->.
    { destruct Hadv as [->|[_ ->]]; [reflexivity|].
      exfalso. exact (not_aborted_not_cancelled w1 Cancelled HI1 A1 eq_refl). }
    destruct r as [a|e].
    + apply Hk; assumption.
    + cbn [fst snd]. exists p. rewrite A1.
      split; [assumption|split; [apply advanced_refl|discriminate]].
Qed.

Lemma guarded_quiet {A} (m : M A) :
  (forall w, exists evs, neutral evs /\ trace (snd (m w)) = trace w ++ evs
                         /\ ticks (snd (m w)) = ticks w) ->
  guarded env m.
Proof.
  intros H w p HI Hf Ha. destruct (H w) as (evs & Hn & Et & Ek).
  exists p. split; [eapply MonInv_neutral; eassumption|].
  split; [apply advanced_refl|].
  rewrite (aborted_same_ticks w _ Ek), Ha. discriminate.
Qed.

Lemma guarded_ret {A} (a : A) : guarded env (ret a).
Proof.
  apply guarded_quiet. intros w. exists []. rewrite app_nil_r.
  split; [apply neutral_nil|split; reflexivity].
Qed.

Lemma guarded_throw {A} e : guarded env (@throw A e).
Proof.
  apply guarded_quiet. intros w. exists []. rewrite app_nil_r.
  split; [apply neutral_nil|split; reflexivity].
Qed.

Lemma guarded_logger l message data : guarded env (logger l message data).
Proof.
  apply guarded_quiet. intros w. exists [EvLog l message data].
  split; [apply neutral_log|split; reflexivity].
Qed.

(** After a suspension the signal is looked at. *)
Lemma guarded_checkpoint {A} (m : M A) :
  guarded env m ->
  guarded env (tick env ;;
           fun w => if true && aborted env w
                    then (Throw (Some (abort_reason env)), w)
                    else m w).
Proof.
  intros Hm w p HI Hf Ha. unfold bind, tick. cbn [andb].
  match goal with |- context [aborted env ?w1] => set (w1' := w1) end.
  destruct (MonInv_suspended w p [] [] w1' HI neutral_nil neutral_nil)
    as (p1 & HI1 & Hadv & Hsame); [subst w1'; cbn [trace]; rewrite app_nil_r; reflexivity|reflexivity|].
  destruct (aborted env w1') eqn:A1.
  - cbn [fst snd]. exists p1. rewrite A1.
    split; [assumption|split; [assumption|reflexivity]].
  - rewrite (Hsame eq_refl) in HI1.
    destruct (Hm w1' p HI1 Hf A1) as (p2 & HI2 & Hadv2 & Ht2).
    exists p2. split; [assumption|split; [assumption|assumption]].
Qed.

Lemma guarded_read_body r : guarded env (read_body env true r).
Proof.
  unfold read_body. apply (guarded_checkpoint (fun w => match body_error r with
         | Some e => (Throw (Some e), w)
         | None => (Ret (utf8_decode (concat (body_pushes r))), w)
         end)).
  destruct (body_error r); [apply guarded_throw|apply guarded_ret].
Qed.

Lemma guarded_fetch url body : guarded env (fetch env url body true).
Proof.
  intros w p HI Hf Ha. unfold fetch. cbn [andb]. rewrite Ha.
  assert (p = Running) as -> by (eapply running_of; eassumption).
  unfold bind at 1, emit. unfold bind at 1, next_request. cbv beta iota.
  match goal with |- context [(tick env ;; ?k) ?w1] =>
    change k with (fun w' : World =>
         if true && aborted env w'
         then (Throw (Some (abort_reason env)), w')
         else (fun w'' => match env_fetch env (requests w) with
              | FetchRejects e => (@Throw Response (Some e), w'')
              | FetchResolves r => (Ret r, w'')
              end) w');
    apply (guarded_checkpoint (fun w'' => match env_fetch env (requests w) with
              | FetchRejects e => (@Throw Response (Some e), w'')
              | FetchResolves r => (Ret r, w'')
              end)) with (w := w1) (p := Running)
  end.
  - destruct (env_fetch env (requests w)); [apply guarded_throw|apply guarded_ret].
  - eapply (MonInv_running w (EvRequest url body)); try eassumption;
      try reflexivity. discriminate.
  - discriminate.
  - rewrite <- Ha. apply aborted_same_ticks. reflexivity.
Qed.

Variables text voiceName : jstr.
Variable apiKey : option jstr.

Lemma guarded_stream_attempt attempt retries :
  guarded env (stream_attempt env text voiceName apiKey true attempt retries).
Proof.
  unfold stream_attempt.
  apply guarded_bind; [apply guarded_logger|]. intros _.
  apply guarded_bind; [apply guarded_fetch|]. intros response.
  destruct (negb (ok response)); [|apply guarded_ret].
  apply guarded_bind; [apply guarded_read_body|]. intros errorText.
  destruct (500 <=? status response)%nat; [apply guarded_throw|].
  apply guarded_bind; [apply guarded_logger|]. intros _. apply guarded_throw.
Qed.

(** On an aborted signal an attempt throws the abort reason and sends
    nothing. *)
Lemma stream_attempt_aborted attempt retries w p :
  MonInv env w p -> aborted env w = true ->
  exists w',
    stream_attempt env text voiceName apiKey true attempt retries w
    = (Throw (Some (abort_reason env)), w')
    /\ MonInv env w' p /\ aborted env w' = true.
Proof.
  intros HI Ha. unfold stream_attempt, logger, emit, fetch.
  unfold bind at 1. cbv beta iota. unfold bind at 1.
  match goal with |- context [aborted env ?w1] => set (w1' := w1) end.
  assert (aborted env w1' = true) as A1
    by (rewrite <- Ha; apply aborted_same_ticks; reflexivity).
  rewrite A1. cbn [andb]. eexists. split; [reflexivity|]. split; [|assumption].
  eapply MonInv_neutral; [eassumption|apply (neutral_log debug)|reflexivity|reflexivity].
Qed.


(** The connection loop with the caller's signal: a cancelled call leaves
    the loop by throwing the abort reason. *)
Lemma connect_loop_cancel retries :
  forall fuel attempt w p,
    (retries + 1 <= attempt + fuel)%nat ->
    MonInv env w p -> p <> Finished ->
    (p = Cancelled -> attempt <= retries)%nat ->
    exists r w' p',
      connect_loop env fuel text voiceName apiKey true retries attempt w = (r, w')
      /\ MonInv env w' p' /\ p' <> Finished
      /\ (p' = Cancelled -> r = Throw (Some (abort_reason env))).
Proof.
  induction fuel as [|fuel IH]; intros attempt w p Hfuel HI Hf Hc.
  - cbn [connect_loop].
    replace (attempt <=? retries)%nat with false
      by (symmetry; apply Nat.leb_gt; lia).
    exists (Ret None), w, p. split; [reflexivity|]. split; [assumption|].
    split; [assumption|]. intros Hp. specialize (Hc Hp). lia.
  - cbn [connect_loop]. destruct (attempt <=? retries)%nat eqn:Hle.
    2:{ apply Nat.leb_gt in Hle.
        exists (Ret None), w, p. split; [reflexivity|]. split; [assumption|].
        split; [assumption|]. intros Hp. specialize (Hc Hp). lia. }
    apply Nat.leb_le in Hle. unfold try_catch. unfold bind at 1.
    destruct (aborted env w) eqn:Ha.
    + destruct (stream_attempt_aborted attempt retries w p HI Ha)
        as (w1 & E1 & HI1 & A1).
      rewrite E1. unfold is_cancel. unfold bind at 1. rewrite A1.
      cbn [andb]. rewrite orb_true_r.
      exists (Throw (Some (abort_reason env))), w1, p.
      split; [reflexivity|]. split; [assumption|]. split; [assumption|]. reflexivity.
    + destruct (guarded_stream_attempt attempt retries w p HI Hf Ha)
        as (p1 & HI1 & Hadv & Hthrow).
      destruct (stream_attempt env text voiceName apiKey true attempt retries w)
        as [r1 w1]. cbn [fst snd] in *.
      pose proof (advanced_not_finished _ _ Hadv Hf) as Hf1.
      destruct (aborted env w1) eqn:A1.
      * rewrite (Hthrow eq_refl). unfold is_cancel. unfold bind at 1. rewrite A1.
        cbn [andb]. rewrite orb_true_r.
        exists (Throw (Some (abort_reason env))), w1, p1.
        split; [reflexivity|]. split; [assumption|]. split; [assumption|]. reflexivity.
      * pose proof (not_aborted_not_cancelled w1 p1 HI1 A1) as Hn1.
        destruct r1 as [response|error].
        { exists (Ret (Some response)), w1, p1. split; [reflexivity|].
          split; [assumption|]. split; [assumption|]. intros; contradiction. }
        unfold is_cancel. destruct error as [e|].
        2:{ eexists _, w1, p1. split; [reflexivity|].
            split; [assumption|]. split; [assumption|]. intros; contradiction. }
        unfold bind at 1. rewrite A1. cbn [andb]. rewrite orb_false_r.
        destruct (jstr_eqb (err_name e) (lit "AbortError")).
        { eexists _, w1, p1. split; [reflexivity|].
          split; [assumption|]. split; [assumption|]. intros; contradiction. }
        unfold message_of, logger, emit. unfold bind at 1, ret. unfold bind at 1.
        destruct (attempt <? retries)%nat eqn:Hlt.
        2:{ eexists _, _, p1. split; [reflexivity|]. split.
            - eapply MonInv_neutral; [exact HI1|apply (neutral_log warn)|reflexivity|reflexivity].
            - split; [assumption|]. intros; contradiction. }
        apply Nat.ltb_lt in Hlt. cbv zeta.
        unfold sleep, emit, tick, bind. cbv beta iota.
        match goal with |- context [connect_loop _ _ _ _ _ _ _ _ ?w2] =>
          set (w2' := w2) end.
        destruct (MonInv_suspended w1 p1
                    ([EvLog warn (lit "Streaming attempt " ++ jstr_of_nat attempt
                                    ++ lit " failed: " ++ err_message e) NoData]
                     ++ [EvLog info (lit "Retrying stream in "
                                       ++ jstr_of_nat (attempt * 1000) ++ lit "ms...") NoData]
                     ++ [EvSleep (attempt * 1000)]) [] w2' HI1)
          as (p2 & HI2 & Hadv2 & _).
        { repeat apply neutral_app; first [apply neutral_log|apply neutral_sleep]. }
        { apply neutral_nil. }
        { subst w2'. cbn [trace ticks]. rewrite <- !app_assoc, app_nil_r. reflexivity. }
        { reflexivity. }
        destruct (IH (S attempt) w2' p2) as (r3 & w3 & p3 & E3 & HI3 & Hf3 & Hc3);
          [lia|assumption|eapply advanced_not_finished; eassumption|intros; lia|].
        rewrite E3. exists r3, w3, p3.
        split; [reflexivity|]. split; [assumption|]. split; assumption.
Qed.

(** processLine and the lines of a push go through, whatever the signal. *)
Lemma processLine_cancel line w p :
  MonInv env w p ->
  exists w' p',
    processLine env onChunk line w = (Ret tt, w')
    /\ MonInv env w' p' /\ advanced p p'.
Proof.
  intros HI.
  destruct (processLine_shape env onChunk line w)
    as (w' & E & [[_ [->| ->]]|(pcm & logs & _ & -> & Hl)]); rewrite E.
  - exists w, p. split; [reflexivity|]. split; [assumption|apply advanced_refl].
  - eexists _, p. split; [reflexivity|]. split; [|apply advanced_refl].
    eapply MonInv_neutral; [exact HI|apply (neutral_log debug)|reflexivity|reflexivity].
  - destruct (MonInv_suspended w p [EvChunk pcm] ([EvChunkSettled] ++ logs)
                (delivered env pcm logs w) HI) as (p' & HI' & Hadv & _).
    + apply neutral_chunk.
    + apply neutral_app; [apply neutral_settled|].
      destruct Hl as [[-> _]|[-> _]]; [apply neutral_nil|apply neutral_log].
    + reflexivity.
    + reflexivity.
    + exists (delivered env pcm logs w), p'. split; [reflexivity|]. split; assumption.
Qed.

Lemma process_lines_cancel (lines : list jstr) :
  forall w p,
    MonInv env w p ->
    exists w' p',
      process_lines env onChunk lines w = (Ret tt, w')
      /\ MonInv env w' p' /\ advanced p p'.
Proof.
  induction lines as [|line rest IH]; intros w p HI.
  - exists w, p. split; [reflexivity|]. split; [assumption|apply advanced_refl].
  - cbn [process_lines]. unfold bind at 1.
    destruct (processLine_cancel line w p HI) as (w1 & p1 & E1 & HI1 & Hadv1).
    rewrite E1. unfold bind at 1, tick.
    match goal with |- context [process_lines _ _ rest ?w2] => set (w2' := w2) end.
    destruct (MonInv_suspended w1 p1 [] [] w2' HI1 neutral_nil neutral_nil)
      as (p2 & HI2 & Hadv2 & _);
      [subst w2'; cbn [trace]; rewrite app_nil_r; reflexivity|reflexivity|].
    destruct (IH w2' p2 HI2) as (w3 & p3 & E3 & HI3 & Hadv3).
    exists w3, p3. split; [exact E3|]. split; [assumption|].
    eapply advanced_trans; [eassumption|]. eapply advanced_trans; eassumption.
Qed.

(** A read with the caller's signal. *)
Lemma reader_read_cancel ending next w p :
  MonInv env w p -> p <> Finished ->
  exists r w' p',
    reader_read env true ending next w = (r, w')
    /\ MonInv env w' p'
    /\ match r with
       | Ret (Some _) => p' = Running
       | Ret None => p' = Finished
       | Throw e =>
           p' <> Finished
           /\ (aborted env w' = true -> e = Some (abort_reason env))
       end.
Proof.
  intros HI Hf. unfold reader_read, tick. unfold bind at 1. cbn [andb].
  match goal with |- context [aborted env ?w1] => set (w1' := w1) end.
  destruct (MonInv_suspended w p [] [] w1' HI neutral_nil neutral_nil)
    as (p1 & HI1 & Hadv & Hsame);
    [subst w1'; cbn [trace]; rewrite app_nil_r; reflexivity|reflexivity|].
  pose proof (advanced_not_finished _ _ Hadv Hf) as Hf1.
  destruct (aborted env w1') eqn:A1.
  - exists (Throw (Some (abort_reason env))), w1', p1.
    split; [reflexivity|]. split; [assumption|]. split; [assumption|reflexivity].
  - assert (p1 = Running) as -> by (eapply running_of; eassumption).
    destruct next as [value|]; [|destruct ending as [e|]].
    + unfold emit, bind, ret. eexists _, _, Running. split; [reflexivity|].
      split; [|reflexivity].
      eapply (MonInv_running w1' (EvRead (Some value))); try eassumption;
        try reflexivity. discriminate.
    + exists (Throw (Some e)), w1', Running. split; [reflexivity|].
      split; [assumption|]. split; [discriminate|]. rewrite A1. discriminate.
    + unfold emit, bind, ret. eexists _, _, Finished. split; [reflexivity|].
      split; [|reflexivity].
      eapply (MonInv_running w1' (EvRead None)); try eassumption;
        try reflexivity. discriminate.
Qed.

(** The read loop with the caller's signal: it returns when it has read
    the end of the body, and otherwise throws; on an aborted signal what it
    throws is the abort reason. *)
Lemma read_loop_cancel ending (pending : list (list Z)) :
  forall decoder buffer w p,
    MonInv env w p -> p <> Finished ->
    exists r w' p',
      read_loop env onChunk true ending pending decoder buffer w = (r, w')
      /\ MonInv env w' p'
      /\ match r with
         | Ret _ => p' = Finished
         | Throw e =>
             p' <> Finished
             /\ (aborted env w' = true -> e = Some (abort_reason env))
         end.
Proof.
  induction pending as [|value rest IH]; intros decoder buffer w p HI Hf;
    cbn [read_loop]; unfold bind at 1.
  - destruct (reader_read_cancel ending None w p HI Hf)
      as (r1 & w1 & p1 & E1 & HI1 & Hr1).
    rewrite E1. destruct r1 as [[v|]|e].
    + eexists _, w1, p1. split; [reflexivity|]. split; [assumption|].
      (* a read that holds nothing cannot resolve with a push *)
      exfalso. clear - E1. unfold reader_read, tick, bind, emit, ret in E1.
      cbn [andb] in E1.
      match type of E1 with context [aborted env ?w1] =>
        destruct (aborted env w1) end; [discriminate|].
      destruct ending; discriminate.
    + eexists _, w1, p1. split; [reflexivity|]. split; assumption.
    + eexists _, w1, p1. split; [reflexivity|]. split; assumption.
  - destruct (reader_read_cancel ending (Some value) w p HI Hf)
      as (r1 & w1 & p1 & E1 & HI1 & Hr1).
    rewrite E1. destruct r1 as [[v|]|e].
    + subst p1.
      destruct (decode_stream decoder value) as [decoded decoder']. cbv zeta.
      unfold bind at 1.
      destruct (process_lines_cancel (removelast (split_nl (buffer ++ decoded))) w1
                  Running HI1) as (w2 & p2 & E2 & HI2 & Hadv2).
      rewrite E2.
      apply (IH _ _ w2 p2); [assumption|].
      eapply advanced_not_finished; [eassumption|discriminate].
    + exfalso. clear - E1. unfold reader_read, tick, bind, emit, ret in E1.
      cbn [andb] in E1.
      match type of E1 with context [aborted env ?w1] =>
        destruct (aborted env w1) end; discriminate.
    + eexists _, w1, p1. split; [reflexivity|]. split; assumption.
Qed.

(** The body phase with the caller's signal, entered by a running call. *)
Lemma stream_body_cancel response w :
  MonInv env w Running ->
  exists r w' p',
    stream_body env text voiceName onChunk true response w = (r, w')
    /\ MonInv env w' p'
    /\ (p' = Cancelled -> r = Throw (Some (abort_reason env))).
Proof.
  intros HI. unfold stream_body, Date_now. unfold bind at 1.
  match goal with |- context [match response with _ => _ end ?t] =>
    remember t as w0 eqn:Ew0 end.
  assert (MonInv env w0 Running) as HI0
    by (subst w0; eapply MonInv_same; [exact HI|reflexivity|reflexivity]).
  clear Ew0.
  destruct response as [response|].
  2:{ eexists _, w0, Running. split; [reflexivity|]. split; [assumption|discriminate]. }
  unfold emit, set_totalBytes. unfold bind at 1. unfold bind at 1.
  unfold bind at 1, try_finally. unfold bind at 1.
  match goal with |- context [read_loop _ _ _ _ _ _ _ ?t] =>
    remember t as w1 eqn:Ew1 end.
  assert (MonInv env w1 Running) as HI1
    by (subst w1; eapply (MonInv_neutral w0 Running [EvGetReader]);
        [exact HI0|intros q; reflexivity|reflexivity|reflexivity]).
  clear Ew1.
  destruct (read_loop_cancel (body_error response) (body_pushes response)
              new_TextDecoder [] w1 Running HI1)
    as (r2 & w2 & p2 & E2 & HI2 & Hr2); [discriminate|].
  rewrite E2. destruct r2 as [buffer|e].
  - subst p2.
    assert (exists w3,
               (if JsString.nonempty (trim buffer)
                then processLine env onChunk (trim buffer) ;; tick env
                else ret tt) w2 = (Ret tt, w3)
               /\ MonInv env w3 Finished) as (w3 & E3 & HI3).
    { destruct (JsString.nonempty (trim buffer)).
      - unfold bind.
        destruct (processLine_cancel (trim buffer) w2 Finished HI2)
          as (w3 & p3 & E3 & HI3 & Hadv3).
        rewrite E3. apply advanced_finished in Hadv3. subst p3.
        unfold tick. eexists. split; [reflexivity|].
        match goal with |- MonInv env ?w4 _ =>
          destruct (MonInv_suspended w3 Finished [] [] w4 HI3 neutral_nil neutral_nil)
            as (p4 & HI4 & Hadv4 & _);
            [cbn [trace]; rewrite app_nil_r; reflexivity|reflexivity|] end.
        apply advanced_finished in Hadv4. subst p4. assumption.
      - exists w2. split; [reflexivity|assumption]. }
    rewrite E3. cbv beta iota.
    unfold get_totalBytes, logger, emit, bind. cbv beta iota.
    eexists _, _, Finished. split; [reflexivity|]. split; [|discriminate].
    eapply (MonInv_neutral w3 Finished
              ([EvReleaseLock] ++ [EvLog info _ NoData]));
      [exact HI3| |cbn [trace]; rewrite <- app_assoc; reflexivity|reflexivity].
    intros q. reflexivity.
  - destruct Hr2 as [Hf2 Hreason]. cbv beta iota.
    eexists _, _, p2. split; [reflexivity|]. split.
    + eapply (MonInv_neutral w2 p2 [EvReleaseLock]);
        [exact HI2|intros q; reflexivity|reflexivity|reflexivity].
    + intros ->. destruct HI2 as [_ Hab]. rewrite (Hreason (Hab eq_refl)). reflexivity.
Qed.

(** A streaming call with the caller's signal: its trace is accepted, and
    a cancelled call throws the abort reason. *)
Lemma generateSpeechStream_cancel retries :
  exists p,
    monitor Running
      (trace (snd (run (generateSpeechStream env text voiceName apiKey onChunk
                          true retries)))) = Some p
    /\ (p = Cancelled ->
        fst (run (generateSpeechStream env text voiceName apiKey onChunk
                    true retries)) = Throw (Some (abort_reason env))).
Proof.
  unfold run, generateSpeechStream.
  assert (MonInv env initial_world Running) as HI0 by (split; [reflexivity|discriminate]).
  destruct (negb (key_truthy apiKey)).
  { exists Running. split; [reflexivity|discriminate]. }
  unfold bind.
  destruct (connect_loop_cancel retries retries 1 initial_world Running)
    as (r1 & w1 & p1 & E1 & HI1 & Hf1 & Hc1);
    [lia|assumption|discriminate|discriminate|].
  rewrite E1. destruct r1 as [response|e].
  - assert (p1 = Running) as ->.
    { destruct p1; [reflexivity| |congruence]. specialize (Hc1 eq_refl). discriminate. }
    destruct (stream_body_cancel response w1 HI1) as (r2 & w2 & p2 & E2 & HI2 & Hc2).
    rewrite E2. exists p2. split; [apply HI2|exact Hc2].
  - exists p1. split; [apply HI1|]. intros Hp. specialize (Hc1 Hp).
    inversion Hc1. reflexivity.
Qed.

End Cancellation.

(** ** The reader is released *)

Lemma reader_events_abort_mark env n : reader_events (abort_mark env n) = [].
Proof.
  unfold abort_mark. destruct (caller_aborts_at env); [destruct (_ =? _)%nat|];
    reflexivity.
Qed.

Lemma no_reader_app (a b : list Event) :
  reader_events a = [] -> reader_events b = [] -> reader_events (a ++ b) = [].
Proof. intros Ha Hb. rewrite reader_events_app, Ha, Hb. reflexivity. Qed.

Lemma no_reader_deliver env pcm n :
  reader_events ([EvChunk pcm] ++ abort_mark env n ++ [EvChunkSettled]) = [].
Proof.
  rewrite !reader_events_app, reader_events_abort_mark. reflexivity.
Qed.

(** The body phase acquires the reader once and releases it once,
    whichever way it ends. *)
Lemma stream_body_reader env text voiceName onChunk signal response w :
  reader_events
    (trace (snd (stream_body env text voiceName onChunk signal response w)))
  = reader_events (trace w)
    ++ match response with Some _ => [true; false] | None => [] end.
Proof.
  pose proof (fun r => emits_consume env (fun evs => reader_events evs = [])
                eq_refl no_reader_app (fun _ _ _ => eq_refl) eq_refl onChunk
                (fun _ => eq_refl) (no_reader_deliver env) signal r) as HC.
  unfold stream_body, Date_now. unfold bind at 1. cbv beta iota.
  destruct response as [response|];
    [|cbn [throw snd trace]; rewrite app_nil_r; reflexivity].
  specialize (HC response).
  unfold emit, set_totalBytes. unfold bind at 1. unfold bind at 1.
  unfold bind at 1. cbv beta iota. unfold try_finally.
  match goal with |- context [let (_, _) := ?mm ?ww in _] =>
    destruct (HC ww) as (evs & E & HP); revert E;
    destruct (mm ww) as [r w2]; intros E
  end.
  cbn [snd trace] in E.
  destruct r as [u|e]; cbn [snd fst];
    unfold get_totalBytes, logger, emit, bind; cbn [snd trace];
    rewrite ?reader_events_app, E, !reader_events_app, HP; cbn [reader_events];
    rewrite ?app_nil_r, <- ?app_assoc; reflexivity.
Qed.

(** Every streaming call leaves the reader either never acquired or
    acquired once and then released. *)
Lemma generateSpeechStream_reader env text voiceName apiKey onChunk signal retries :
  let tr := trace (snd (run (generateSpeechStream env text voiceName apiKey
                               onChunk signal retries))) in
  reader_events tr = [] \/ reader_events tr = [true; false].
Proof.
  cbv zeta. unfold run, generateSpeechStream.
  destruct (negb (key_truthy apiKey)); [left; reflexivity|].
  unfold bind.
  destruct (emits_connect_loop env (fun evs => reader_events evs = [])
              eq_refl no_reader_app (fun _ _ _ => eq_refl) eq_refl
              (fun _ _ => eq_refl) (fun _ => eq_refl)
              text voiceName apiKey signal retries retries 1%nat initial_world)
    as (evs & E & HP).
  destruct (connect_loop env retries text voiceName apiKey signal retries 1
              initial_world) as [[response|e] w1]; cbn [snd] in E.
  - rewrite stream_body_reader, E. cbn [trace initial_world app]. rewrite HP.
    destruct response; [right|left]; reflexivity.
  - cbn [snd]. rewrite E. left. exact HP.
Qed.

(** ** Cancellation: what the code guarantees *)

(** C3 does not hold as stated. The provider answers with a body whose
    single push holds two "Hello" frames, and the caller's controller fires
    while the first chunk is with the sink (the third suspension of the
    call: after the request and the read). The second chunk is handed to
    the sink all the same, after the cancellation. *)
Lemma cancellation_counterexample :
  ~ cancel_guarantee AbortError
      (run (generateSpeechStream (two_frames_env (Some 3%nat)) (lit "hi")
              (lit "Kore") (Some (lit "key")) sink_resolves true 3)).
Proof.
  intros H.
  match type of H with cancel_guarantee _ ?out =>
    destruct (H (before_abort (trace (snd out))) (after_abort (trace (snd out))))
      as (_ & Hchunks & _)
  end.
  - vm_compute. reflexivity.
  - vm_compute in Hchunks. discriminate.
Qed.

(** While the client backs off, a cancellation does not end the delay and
    does not stop the loop: the next attempt is announced and calls fetch,
    which rejects with the abort reason without sending anything. *)
Example cancel_during_backoff :
  let env := constant_env (FetchResolves (mk_response 500 [lit "overloaded"] None))
               (Some 3%nat) in
  let out := run (generateSpeechStream env (lit "hi") (lit "Kore")
                    (Some (lit "key")) sink_resolves true 3) in
  fst out = Throw (Some AbortError)
  /\ sent (trace (snd out)) = 1%nat
  /\ sleeps (before_abort (trace (snd out))) = [1000]%nat
  /\ logged debug (after_abort (trace (snd out)))
     = [lit "Sending streaming request to Gemini TTS API (Attempt 2/3)"].
Proof. vm_compute. repeat split; reflexivity. Qed.

(** C3, as the code has it. In a call of generateSpeechStream with the
    caller's signal, once the controller has fired no request is sent and
    nothing is read from the body any more; if it fired before the end of
    the body was read, the operation throws the abort reason; and the
    reader is either never acquired or acquired once and then released. *)
Theorem cancellation_stops_requests_and_reads :
  forall env text voiceName apiKey onChunk retries pre post,
    let out := run (generateSpeechStream env text voiceName apiKey onChunk
                      true retries) in
    trace (snd out) = pre ++ EvAbort :: post ->
    sent post = 0%nat
    /\ reads post = []
    /\ (~ In (EvRead None) pre -> fst out = Throw (Some (abort_reason env)))
    /\ (reader_events (trace (snd out)) = []
        \/ reader_events (trace (snd out)) = [true; false]).
Proof.
  intros env text voiceName apiKey onChunk retries pre post out Htr.
  destruct (generateSpeechStream_cancel env onChunk text voiceName apiKey retries)
    as (p & Hm & Hc).
  fold out in Hm, Hc. rewrite Htr in Hm.
  destruct (monitor_after_abort pre post Running p Hm) as (Hs & Hr & Hp).
  split; [assumption|]. split; [assumption|]. split.
  - intros Hn. apply Hc. apply Hp; [discriminate|assumption].
  - apply generateSpeechStream_reader.
Qed.

Lemma not_in_done_read (tr : list Event) :
  existsb is_done_read tr = false -> ~ In (EvRead None) tr.
Proof.
  induction tr as [|e tr IH]; intros H; [intros []|].
  cbn [existsb] in H. apply orb_false_iff in H. destruct H as [He Ht].
  intros [->|Hin]; [discriminate|]. exact (IH Ht Hin).
Qed.

Lemma cancellation_stops_requests_and_reads_witness :
  let out := run (generateSpeechStream (two_frames_env (Some 3%nat)) (lit "hi")
                    (lit "Kore") (Some (lit "key")) sink_resolves true 3) in
  trace (snd out)
  = before_abort (trace (snd out)) ++ EvAbort :: after_abort (trace (snd out))
  /\ sent (after_abort (trace (snd out))) = 0%nat
  /\ reads (after_abort (trace (snd out))) = []
  /\ fst out = Throw (Some AbortError).
Proof.
  intros out.
  assert (trace (snd out)
          = before_abort (trace (snd out))
            ++ EvAbort :: after_abort (trace (snd out))) as Htr
    by (vm_compute; reflexivity).
  split; [exact Htr|].
  destruct (cancellation_stops_requests_and_reads
              (two_frames_env (Some 3%nat)) (lit "hi") (lit "Kore")
              (Some (lit "key")) sink_resolves 3%nat
              (before_abort (trace (snd out))) (after_abort (trace (snd out)))
              Htr)
    as (Hs & Hr & Ht & _).
  split; [exact Hs|]. split; [exact Hr|].
  apply Ht. apply not_in_done_read. vm_compute. reflexivity.
Defined.

(* ------------------------------------------------------------------ *)
(** ** Single-shot synthesis under any answers *)

Lemma attempt_outcome_throws env o e :
  attempt_outcome env o = Throw e -> exists e', e = Some e'.
Proof.
  unfold attempt_outcome. destruct o as [e0|r].
  - intros H. inversion H. eexists; reflexivity.
  - destruct (negb (ok r)); [intros H; inversion H; eexists; reflexivity|].
    destruct (body_error r); [intros H; inversion H; eexists; reflexivity|].
    destruct (JSON_parse _); [|intros H; inversion H; eexists; reflexivity].
    destruct (negb (truthy _)); [intros H; inversion H; eexists; reflexivity|].
    destruct (buffer_of _ _); [discriminate|].
    intros H; inversion H; eexists; reflexivity.
Qed.

Section SpeechOutcome.
Variable env : Env.
Variables text voiceName : jstr.
Variable apiKey : option jstr.

(** One attempt sends one request, sleeps never, and comes to what
    [attempt_outcome] says of the answer. *)
Lemma speech_attempt_outcome attempt retries w :
  exists w',
    speech_attempt env text voiceName apiKey attempt retries w
      = (attempt_outcome env (env_fetch env (requests w)), w')
    /\ requests w' = S (requests w)
    /\ sent (trace w') = S (sent (trace w))
    /\ sleeps (trace w') = sleeps (trace w).
Proof.
  unfold speech_attempt, attempt_outcome, logger, fetch, emit, Date_now,
    next_request, tick, bind.
  simpl.
  destruct (env_fetch env (requests w)) as [e|r] eqn:E; simpl.
  - eexists; split; [reflexivity|]. obs. repeat split; lia.
  - destruct (ok r) eqn:Hok; simpl.
    + unfold response_json, read_body, tick, bind. simpl.
      destruct (body_error r) as [e|]; simpl.
      { eexists; split; [reflexivity|]. obs. repeat split; lia. }
      destruct (JSON_parse (utf8_decode (concat (body_pushes r)))) as [data|]; simpl.
      2:{ eexists; split; [reflexivity|]. obs. repeat split; lia. }
      destruct (truthy (audio_path (Some data))); simpl.
      2:{ eexists; split; [reflexivity|]. obs. repeat split; lia. }
      rewrite Buffer_from_eq.
      destruct (buffer_of env (audio_path (Some data))) as [pcm|]; simpl;
        (eexists; split; [reflexivity|]; obs; repeat split; lia).
    + unfold failure_of, response_text, read_body, tick, bind. simpl.
      destruct (body_error r) as [e|]; simpl.
      * eexists; split; [reflexivity|]. obs. repeat split; lia.
      * destruct (500 <=? status r)%nat; simpl;
          (eexists; split; [reflexivity|]; obs; repeat split; lia).
Qed.

(** The first [k] remaining attempts throw, and the next one either
    returns or is the last one permitted. *)
Lemma speech_loop_outcome retries :
  forall k fuel attempt lastError w,
    (k < fuel)%nat ->
    (attempt + k <= retries)%nat ->
    (forall i, (i < k)%nat ->
       thrown (attempt_outcome env (env_fetch env (requests w + i))) <> None) ->
    thrown (attempt_outcome env (env_fetch env (requests w + k))) = None
    \/ (attempt + k)%nat = retries ->
    exists w',
      speech_loop env fuel text voiceName apiKey retries attempt lastError w
        = (attempt_outcome env (env_fetch env (requests w + k)), w')
      /\ sent (trace w') = (sent (trace w) + S k)%nat
      /\ sleeps (trace w') = sleeps (trace w) ++ backoffs attempt k.
Proof.
  induction k as [|k IH]; intros fuel attempt lastError w Hfuel Hle Hall Hend;
    (destruct fuel as [|fuel]; [lia|]); simpl;
    replace (attempt <=? retries)%nat with true by (symmetry; apply Nat.leb_le; lia);
    unfold try_catch;
    destruct (speech_attempt_outcome attempt retries w) as (w1 & E1 & R1 & S1 & L1);
    rewrite E1.
  - rewrite Nat.add_0_r in *.
    destruct (attempt_outcome env (env_fetch env (requests w))) as [pcm|e] eqn:O.
    + eexists; split; [reflexivity|].
      rewrite S1, L1. unfold backoffs. simpl. obs. split; [lia|reflexivity].
    + destruct Hend as [Hend|Hend]; [discriminate Hend|].
      destruct (attempt_outcome_throws _ _ _ O) as (e' & ->).
      unfold bind at 1.
      destruct (speech_catch_effect env attempt retries e' w1) as (w2 & E2 & R2 & S2 & L2).
      rewrite E2.
      replace (attempt <? retries)%nat with false in L2
        by (symmetry; apply Nat.ltb_ge; lia).
      destruct fuel as [|fuel]; simpl;
        replace (S attempt <=? retries)%nat with false
          by (symmetry; apply Nat.leb_gt; lia);
        (eexists; split; [reflexivity|]);
        rewrite S2, S1, L2, L1; unfold backoffs; simpl; obs;
        (split; [lia|reflexivity]).
  - destruct (attempt_outcome env (env_fetch env (requests w))) as [pcm|e] eqn:O.
    { exfalso. apply (Hall 0%nat); [lia|]. rewrite Nat.add_0_r, O. reflexivity. }
    destruct (attempt_outcome_throws _ _ _ O) as (e' & ->).
    unfold bind at 1.
    destruct (speech_catch_effect env attempt retries e' w1) as (w2 & E2 & R2 & S2 & L2).
    rewrite E2.
    destruct (IH fuel (S attempt) (Some e') w2) as (w3 & E3 & S3 & L3); try lia.
    { intros i Hi. rewrite R2, R1.
      replace (S (requests w) + i)%nat with (requests w + S i)%nat by lia.
      apply Hall. lia. }
    { rewrite R2, R1.
      replace (S (requests w) + k)%nat with (requests w + S k)%nat by lia.
      destruct Hend as [Hend|Hend]; [left; exact Hend|right; lia]. }
    rewrite E3. eexists; split.
    + rewrite R2, R1. do 3 f_equal. lia.
    + rewrite S3, S2, S1, L3, L2, L1. split; [lia|].
      rewrite <- app_assoc. f_equal.
      replace (attempt <? retries)%nat with true by (symmetry; apply Nat.ltb_lt; lia).
      reflexivity.
Qed.

(** However the attempts end, the loop sends one request per attempt and
    sleeps once between two of them. *)
Lemma speech_loop_bounds retries :
  forall fuel attempt lastError w,
    (retries + 1 <= attempt + fuel)%nat ->
    exists r w' j,
      speech_loop env fuel text voiceName apiKey retries attempt lastError w = (r, w')
      /\ (j <= retries + 1 - attempt)%nat
      /\ ((attempt <= retries)%nat -> (1 <= j)%nat)
      /\ sent (trace w') = (sent (trace w) + j)%nat
      /\ sleeps (trace w') = sleeps (trace w) ++ backoffs attempt (j - 1).
Proof.
  induction fuel as [|fuel IH]; intros attempt lastError w Hfuel.
  - simpl. replace (attempt <=? retries)%nat with false
      by (symmetry; apply Nat.leb_gt; lia).
    exists (Throw lastError), w, 0%nat. split; [reflexivity|].
    unfold backoffs. simpl. obs. repeat split; lia.
  - simpl. destruct (attempt <=? retries)%nat eqn:Ha.
    2:{ apply Nat.leb_gt in Ha.
        exists (Throw lastError), w, 0%nat. split; [reflexivity|].
        unfold backoffs. simpl. obs. repeat split; lia. }
    apply Nat.leb_le in Ha. unfold try_catch.
    destruct (speech_attempt_outcome attempt retries w) as (w1 & E1 & R1 & S1 & L1).
    rewrite E1.
    destruct (attempt_outcome env (env_fetch env (requests w))) as [pcm|e] eqn:O.
    + exists (Ret pcm), w1, 1%nat. split; [reflexivity|].
      rewrite S1, L1. unfold backoffs. simpl. obs. repeat split; lia.
    + destruct (attempt_outcome_throws _ _ _ O) as (e' & ->).
      unfold bind at 1.
      destruct (speech_catch_effect env attempt retries e' w1) as (w2 & E2 & R2 & S2 & L2).
      rewrite E2.
      destruct (IH (S attempt) (Some e') w2) as (r & w3 & j & E3 & J1 & J2 & S3 & L3);
        [lia|].
      rewrite E3. exists r, w3, (S j). split; [reflexivity|].
      rewrite S3, S2, S1, L3, L2, L1. repeat split; try lia.
      rewrite <- app_assoc. f_equal. simpl. rewrite Nat.sub_0_r.
      destruct (attempt <? retries)%nat eqn:Hlt.
      * apply Nat.ltb_lt in Hlt.
        assert (1 <= j)%nat by (apply J2; lia).
        replace j with (S (j - 1)) at 2 by lia. reflexivity.
      * apply Nat.ltb_ge in Hlt.
        replace j with 0%nat by lia. reflexivity.
Qed.

End SpeechOutcome.

(** X1. Single-shot synthesis ends with the outcome of the first attempt
    that yields audio, or of the last attempt permitted when none does;
    every earlier attempt, whatever made it fail (a rejected request, a
    status that is not 2xx, an unreadable or malformed body, missing or
    undecodable audio), costs one request and one backoff. *)
Theorem generateSpeech_outcome :
  forall env text voiceName apiKey retries k,
    key_truthy apiKey = true ->
    (k < retries)%nat ->
    (forall i, (i < k)%nat ->
       thrown (attempt_outcome env (env_fetch env i)) <> None) ->
    thrown (attempt_outcome env (env_fetch env k)) = None \/ S k = retries ->
    let out := run (generateSpeech env text voiceName apiKey retries) in
    fst out = attempt_outcome env (env_fetch env k)
    /\ sent (trace (snd out)) = S k
    /\ sleeps (trace (snd out)) = backoffs 1 k.
Proof.
  intros env text voiceName apiKey retries k Hkey Hk Hall Hend out.
  subst out. unfold run, generateSpeech. rewrite Hkey. cbn [negb].
  destruct (speech_loop_outcome env text voiceName apiKey retries k retries 1%nat
              None initial_world) as (w' & E & S1 & L1); try lia.
  - exact Hall.
  - destruct Hend as [Hend|Hend]; [left; exact Hend|right; lia].
  - rewrite E. cbn [fst snd]. rewrite S1, L1. split; [reflexivity|].
    split; reflexivity.
Qed.

Lemma generateSpeech_outcome_witness :
  fst (run (generateSpeech flaky_env (lit "Hi") (lit "Kore") (Some (lit "k")) 3))
    = attempt_outcome flaky_env (env_fetch flaky_env 1)
  /\ sent (trace (snd (run (generateSpeech flaky_env (lit "Hi") (lit "Kore")
                              (Some (lit "k")) 3)))) = 2%nat
  /\ sleeps (trace (snd (run (generateSpeech flaky_env (lit "Hi") (lit "Kore")
                                (Some (lit "k")) 3)))) = backoffs 1 1.
Proof.
  apply (generateSpeech_outcome flaky_env (lit "Hi") (lit "Kore") (Some (lit "k")) 3 1).
  - reflexivity.
  - lia.
  - intros i Hi. assert (i = 0)%nat by lia. subst i. vm_compute. discriminate.
  - left. vm_compute. reflexivity.
Defined.

(** X2. Whatever the provider answers, single-shot synthesis sends at most
    [retries] requests, and between two consecutive requests it waits
    once: its delays are 1000 ms, 2000 ms, ... one fewer than the requests
    it sent. *)
Theorem generateSpeech_request_bound :
  forall env text voiceName apiKey retries,
    let out := run (generateSpeech env text voiceName apiKey retries) in
    (sent (trace (snd out)) <= retries)%nat
    /\ sleeps (trace (snd out)) = backoffs 1 (sent (trace (snd out)) - 1).
Proof.
  intros env text voiceName apiKey retries out. subst out.
  unfold run, generateSpeech.
  destruct (negb (key_truthy apiKey)).
  - cbn. split; [lia|reflexivity].
  - destruct (speech_loop_bounds env text voiceName apiKey retries retries 1%nat
                None initial_world) as (r & w' & j & E & J1 & J2 & S1 & L1); [lia|].
    rewrite E. cbn [snd]. rewrite S1, L1. cbn. split; [lia|reflexivity].
Qed.

(* ------------------------------------------------------------------ *)
(** ** Streaming synthesis under any answers *)

Section StreamBounds.
Variable env : Env.
Variables text voiceName : jstr.
Variable apiKey : option jstr.
Variable signal : bool.

(** One connection attempt sleeps never and sends one request, or none
    when the signal had fired before: then it throws with the signal
    aborted. *)
Lemma stream_attempt_bounds attempt retries w :
  exists r w',
    stream_attempt env text voiceName apiKey signal attempt retries w = (r, w')
    /\ sleeps (trace w') = sleeps (trace w)
    /\ (sent (trace w') = S (sent (trace w))
        \/ (sent (trace w') = sent (trace w)
            /\ (exists e, r = Throw (Some e))
            /\ signal && aborted env w' = true)).
Proof.
  unfold stream_attempt, logger, fetch, emit, next_request, tick, bind.
  simpl.
  match goal with
  | |- context [signal && aborted env ?x] =>
      destruct (signal && aborted env x) eqn:A0
  end.
  { do 2 eexists. split; [reflexivity|]. simpl. obs. split; [reflexivity|].
    right. split; [reflexivity|]. split; [eexists; reflexivity|exact A0]. }
  simpl.
  match goal with
  | |- context [signal && aborted env ?x] =>
      destruct (signal && aborted env x) eqn:A1
  end.
  { do 2 eexists. split; [reflexivity|]. simpl. obs. split; [reflexivity|].
    left. lia. }
  destruct (env_fetch env (requests w)) as [e|r] eqn:E; simpl.
  { do 2 eexists. split; [reflexivity|]. simpl. obs. split; [reflexivity|].
    left. lia. }
  destruct (ok r); simpl.
  { do 2 eexists. split; [reflexivity|]. simpl. obs. split; [reflexivity|].
    left. lia. }
  unfold response_text, read_body, tick, bind. simpl.
  match goal with
  | |- context [signal && aborted env ?x] =>
      destruct (signal && aborted env x) eqn:A2
  end.
  { do 2 eexists. split; [reflexivity|]. simpl. obs. split; [reflexivity|].
    left. lia. }
  destruct (body_error r) as [e|].
  { do 2 eexists. split; [reflexivity|]. simpl. obs. split; [reflexivity|].
    left. lia. }
  destruct (500 <=? status r)%nat;
    (do 2 eexists; split; [reflexivity|]; simpl; obs; split; [reflexivity|];
     left; lia).
Qed.

(** However the attempts end, the connection loop sends at most one
    request per attempt, none but in its last, and sleeps once between
    two attempts. *)
Lemma connect_loop_bounds retries :
  forall fuel attempt w,
    (retries + 1 <= attempt + fuel)%nat ->
    exists r w' j,
      connect_loop env fuel text voiceName apiKey signal retries attempt w = (r, w')
      /\ (j <= retries + 1 - attempt)%nat
      /\ ((attempt <= retries)%nat -> (1 <= j)%nat)
      /\ (sent (trace w) + (j - 1) <= sent (trace w'))%nat
      /\ (sent (trace w') <= sent (trace w) + j)%nat
      /\ sleeps (trace w') = sleeps (trace w) ++ backoffs attempt (j - 1).
Proof.
  induction fuel as [|fuel IH]; intros attempt w Hfuel.
  - simpl. replace (attempt <=? retries)%nat with false
      by (symmetry; apply Nat.leb_gt; lia).
    exists (Ret None), w, 0%nat. split; [reflexivity|].
    unfold backoffs. simpl. obs. repeat split; lia.
  - simpl. destruct (attempt <=? retries)%nat eqn:Ha.
    2:{ apply Nat.leb_gt in Ha.
        exists (Ret None), w, 0%nat. split; [reflexivity|].
        unfold backoffs. simpl. obs. repeat split; lia. }
    apply Nat.leb_le in Ha. unfold try_catch, bind at 1.
    destruct (stream_attempt_bounds attempt retries w) as (r1 & w1 & E1 & L1 & S1).
    rewrite E1.
    destruct r1 as [response|error].
    { exists (Ret (Some response)), w1, 1%nat. split; [reflexivity|].
      rewrite L1. unfold backoffs. simpl. obs.
      destruct S1 as [S1|(_ & (e & He) & _)]; [|discriminate He].
      repeat split; lia. }
    destruct error as [e|].
    2:{ exists (Throw (Some (TypeError (lit "Cannot read properties of undefined (reading 'name')")))), w1, 1%nat.
        split; [reflexivity|]. rewrite L1. unfold backoffs. simpl. obs.
        destruct S1 as [S1|(_ & (e & He) & _)]; [|discriminate He].
        repeat split; lia. }
    unfold is_cancel, bind at 1.
    destruct (jstr_eqb (err_name e) (lit "AbortError") || signal && aborted env w1)
      eqn:C.
    { exists (Throw (Some e)), w1, 1%nat. split; [reflexivity|].
      rewrite L1. unfold backoffs. simpl. obs.
      destruct S1 as [S1|(S1 & _ & _)]; repeat split; lia. }
    apply orb_false_iff in C. destruct C as [_ C].
    destruct S1 as [S1|(_ & _ & A)]; [|congruence].
    unfold message_of, logger, sleep, emit, tick, bind, ret. simpl.
    destruct (attempt <? retries)%nat eqn:Hlt.
    + apply Nat.ltb_lt in Hlt.
      match goal with
      | |- context [connect_loop env fuel text voiceName apiKey signal retries
                      (S attempt) ?x] =>
          destruct (IH (S attempt) x) as (r & w3 & j & E3 & J1 & J2 & S3 & S4 & L3);
            [lia|]
      end.
      rewrite E3. exists r, w3, (S j). split; [reflexivity|].
      simpl in S3, S4, L3. revert S3 S4 L3. obs. intros S3 S4 L3.
      rewrite L3, L1. assert (1 <= j)%nat by (apply J2; lia).
      repeat split; try lia.
      rewrite <- app_assoc. f_equal. simpl. rewrite Nat.sub_0_r.
      replace j with (S (j - 1)) at 2 by lia. reflexivity.
    + exists (Throw (Some e)), 
        (mk_world (trace w1 ++ [EvLog warn
                     (lit "Streaming attempt " ++ jstr_of_nat attempt
                        ++ lit " failed: " ++ err_message e) NoData])
                  (ticks w1) (requests w1) (clock_reads w1) (sink_calls w1)
                  (totalBytes w1)), 1%nat.
      split; [reflexivity|]. simpl. obs. rewrite L1. unfold backoffs. simpl.
      rewrite ?app_nil_r. repeat split; lia.
Qed.

End StreamBounds.

Lemma no_traffic_app (a b : list Event) :
  sent a = 0%nat /\ sleeps a = [] ->
  sent b = 0%nat /\ sleeps b = [] ->
  sent (a ++ b) = 0%nat /\ sleeps (a ++ b) = [].
Proof. intros [Sa La] [Sb Lb]. rewrite sent_app, sleeps_app, Sa, Sb, La, Lb. split; reflexivity. Qed.

Lemma no_traffic_deliver env pcm n :
  sent ([EvChunk pcm] ++ abort_mark env n ++ [EvChunkSettled]) = 0%nat
  /\ sleeps ([EvChunk pcm] ++ abort_mark env n ++ [EvChunkSettled]) = [].
Proof. obs. split; reflexivity. Qed.

(** The body phase sends no request and sleeps never. *)
Lemma stream_body_no_traffic env text voiceName onChunk signal response w :
  sent (trace (snd (stream_body env text voiceName onChunk signal response w)))
    = sent (trace w)
  /\ sleeps (trace (snd (stream_body env text voiceName onChunk signal response w)))
     = sleeps (trace w).
Proof.
  destruct (emits_stream_body env (fun evs => sent evs = 0%nat /\ sleeps evs = [])
              (conj eq_refl eq_refl) no_traffic_app
              (fun _ _ _ => conj eq_refl eq_refl) (conj eq_refl eq_refl)
              onChunk (fun _ => conj eq_refl eq_refl) (no_traffic_deliver env)
              (conj eq_refl eq_refl) (conj eq_refl eq_refl)
              text voiceName signal response w) as (evs & E & S0 & L0).
  rewrite E, sent_app, sleeps_app, S0, L0, app_nil_r. split; [lia|reflexivity].
Qed.

(** X3. Whatever the provider answers, whenever the caller cancels and
    however the sink behaves, streaming synthesis sends at most [retries]
    requests; its delays are 1000 ms, 2000 ms, ..., and there are as many
    of them as requests or one fewer. *)
Theorem generateSpeechStream_request_bound :
  forall env text voiceName apiKey onChunk signal retries,
    let out := run (generateSpeechStream env text voiceName apiKey onChunk
                      signal retries) in
    (sent (trace (snd out)) <= retries)%nat
    /\ exists k,
         sleeps (trace (snd out)) = backoffs 1 k
         /\ (k <= sent (trace (snd out)) <= S k)%nat.
Proof.
  intros env text voiceName apiKey onChunk signal retries out. subst out.
  unfold run, generateSpeechStream.
  destruct (negb (key_truthy apiKey)).
  { cbn. split; [lia|]. exists 0%nat. split; [reflexivity|lia]. }
  unfold bind.
  destruct (connect_loop_bounds env text voiceName apiKey signal retries retries
              1%nat initial_world)
    as (r & w' & j & E & J1 & J2 & S1 & S2 & L1); [lia|].
  rewrite E. cbn [trace initial_world sent sleeps app] in S1, S2, L1.
  destruct r as [response|e].
  - destruct (stream_body_no_traffic env text voiceName onChunk signal response w')
      as [S3 L3].
    rewrite S3, L3, L1. split; [lia|].
    exists (j - 1)%nat. split; [reflexivity|].
    destruct response as [response|].
    + assert (1 <= j)%nat.
      { destruct retries as [|n]; [|apply J2; lia].
        simpl in E. inversion E. }
      lia.
    + lia.
  - cbn [snd]. rewrite L1. split; [lia|].
    exists (j - 1)%nat. split; [reflexivity|].
    assert (1 <= j)%nat.
    { destruct retries as [|n]; [|apply J2; lia].
      simpl in E. inversion E. }
    lia.
Qed.

(** X4. A failure in the middle of the body is not retried. When the
    attempt that connects is answered with a body that breaks off with an
    error, the call throws that error; no request is sent after it; and
    the sink has received the chunks of the lines that were complete
    before the break, and nothing of the unfinished line. *)
Theorem midstream_failure_is_not_retried :
  forall env text voiceName apiKey onChunk signal retries k r e,
    key_truthy apiKey = true ->
    cancellable env signal = false ->
    (1 <= k <= retries)%nat ->
    (forall i, (i < k - 1)%nat -> stream_retryable (env_fetch env i) = true) ->
    env_fetch env (k - 1) = FetchResolves r ->
    ok r = true ->
    body_error r = Some e ->
    let out := run (generateSpeechStream env text voiceName apiKey onChunk
                      signal retries) in
    fst out = Throw (Some e)
    /\ sent (trace (snd out)) = k
    /\ sleeps (trace (snd out)) = backoffs 1 (k - 1)
    /\ chunks (trace (snd out))
       = flat_map (chunk_of_line env)
           (removelast (split_nl
              (fst (decode_stream new_TextDecoder (concat (body_pushes r)))))).
Proof.
  intros env text voiceName apiKey onChunk signal retries k r e
    Hkey Hc Hk Hfail E Hok Hb out.
  subst out. unfold run, generateSpeechStream. rewrite Hkey. cbn [negb].
  destruct (connect_loop_succeeds env text voiceName apiKey signal Hc retries r
              (k - 1) retries 1 initial_world)
    as (w' & E' & S' & L' & C'); try assumption; try lia.
  { intros i Hi. apply stream_retryable_fails. apply Hfail. assumption. }
  unfold bind. rewrite E'.
  destruct (stream_body_effect env text voiceName onChunk signal r w')
    as (r2 & w2 & em & E2 & C2 & _ & S2 & L2 & N2).
  rewrite E2. cbn [fst snd]. specialize (N2 Hc). rewrite Hb in N2.
  destruct N2 as [-> ->]. rewrite S2, L2, S', L', C2, C'. simpl.
  repeat split. lia.
Qed.

Lemma midstream_failure_is_not_retried_witness :
  let out := run (generateSpeechStream
                    (constant_env
                       (FetchResolves
                          (mk_response 200 [hello_frame ++ [10] ++ lit "data: {"]
                             (Some (Error (lit "socket hang up"))))) None)
                    (lit "Hi") (lit "Kore") (Some (lit "k")) sink_resolves false 3) in
  fst out = Throw (Some (Error (lit "socket hang up")))
  /\ sent (trace (snd out)) = 1%nat
  /\ sleeps (trace (snd out)) = []
  /\ chunks (trace (snd out)) = [lit "Hello"].
Proof.
  apply (midstream_failure_is_not_retried
           (constant_env
              (FetchResolves
                 (mk_response 200 [hello_frame ++ [10] ++ lit "data: {"]
                    (Some (Error (lit "socket hang up"))))) None)
           (lit "Hi") (lit "Kore") (Some (lit "k"))
           sink_resolves false 3 1
           (mk_response 200 [hello_frame ++ [10] ++ lit "data: {"]
              (Some (Error (lit "socket hang up"))))
           (Error (lit "socket hang up"))).
  - reflexivity.
  - reflexivity.
  - lia.
  - intros i Hi. lia.
  - reflexivity.
  - reflexivity.
  - reflexivity.
Defined.

(* ------------------------------------------------------------------ *)
(** ** The byte count of the summary *)

Lemma delivered_bytes_app a b :
  delivered_bytes (a ++ b) = (delivered_bytes a + delivered_bytes b)%nat.
Proof.
  unfold delivered_bytes. rewrite chunks_app, map_app, list_sum_app. reflexivity.
Qed.

Lemma delivered_bytes_abort_mark env n : delivered_bytes (abort_mark env n) = 0%nat.
Proof. unfold delivered_bytes. rewrite chunks_abort_mark. reflexivity. Qed.

Lemma accounted_refl w : accounted w w.
Proof. unfold accounted. lia. Qed.

Lemma accounted_trans w1 w2 w3 : accounted w1 w2 -> accounted w2 w3 -> accounted w1 w3.
Proof. unfold accounted. lia. Qed.

(** A step that hands nothing to the sink and leaves the counter. *)
Lemma accounted_silent w w' evs :
  trace w' = trace w ++ evs ->
  delivered_bytes evs = 0%nat ->
  totalBytes w' = totalBytes w ->
  accounted w w'.
Proof.
  unfold accounted. intros -> H ->. rewrite delivered_bytes_app, H. lia.
Qed.

Section Bytes.
Variable env : Env.
Variable onChunk : Sink.

Lemma keeps_bind {A B} (m : M A) (k : A -> M B) :
  keeps_account m -> (forall a, keeps_account (k a)) -> keeps_account (bind m k).
Proof.
  intros Hm Hk w. unfold bind. specialize (Hm w).
  destruct (m w) as [[a|e] w1]; cbn [snd] in *; [|exact Hm].
  eapply accounted_trans; [exact Hm|apply Hk].
Qed.

Lemma keeps_ret {A} (a : A) : keeps_account (ret a).
Proof. intros w. apply accounted_refl. Qed.

Lemma keeps_tick : keeps_account (tick env).
Proof.
  intros w. apply (accounted_silent w _ (abort_mark env (S (ticks w))));
    [reflexivity|apply delivered_bytes_abort_mark|reflexivity].
Qed.

Lemma keeps_processLine line : keeps_account (processLine env onChunk line).
Proof.
  intros w.
  destruct (processLine_shape env onChunk line w)
    as (w' & E & [[_ [->| ->]]|(pcm & logs & _ & -> & Hl)]); rewrite E; cbn [snd].
  - apply accounted_refl.
  - eapply accounted_silent; reflexivity.
  - unfold accounted, delivered. cbn [trace totalBytes].
    rewrite !delivered_bytes_app, delivered_bytes_abort_mark.
    replace (delivered_bytes logs) with 0%nat
      by (destruct Hl as [[-> _]|[-> _]]; reflexivity).
    unfold delivered_bytes. simpl. lia.
Qed.

Lemma keeps_process_lines lines : keeps_account (process_lines env onChunk lines).
Proof.
  induction lines as [|line rest IH]; cbn [process_lines]; [apply keeps_ret|].
  apply keeps_bind; [apply keeps_processLine|]. intros _.
  apply keeps_bind; [apply keeps_tick|]. intros _. apply IH.
Qed.

Lemma keeps_reader_read signal ending next :
  keeps_account (reader_read env signal ending next).
Proof.
  unfold reader_read. apply keeps_bind; [apply keeps_tick|]. intros _ w.
  destruct (signal && aborted env w); [apply accounted_refl|].
  destruct next as [value|]; [|destruct ending];
    try apply accounted_refl;
    (eapply accounted_silent; reflexivity).
Qed.

Lemma keeps_read_loop signal ending :
  forall pending decoder buffer,
    keeps_account (read_loop env onChunk signal ending pending decoder buffer).
Proof.
  induction pending as [|value rest IH]; intros decoder buffer; cbn [read_loop].
  - apply keeps_bind; [apply keeps_reader_read|]. intros _. apply keeps_ret.
  - apply keeps_bind; [apply keeps_reader_read|]. intros _.
    destruct (decode_stream decoder value) as [text decoder']. cbv zeta.
    apply keeps_bind; [apply keeps_process_lines|]. intros _. apply IH.
Qed.

Lemma keeps_consume signal response :
  keeps_account
    (try_finally
       (buffer <- read_loop env onChunk signal (body_error response)
                    (body_pushes response) new_TextDecoder [] ;;
        if JsString.nonempty (trim buffer)
        then processLine env onChunk (trim buffer) ;; tick env
        else ret tt)
       (emit EvReleaseLock)).
Proof.
  intros w. unfold try_finally.
  match goal with
  | |- context [let (_, _) := ?m w in _] =>
      assert (H : keeps_account m)
  end.
  { apply keeps_bind; [apply keeps_read_loop|]. intros buffer.
    destruct (JsString.nonempty (trim buffer)); [|apply keeps_ret].
    apply keeps_bind; [apply keeps_processLine|]. intros _. apply keeps_tick. }
  specialize (H w). revert H.
  match goal with
  | |- context [let (_, _) := ?m w in _] => destruct (m w) as [r w1]
  end.
  cbn [snd emit]. intros H. destruct r; cbn [snd];
    (eapply accounted_trans; [exact H|];
     eapply accounted_silent; reflexivity).
Qed.

End Bytes.

(** The summary of a call that returns. *)
Lemma stream_summary env text voiceName apiKey onChunk signal retries :
  exists r w',
    generateSpeechStream env text voiceName apiKey onChunk signal retries
      initial_world = (r, w')
    /\ (r = Ret tt ->
        exists before elapsed,
          trace w'
          = before
            ++ [EvLog info
                  (lit "Streamed " ++ jstr_of_nat (delivered_bytes (trace w'))
                     ++ lit " bytes of PCM audio in " ++ jstr_of_Z elapsed
                     ++ litq "ms for '" ++ substring0 50 text
                     ++ litq "...' using voice " ++ voiceName)
                  NoData]).
Proof.
  unfold generateSpeechStream.
  destruct (negb (key_truthy apiKey));
    [do 2 eexists; split; [reflexivity|discriminate]|].
  unfold bind at 1.
  destruct (emits_connect_loop env (fun evs => chunks evs = [])
              eq_refl (fun a b Ha Hb => eq_trans (chunks_app a b)
                                          (f_equal2 (@app _) Ha Hb))
              (fun _ _ _ => eq_refl) eq_refl
              (fun _ _ => eq_refl) (fun _ => eq_refl)
              text voiceName apiKey signal retries retries 1%nat initial_world)
    as (evs & E & HP).
  destruct (connect_loop env retries text voiceName apiKey signal retries 1
              initial_world) as [[response|e] w1]; cbn [snd] in E;
    [|do 2 eexists; split; [reflexivity|discriminate]].
  destruct response as [response|];
    [|do 2 eexists; split; [reflexivity|discriminate]].
  assert (H0 : delivered_bytes (trace w1) = 0%nat).
  { rewrite E. unfold delivered_bytes. cbn [trace initial_world app].
    rewrite HP. reflexivity. }
  unfold stream_body, bind at 1, Date_now. cbv beta iota.
  unfold bind at 1, emit. cbv beta iota.
  unfold bind at 1, set_totalBytes. cbv beta iota.
  cbn [trace ticks requests clock_reads sink_calls totalBytes].
  unfold bind at 1.
  match goal with
  | |- context [try_finally ?m ?f ?w0] =>
      assert (H : accounted w0 (snd (try_finally m f w0)))
        by exact (keeps_consume env onChunk signal response w0);
      revert H; destruct (try_finally m f w0) as [[u|e] w2]; intros H
  end; [|do 2 eexists; split; [reflexivity|discriminate]].
  unfold accounted in H. cbn [snd trace totalBytes] in H.
  rewrite delivered_bytes_app, H0 in H. cbn in H.
  unfold bind, Date_now, get_totalBytes, logger, emit.
  do 2 eexists. split; [reflexivity|]. intros _.
  cbn [trace totalBytes].
  exists (trace w2). eexists.
  rewrite delivered_bytes_app.
  match goal with
  | |- context [delivered_bytes [?e]] => change (delivered_bytes [e]) with 0%nat
  end.
  replace (delivered_bytes (trace w2) + 0)%nat with (totalBytes w2) by lia.
  reflexivity.
Qed.

(** X5. When a streaming call returns, the last thing it logs is the
    summary, and the byte count in it is the total length of the chunks
    handed to the sink, those the sink rejected included. *)
Theorem summary_counts_delivered_bytes :
  forall env text voiceName apiKey onChunk signal retries,
    let out := run (generateSpeechStream env text voiceName apiKey onChunk
                      signal retries) in
    fst out = Ret tt ->
    exists before elapsed,
      trace (snd out)
      = before
        ++ [EvLog info
              (lit "Streamed " ++ jstr_of_nat (delivered_bytes (trace (snd out)))
                 ++ lit " bytes of PCM audio in " ++ jstr_of_Z elapsed
                 ++ litq "ms for '" ++ substring0 50 text
                 ++ litq "...' using voice " ++ voiceName)
              NoData].
Proof.
  intros env text voiceName apiKey onChunk signal retries out. subst out.
  unfold run.
  destruct (stream_summary env text voiceName apiKey onChunk signal retries)
    as (r & w' & E & H).
  rewrite E. exact H.
Qed.

Lemma summary_counts_delivered_bytes_witness :
  exists before elapsed,
    trace (snd (run (generateSpeechStream (two_frames_env None) (lit "Hi")
                       (lit "Kore") (Some (lit "k")) sink_rejects false 3)))
    = before
      ++ [EvLog info
            (lit "Streamed "
               ++ jstr_of_nat
                    (delivered_bytes
                       (trace (snd (run (generateSpeechStream (two_frames_env None)
                                           (lit "Hi") (lit "Kore") (Some (lit "k"))
                                           sink_rejects false 3)))))
               ++ lit " bytes of PCM audio in " ++ jstr_of_Z elapsed
               ++ litq "ms for '" ++ substring0 50 (lit "Hi")
               ++ litq "...' using voice " ++ lit "Kore")
            NoData].
Proof.
  apply (summary_counts_delivered_bytes (two_frames_env None) (lit "Hi") (lit "Kore")
           (Some (lit "k")) sink_rejects false 3).
  vm_compute. reflexivity.
Defined.

(* ------------------------------------------------------------------ *)
(** ** The logger *)

Lemma visible_app current a b :
  visible current (a ++ b) = visible current a ++ visible current b.
Proof.
  induction a as [|e a IH]; [reflexivity|].
  destruct e; cbn [visible app]; try apply IH.
  destruct (dropped current l); [apply IH|]. cbn [app]. f_equal. apply IH.
Qed.

Lemma visible_abort_mark env current n : visible current (abort_mark env n) = [].
Proof.
  unfold abort_mark. destruct (caller_aborts_at env) as [t|]; [|reflexivity].
  destruct (t =? n)%nat; reflexivity.
Qed.

Lemma log_printed current timestamp l message data :
  log current timestamp l message data <> None <-> dropped current l = false.
Proof.
  unfold log. destruct (dropped current l).
  - split; [intros H; contradiction H; reflexivity|discriminate].
  - split; [reflexivity|]. intros _. destruct (data_truthy data); discriminate.
Qed.

Lemma currentLevel_rank toLowerCase LOG_LEVEL c :
  currentLevel toLowerCase LOG_LEVEL = Rank c -> (c <= 3)%nat.
Proof.
  unfold currentLevel. destruct LOG_LEVEL as [s|].
  - unfold LOG_LEVELS_get.
    repeat match goal with
           | |- context [if ?b then _ else _] => destruct b
           end; intros H; inversion H; lia.
  - intros H. inversion H. lia.
Qed.

(** X12. Whatever LOG_LEVEL holds, a call of logger.error is printed; a
    level is printed whenever a lower one is; and with LOG_LEVEL unset, or
    set to a name that LOG_LEVELS does not have, debug calls are dropped
    and info calls are printed. *)
Theorem log_level_filter :
  forall toLowerCase LOG_LEVEL timestamp message data,
    let current := currentLevel toLowerCase LOG_LEVEL in
    log current timestamp error message data <> None
    /\ (forall l l',
          (LOG_LEVELS l <= LOG_LEVELS l')%nat ->
          log current timestamp l message data <> None ->
          log current timestamp l' message data <> None)
    /\ ((LOG_LEVEL = None
         \/ exists s, LOG_LEVEL = Some s
                      /\ LOG_LEVELS_get (toLowerCase s) = NoLevel) ->
        log current timestamp debug message data = None
        /\ log current timestamp info message data <> None).
Proof.
  intros toLowerCase LOG_LEVEL timestamp message data current.
  split; [|split].
  - apply log_printed. unfold dropped.
    destruct current as [c| |] eqn:E; try reflexivity.
    apply currentLevel_rank in E. apply Nat.ltb_ge. exact E.
  - intros l l' Hle H. apply log_printed in H. apply log_printed.
    unfold dropped in *. destruct current; try reflexivity.
    apply Nat.ltb_ge in H. apply Nat.ltb_ge. lia.
  - intros H.
    assert (E : current = Rank 1).
    { subst current. unfold currentLevel.
      destruct H as [-> | (s & -> & ->)]; reflexivity. }
    rewrite E. split; [reflexivity|]. apply log_printed. reflexivity.
Qed.

Lemma log_level_filter_witness :
  log (currentLevel (map lower_ascii) (Some (lit "verbose"))) (lit "T") debug
      (lit "Failed to parse SSE data") NoData = None
  /\ log (currentLevel (map lower_ascii) (Some (lit "verbose"))) (lit "T") info
         (lit "Failed to parse SSE data") NoData <> None.
Proof.
  apply (proj2 (proj2 (log_level_filter (map lower_ascii) (Some (lit "verbose"))
                         (lit "T") (lit "Failed to parse SSE data") NoData))).
  right. exists (lit "verbose"). split; [reflexivity|vm_compute; reflexivity].
Defined.

(** What the body phase prints when debug calls are dropped. *)
Section QuietBody.

Variable env : Env.
Variable onChunk : Sink.
Variable current : LevelValue.
Hypothesis debug_dropped : dropped current debug = true.

Lemma quiet_nil : quiet current [].
Proof. reflexivity. Qed.

Lemma quiet_app a b : quiet current a -> quiet current b -> quiet current (a ++ b).
Proof. unfold quiet. intros Ha Hb. rewrite visible_app, Ha, Hb. reflexivity. Qed.

Lemma quiet_abort : quiet current [EvAbort].
Proof. reflexivity. Qed.

Lemma quiet_debug message data : quiet current [EvLog debug message data].
Proof. unfold quiet. cbn [visible]. rewrite debug_dropped. reflexivity. Qed.

Lemma quiet_processLine line : emits (quiet current) (processLine env onChunk line).
Proof.
  intros w.
  destruct (processLine_shape env onChunk line w)
    as (w' & E & [[_ [->| ->]]|(pcm & logs & _ & -> & Hl)]); rewrite E; cbn [snd].
  - exists []. rewrite app_nil_r. split; [reflexivity|apply quiet_nil].
  - eexists. split; [reflexivity|]. apply quiet_debug.
  - exists (([EvChunk pcm] ++ abort_mark env (S (ticks w)) ++ [EvChunkSettled]) ++ logs).
    split.
    + unfold delivered. cbn [trace]. rewrite <- !app_assoc. reflexivity.
    + apply quiet_app.
      * unfold quiet. rewrite !visible_app, visible_abort_mark. reflexivity.
      * destruct Hl as [[-> _]|[-> _]]; [apply quiet_nil|apply quiet_debug].
Qed.

Lemma quiet_tick : emits (quiet current) (tick env).
Proof. apply emits_tick; [exact quiet_nil|exact quiet_abort]. Qed.

Lemma quiet_process_lines lines : emits (quiet current) (process_lines env onChunk lines).
Proof.
  induction lines as [|line rest IH]; cbn [process_lines];
    [apply emits_ret, quiet_nil|].
  apply emits_bind; [exact quiet_app|apply quiet_processLine|]. intros _.
  apply emits_bind; [exact quiet_app|apply quiet_tick|]. intros _. apply IH.
Qed.

Lemma quiet_reader_read signal ending next :
  emits (quiet current) (reader_read env signal ending next).
Proof.
  unfold reader_read. apply emits_bind; [exact quiet_app|apply quiet_tick|]. intros _.
  apply (emits_if (quiet current) (fun w => signal && aborted env w));
    [apply emits_throw, quiet_nil|].
  destruct next as [value|]; [|destruct ending].
  - apply emits_bind; [exact quiet_app|apply emits_emit; reflexivity|].
    intros _. apply emits_ret, quiet_nil.
  - apply emits_throw, quiet_nil.
  - apply emits_bind; [exact quiet_app|apply emits_emit; reflexivity|].
    intros _. apply emits_ret, quiet_nil.
Qed.

Lemma quiet_read_loop signal ending :
  forall pending decoder buffer,
    emits (quiet current) (read_loop env onChunk signal ending pending decoder buffer).
Proof.
  induction pending as [|value rest IH]; intros decoder buffer; cbn [read_loop].
  - apply emits_bind; [exact quiet_app|apply quiet_reader_read|].
    intros _. apply emits_ret, quiet_nil.
  - apply emits_bind; [exact quiet_app|apply quiet_reader_read|]. intros _.
    destruct (decode_stream decoder value) as [text decoder']. cbv zeta.
    apply emits_bind; [exact quiet_app|apply quiet_process_lines|]. intros _. apply IH.
Qed.

Lemma quiet_consume signal response :
  emits (quiet current)
    (try_finally
       (buffer <- read_loop env onChunk signal (body_error response)
                    (body_pushes response) new_TextDecoder [] ;;
        if JsString.nonempty (trim buffer)
        then processLine env onChunk (trim buffer) ;; tick env
        else ret tt)
       (emit EvReleaseLock)).
Proof.
  apply emits_try_finally; [exact quiet_app| |apply emits_emit; reflexivity].
  apply emits_bind; [exact quiet_app|apply quiet_read_loop|]. intros buffer.
  destruct (JsString.nonempty (trim buffer)); [|apply emits_ret, quiet_nil].
  apply emits_bind; [exact quiet_app|apply quiet_processLine|]. intros _.
  apply quiet_tick.
Qed.

End QuietBody.

(** X6. Once the connection is made, a streaming call whose logger drops
    debug calls prints nothing while it reads the body, whatever frames
    are malformed and however the sink fails; all it prints is the final
    summary, at info level, and only when the call returns. *)
Theorem body_phase_prints_summary_only :
  forall env text voiceName onChunk signal response current w,
    dropped current debug = true ->
    let out := stream_body env text voiceName onChunk signal (Some response) w in
    exists evs,
      trace (snd out) = trace w ++ evs
      /\ (visible current evs = []
          \/ (fst out = Ret tt
              /\ exists message,
                   visible current evs = [EvLog info message NoData])).
Proof.
  intros env text voiceName onChunk signal response current w Hd out.
  assert (H : exists r w' evs,
             stream_body env text voiceName onChunk signal (Some response) w = (r, w')
             /\ trace w' = trace w ++ evs
             /\ (visible current evs = []
                 \/ (r = Ret tt
                     /\ exists message,
                          visible current evs = [EvLog info message NoData]))).
  { unfold stream_body, bind at 1, Date_now. cbv beta iota.
    unfold bind at 1, emit. cbv beta iota.
    unfold bind at 1, set_totalBytes. cbv beta iota.
    cbn [trace ticks requests clock_reads sink_calls totalBytes].
    unfold bind at 1.
    match goal with
    | |- context [try_finally ?m ?f ?w1] =>
        assert (H : exists evs, trace (snd (try_finally m f w1)) = trace w1 ++ evs
                                /\ quiet current evs)
          by exact (quiet_consume env onChunk current Hd signal response w1);
        destruct H as (evs & E & Q);
        revert E; destruct (try_finally m f w1) as [[u|e] w2]; intros E
    end; cbn [snd trace] in E; unfold quiet in Q.
    - unfold bind, Date_now, get_totalBytes, logger, emit. cbn [fst snd trace].
      do 3 eexists. split; [reflexivity|]. cbn [trace]. rewrite E, <- !app_assoc.
      split; [reflexivity|].
      rewrite !visible_app, Q. cbn [visible app].
      destruct (dropped current info); [left; reflexivity|].
      right. split; [reflexivity|]. eexists. reflexivity.
    - do 3 eexists. split; [reflexivity|]. rewrite E, <- !app_assoc.
      split; [reflexivity|].
      left. rewrite !visible_app, Q. reflexivity. }
  destruct H as (r & w' & evs & E & T & V).
  subst out. rewrite E. exists evs. split; [exact T|exact V].
Qed.

Lemma body_phase_prints_summary_only_witness :
  exists evs,
    trace (snd (stream_body (two_frames_env None) (lit "Hi") (lit "Kore")
                  sink_rejects false
                  (Some (mk_response 200 [hello_frame ++ [10] ++ lit "data: {oops" ++ [10]] None))
                  initial_world))
      = trace initial_world ++ evs
    /\ (visible (Rank 1) evs = []
        \/ (fst (stream_body (two_frames_env None) (lit "Hi") (lit "Kore")
                   sink_rejects false
                   (Some (mk_response 200 [hello_frame ++ [10] ++ lit "data: {oops" ++ [10]] None))
                   initial_world) = Ret tt
            /\ exists message, visible (Rank 1) evs = [EvLog info message NoData])).
Proof.
  apply (body_phase_prints_summary_only (two_frames_env None) (lit "Hi") (lit "Kore")
           sink_rejects false
           (mk_response 200 [hello_frame ++ [10] ++ lit "data: {oops" ++ [10]] None)
           (Rank 1) initial_world).
  reflexivity.
Defined.

(* ------------------------------------------------------------------ *)
(** ** Line endings *)

Lemma trimStart_snoc s c :
  is_trim_space c = true ->
  trimStart (s ++ [c])
  = match trimStart s with
    | [] => []
    | t => t ++ [c]
    end.
Proof.
  intros Hc. induction s as [|x s IH]; simpl.
  - rewrite Hc. reflexivity.
  - destruct (is_trim_space x); [exact IH|reflexivity].
Qed.

Lemma trim_snoc s c : is_trim_space c = true -> trim (s ++ [c]) = trim s.
Proof.
  intros Hc. unfold trim. rewrite (trimStart_snoc s c Hc).
  destruct (trimStart s) as [|x t]; [reflexivity|].
  rewrite rev_app_distr. simpl rev at 2. cbn [app trimStart]. rewrite Hc.
  reflexivity.
Qed.

Lemma startsWith_snoc p s c :
  ~ In c p -> startsWith p (s ++ [c]) = startsWith p s.
Proof.
  revert s. induction p as [|x p IH]; intros s Hc; [destruct s; reflexivity|].
  destruct s as [|y s].
  - change (startsWith (x :: p) ([] ++ [c])) with ((x =? c) && startsWith p []).
    replace (x =? c) with false; [reflexivity|].
    symmetry. apply Z.eqb_neq. intros ->. apply Hc. left. reflexivity.
  - change (startsWith (x :: p) ((y :: s) ++ [c]))
      with ((x =? y) && startsWith p (s ++ [c])).
    change (startsWith (x :: p) (y :: s)) with ((x =? y) && startsWith p s).
    rewrite IH; [reflexivity|]. intros H. apply Hc. right. exact H.
Qed.

Lemma startsWith_length p s : startsWith p s = true -> (length p <= length s)%nat.
Proof.
  revert s. induction p as [|x p IH]; intros s H; [simpl; lia|].
  destruct s as [|y s]; [discriminate H|].
  change (startsWith (x :: p) (y :: s)) with ((x =? y) && startsWith p s) in H.
  apply andb_true_iff in H. destruct H as [_ H]. apply IH in H. simpl. lia.
Qed.

Lemma slice_snoc n s c : (n <= length s)%nat -> slice n (s ++ [c]) = slice n s ++ [c].
Proof.
  intros H. unfold slice. rewrite skipn_app.
  replace (n - length s)%nat with 0%nat by lia. reflexivity.
Qed.

(** X7. A carriage return at the end of a line changes nothing: the line
    is processed exactly as the line without it (the same chunk, the same
    call of the sink, the same log), so that lines ended by CR LF are read
    like lines ended by LF. *)
Theorem carriage_return_is_ignored :
  forall env onChunk line w,
    processLine env onChunk (line ++ [13]) w = processLine env onChunk line w
    /\ chunk_of_line env (line ++ [13]) = chunk_of_line env line.
Proof.
  intros env onChunk line w.
  assert (Hs : startsWith (lit "data: ") (line ++ [13]) = startsWith (lit "data: ") line).
  { apply startsWith_snoc. vm_compute. intuition discriminate. }
  unfold processLine, chunk_of_line. rewrite Hs.
  destruct (startsWith (lit "data: ") line) eqn:S; [|split; reflexivity].
  apply startsWith_length in S.
  rewrite slice_snoc by exact S.
  rewrite trim_snoc by reflexivity.
  split; reflexivity.
Qed.

(* ------------------------------------------------------------------ *)
(** ** Voice mapping *)

Lemma jstr_eqb_eq (a b : jstr) : jstr_eqb a b = true -> a = b.
Proof.
  revert b. induction a as [|x a IH]; intros [|y b] H; try reflexivity;
    try discriminate H.
  change (jstr_eqb (x :: a) (y :: b)) with ((x =? y) && jstr_eqb a b) in H.
  apply andb_true_iff in H. destruct H as [Hx Ha].
  apply Z.eqb_eq in Hx. subst. f_equal. apply IH, Ha.
Qed.

Lemma own_property_in key table v :
  own_property key table = Some v -> In (key, v) table.
Proof.
  induction table as [|[k v'] rest IH]; simpl; [discriminate|].
  destruct (jstr_eqb k key) eqn:E.
  - intros H. inversion H. subst. apply jstr_eqb_eq in E. subst. left. reflexivity.
  - intros H. right. apply IH, H.
Qed.

Lemma in_checked {A} (check : A -> bool) (l : list A) (x : A) :
  forallb check l = true -> In x l -> check x = true.
Proof. intros H Hin. rewrite forallb_forall in H. apply H, Hin. Qed.

Lemma find_ext_in {A} (f g : A -> bool) (l : list A) :
  (forall x, In x l -> f x = g x) -> find f l = find g l.
Proof.
  induction l as [|x l IH]; intros H; [reflexivity|]. simpl.
  rewrite (H x) by (left; reflexivity).
  destruct (g x); [reflexivity|]. apply IH. intros y Hy. apply H. right. exact Hy.
Qed.

Lemma get_own key table v : get table key = Own v -> In (key, v) table.
Proof.
  unfold get. destruct (own_property key table) as [v'|] eqn:E.
  - intros H. inversion H. subst. apply own_property_in, E.
  - destruct (existsb (jstr_eqb key) Object_prototype_names); discriminate.
Qed.

Lemma get_inherited key table name :
  get table key = Inherited name ->
  name = key /\ In key Object_prototype_names.
Proof.
  unfold get. destruct (own_property key table); [discriminate|].
  destruct (existsb (jstr_eqb key) Object_prototype_names) eqn:E; [|discriminate].
  intros H. inversion H. split; [reflexivity|].
  apply existsb_exists in E. destruct E as (n & Hin & Hn).
  apply jstr_eqb_eq in Hn. subst. exact Hin.
Qed.

(** Every value of the alias table is one of the provider's voices. *)
Lemma alias_targets_are_voices key v :
  In (key, v) OPENAI_TO_GEMINI_VOICE_MAP -> In v GEMINI_VOICES.
Proof.
  intros Hin.
  assert (H : existsb (jstr_eqb v) GEMINI_VOICES = true).
  { apply (in_checked (fun kv => existsb (jstr_eqb (snd kv)) GEMINI_VOICES)
             OPENAI_TO_GEMINI_VOICE_MAP (key, v)); [vm_compute; reflexivity|exact Hin]. }
  apply existsb_exists in H. destruct H as (g & Hg & E).
  apply jstr_eqb_eq in E. subst. exact Hg.
Qed.

(** What mapVoice can return. *)
Lemma mapVoice_cases toLowerCase voice defaultVoice :
  match mapVoice toLowerCase voice defaultVoice with
  | Name s =>
      s = match defaultVoice with Some d => d | None => lit "Kore" end
      \/ In s GEMINI_VOICES
  | Builtin name =>
      exists v, voice = Some v /\ v <> [] /\ toLowerCase v = name
                /\ In name Object_prototype_names
  end.
Proof.
  unfold mapVoice.
  destruct voice as [v|]; [|left; reflexivity].
  destruct v as [|c v]; [left; reflexivity|].
  cbn [JsString.nonempty negb]. cbv zeta.
  set (lowerVoice := toLowerCase (c :: v)).
  assert (Hg : match
             match find (fun g => jstr_eqb (toLowerCase g) lowerVoice) GEMINI_VOICES with
             | Some geminiVoice =>
                 if JsString.nonempty geminiVoice then Name geminiVoice
                 else Name (match defaultVoice with Some d => d | None => lit "Kore" end)
             | None => Name (match defaultVoice with Some d => d | None => lit "Kore" end)
             end
           with
           | Name s => s = match defaultVoice with Some d => d | None => lit "Kore" end
                       \/ In s GEMINI_VOICES
           | Builtin _ => False
           end).
  { destruct (find _ GEMINI_VOICES) as [g|] eqn:F; [|left; reflexivity].
    apply find_some in F. destruct F as [Hin _].
    destruct (JsString.nonempty g); [right; exact Hin|left; reflexivity]. }
  destruct (get OPENAI_TO_GEMINI_VOICE_MAP lowerVoice) as [s|name|] eqn:G.
  - destruct (JsString.nonempty s).
    + right. apply get_own in G. eapply alias_targets_are_voices, G.
    + destruct (match find _ GEMINI_VOICES with Some _ => _ | None => _ end);
        [exact Hg|contradiction].
  - apply get_inherited in G. destruct G as [-> Hin].
    exists (c :: v). repeat split; [discriminate|exact Hin].
  - destruct (match find _ GEMINI_VOICES with Some _ => _ | None => _ end);
      [exact Hg|contradiction].
Qed.

Lemma get_prototype_name name :
  In name Object_prototype_names ->
  get OPENAI_TO_GEMINI_VOICE_MAP name = Inherited name.
Proof.
  intros Hin.
  repeat (destruct Hin as [Hin|Hin]; [subst name; vm_compute; reflexivity|]).
  destruct Hin.
Qed.

(** X8. mapVoice returns the default or one of GEMINI_VOICES, and nothing
    else, unless the lower-cased voice names a property that the alias
    table inherits from Object.prototype (constructor, for one): exactly
    then it returns that inherited value, which is no string. *)
Theorem mapVoice_range :
  forall toLowerCase voice defaultVoice,
    (forall s,
        mapVoice toLowerCase voice defaultVoice = Name s ->
        s = match defaultVoice with Some d => d | None => lit "Kore" end
        \/ In s GEMINI_VOICES)
    /\ (forall name,
          mapVoice toLowerCase voice defaultVoice = Builtin name <->
          exists v, voice = Some v /\ v <> [] /\ toLowerCase v = name
                    /\ In name Object_prototype_names).
Proof.
  intros toLowerCase voice defaultVoice.
  pose proof (mapVoice_cases toLowerCase voice defaultVoice) as C.
  split; [|split].
  - intros s E. rewrite E in C. exact C.
  - intros E. rewrite E in C. exact C.
  - intros (v & -> & Hv & Hlow & Hin).
    unfold mapVoice. destruct v as [|c v]; [congruence|].
    cbn [JsString.nonempty negb]. cbv zeta.
    rewrite Hlow, (get_prototype_name name Hin). reflexivity.
Qed.

Lemma mapVoice_range_witness :
  mapVoice (map lower_ascii) (Some (lit "Constructor")) None
    = Builtin (lit "constructor").
Proof.
  apply (proj2 (mapVoice_range (map lower_ascii) (Some (lit "Constructor")) None)).
  exists (lit "Constructor").
  split; [reflexivity|]. split; [discriminate|]. split; vm_compute; tauto.
Defined.

(** X9. A voice whose lower-casing is a key of the alias table is mapped
    to that key's Gemini voice, whatever its capitalisation and whatever
    the default. *)
Theorem mapVoice_alias :
  forall toLowerCase v defaultVoice key target,
    In (key, target) OPENAI_TO_GEMINI_VOICE_MAP ->
    v <> [] ->
    toLowerCase v = key ->
    mapVoice toLowerCase (Some v) defaultVoice = Name target
    /\ In target GEMINI_VOICES.
Proof.
  intros toLowerCase v defaultVoice key target Hin Hv Hlow.
  split; [|eapply alias_targets_are_voices, Hin].
  unfold mapVoice. destruct v as [|c v]; [congruence|].
  cbn [JsString.nonempty negb]. cbv zeta. rewrite Hlow.
  assert (G : get OPENAI_TO_GEMINI_VOICE_MAP key = Own target
              /\ JsString.nonempty target = true).
  { clear Hlow Hv.
    repeat (destruct Hin as [Hin|Hin];
            [inversion Hin; subst; split; vm_compute; reflexivity|]).
    destruct Hin. }
  destruct G as [-> ->]. reflexivity.
Qed.

Lemma mapVoice_alias_witness :
  mapVoice (map lower_ascii) (Some (lit "ALLOY")) None = Name (lit "Kore")
  /\ In (lit "Kore") GEMINI_VOICES.
Proof.
  apply (mapVoice_alias (map lower_ascii) (lit "ALLOY") None (lit "alloy") (lit "Kore")).
  - left. reflexivity.
  - discriminate.
  - vm_compute. reflexivity.
Defined.

Lemma voices_are_ascii g :
  In g GEMINI_VOICES -> forallb is_ascii g = true.
Proof.
  apply (in_checked (forallb is_ascii) GEMINI_VOICES g). vm_compute. reflexivity.
Qed.

Lemma mapVoice_of_voice toLowerCase v defaultVoice g :
  lowers_ascii toLowerCase ->
  In g GEMINI_VOICES ->
  v <> [] ->
  toLowerCase v = toLowerCase g ->
  mapVoice toLowerCase (Some v) defaultVoice = Name g.
Proof.
  intros Hlow Hin Hv Hsame.
  unfold mapVoice. destruct v as [|c v]; [congruence|].
  cbn [JsString.nonempty negb]. cbv zeta. rewrite Hsame.
  rewrite (Hlow g) by (apply voices_are_ascii, Hin).
  rewrite (find_ext_in _ (fun x => jstr_eqb (map lower_ascii x) (map lower_ascii g))).
  2:{ intros x Hx. rewrite (Hlow x) by (apply voices_are_ascii, Hx). reflexivity. }
  clear Hsame Hv Hlow.
  repeat (destruct Hin as [Hin|Hin]; [subst g; vm_compute; reflexivity|]).
  destruct Hin.
Qed.

(** X10. On a Gemini voice name in any capitalisation mapVoice returns the
    name as GEMINI_VOICES spells it, whatever the default. *)
Theorem mapVoice_gemini_name :
  forall toLowerCase v defaultVoice g,
    lowers_ascii toLowerCase ->
    In g GEMINI_VOICES ->
    v <> [] ->
    toLowerCase v = toLowerCase g ->
    mapVoice toLowerCase (Some v) defaultVoice = Name g.
Proof.
  intros toLowerCase v defaultVoice g. apply mapVoice_of_voice.
Qed.

Lemma mapVoice_gemini_name_witness :
  mapVoice (map lower_ascii) (Some (lit "zEPHYR")) (Some (lit "Puck"))
    = Name (lit "Zephyr").
Proof.
  apply (mapVoice_gemini_name (map lower_ascii) (lit "zEPHYR") (Some (lit "Puck"))
           (lit "Zephyr")).
  - intros s _. reflexivity.
  - vm_compute. tauto.
  - discriminate.
  - vm_compute. reflexivity.
Defined.

(** X11. Mapping is idempotent when the default is itself a Gemini voice
    (as the default default, Kore, is): a name that mapVoice returned is
    mapped to itself. *)
Theorem mapVoice_idempotent :
  forall toLowerCase voice defaultVoice s,
    lowers_ascii toLowerCase ->
    In (match defaultVoice with Some d => d | None => lit "Kore" end) GEMINI_VOICES ->
    mapVoice toLowerCase voice defaultVoice = Name s ->
    mapVoice toLowerCase (Some s) defaultVoice = Name s.
Proof.
  intros toLowerCase voice defaultVoice s Hlow Hd Hm.
  assert (Hin : In s GEMINI_VOICES).
  { pose proof (mapVoice_cases toLowerCase voice defaultVoice) as R.
    rewrite Hm in R. destruct R as [-> | R]; assumption. }
  apply mapVoice_of_voice; try assumption; [|reflexivity].
  intros ->. revert Hin. vm_compute. intuition discriminate.
Qed.

Lemma mapVoice_idempotent_witness :
  mapVoice (map lower_ascii) (Some (lit "Kore")) None = Name (lit "Kore").
Proof.
  apply (mapVoice_idempotent (map lower_ascii) (Some (lit "nobody")) None (lit "Kore")).
  - intros s _. reflexivity.
  - vm_compute. tauto.
  - vm_compute. reflexivity.
Defined.

(* ------------------------------------------------------------------ *)
(** ** No attempt allowed *)

(** X13. With [retries] 0 no attempt is made and nothing is sent or
    logged: generateSpeech throws its initial [lastError], which is
    [undefined] and no Error object, and generateSpeechStream fails with
    the TypeError of reading [body] of the response it never got. *)
Theorem zero_retries :
  forall env text voiceName apiKey onChunk signal,
    key_truthy apiKey = true ->
    run (generateSpeech env text voiceName apiKey 0)
      = (Throw None, initial_world)
    /\ fst (run (generateSpeechStream env text voiceName apiKey onChunk signal 0))
       = Throw (Some (TypeError
                        (lit "Cannot read properties of undefined (reading 'body')")))
    /\ trace (snd (run (generateSpeechStream env text voiceName apiKey onChunk
                          signal 0))) = [].
Proof.
  intros env text voiceName apiKey onChunk signal Hkey.
  unfold run, generateSpeech, generateSpeechStream. rewrite Hkey.
  split; [reflexivity|]. split; reflexivity.
Qed.

Lemma zero_retries_witness :
  run (generateSpeech flaky_env (lit "Hi") (lit "Kore") (Some (lit "k")) 0)
    = (Throw None, initial_world)
  /\ fst (run (generateSpeechStream flaky_env (lit "Hi") (lit "Kore")
                 (Some (lit "k")) sink_resolves true 0))
     = Throw (Some (TypeError
                      (lit "Cannot read properties of undefined (reading 'body')")))
  /\ trace (snd (run (generateSpeechStream flaky_env (lit "Hi") (lit "Kore")
                        (Some (lit "k")) sink_resolves true 0))) = [].
Proof.
  apply (zero_retries flaky_env (lit "Hi") (lit "Kore") (Some (lit "k"))
           sink_resolves true).
  reflexivity.
Defined.

(* ------------------------------------------------------------------ *)
(** ** Voices that match nothing *)

Lemma find_nothing {A} (f : A -> bool) (l : list A) :
  (forall x, In x l -> f x = false) -> find f l = None.
Proof.
  induction l as [|x l IH]; intros H; [reflexivity|]. simpl.
  rewrite (H x) by (left; reflexivity). apply IH. intros y Hy. apply H. right. exact Hy.
Qed.

(** X14. mapVoice returns the default when the voice is absent or empty,
    and when its lower-casing is neither a property of the alias table
    nor the lower-casing of a member of GEMINI_VOICES. *)
Theorem mapVoice_default :
  forall toLowerCase voice defaultVoice,
    (voice = None \/ voice = Some []
     \/ exists v, voice = Some v
                  /\ get OPENAI_TO_GEMINI_VOICE_MAP (toLowerCase v) = Missing
                  /\ forall g, In g GEMINI_VOICES -> toLowerCase g <> toLowerCase v) ->
    mapVoice toLowerCase voice defaultVoice
    = Name (match defaultVoice with Some d => d | None => lit "Kore" end).
Proof.
  intros toLowerCase voice defaultVoice [-> | [-> | (v & -> & G & H)]];
    [reflexivity|reflexivity|].
  unfold mapVoice. destruct (negb (JsString.nonempty v)); [reflexivity|].
  cbv zeta. rewrite G, find_nothing; [reflexivity|].
  intros g Hg. destruct (jstr_eqb (toLowerCase g) (toLowerCase v)) eqn:E;
    [|reflexivity].
  apply jstr_eqb_eq in E. exfalso. exact (H g Hg E).
Qed.

Lemma mapVoice_default_witness :
  mapVoice (map lower_ascii) (Some (lit "Robot")) (Some (lit "Puck"))
    = Name (lit "Puck").
Proof.
  apply (mapVoice_default (map lower_ascii) (Some (lit "Robot")) (Some (lit "Puck"))).
  right. right. exists (lit "Robot").
  split; [reflexivity|]. split; [vm_compute; reflexivity|].
  intros g Hg.
  repeat (destruct Hg as [Hg|Hg]; [subst g; vm_compute; discriminate|]).
  destruct Hg.
Defined.
